(** * Persistence matrix engine (GUDHI): columns, field elements, chain
      columns and the boundary matrix, embedded from the C++ sources.

    Conventions.
    - A row index ([index], an unsigned integer of the sources) on which the
      code performs no arithmetic is a binary natural number ([N]).
    - Values on which the code computes (the [unsigned int] of the field
      elements) are integers ([Z]) with the 32-bit wrap-around written out
      ([wrap]).
    - Results that use [-1] as the "none" sentinel (a pivot, what
      [remove_last] returns) are integers ([Z]) and keep [-1]. *)

From Stdlib Require Import ZArith Zdivisibility Lia List Bool Sorted.
From stdpp Require Import base option list strings gmap gmultiset sets.

Local Open Scope Z_scope.

(** ** Strictly increasing lists of row indices *)

Abbreviation index := N.

Definition increasing (l : list index) : Prop := StronglySorted N.lt l.

Definition sym_diff (A B : gset index) : gset index := (A ∖ B) ∪ (B ∖ A).

(** The indices [first], [first + 1], ..., [first + len - 1]. *)
Definition seqN (first len : index) : list index :=
  N.of_nat <$> seq (N.to_nat first) (N.to_nat len).

(** ** [Z2_vector_column]: a column over Z2 stored as a vector of cells *)

Module Z2Vec.

(** A Z2 cell carries nothing but its row index; the column owns the cells
    and keeps them in a [std::vector]. *)
Abbreviation Column_type := (list index).

Record Z2_vector_column := mk_column {
  dim_ : Z;
  column_ : Column_type
}.

(** [_insert_cell(rowIndex, column)]: a new cell is pushed at the back. *)
Definition _insert_cell (rowIndex : index) (column : Column_type) : Column_type :=
  column ++ [rowIndex].

(** [is_non_zero(rowIndex)]: linear search. *)
Definition is_non_zero (c : Z2_vector_column) (rowIndex : index) : bool :=
  existsb (N.eqb rowIndex) (column_ c).

Definition is_empty (c : Z2_vector_column) : bool :=
  match column_ c with [] => true | _ => false end.

Definition get_dimension (c : Z2_vector_column) : Z := dim_ c.

(** [clear()]: every cell is destroyed, the dimension is kept. *)
Definition clear (c : Z2_vector_column) : Z2_vector_column :=
  {| dim_ := dim_ c; column_ := [] |}.

(** The first [while] loop of [operator+=]: both iterators advance over the
    source ([itToAdd]) and the target ([itTarget]); the result is the state
    of the three loop variables at exit. *)
Fixpoint merge_walk (itToAdd : list index) :
    list index -> Column_type -> list index * list index * Column_type :=
  fix walk_target (itTarget : list index) (newColumn : Column_type) :=
    match itToAdd, itTarget with
    | curRowToAdd :: restToAdd, curRowTarget :: restTarget =>
        if (curRowToAdd =? curRowTarget)%N then
          (* _delete_cell(cellTarget); both advance *)
          merge_walk restToAdd restTarget newColumn
        else if (curRowToAdd <? curRowTarget)%N then
          merge_walk restToAdd itTarget (_insert_cell curRowToAdd newColumn)
        else
          walk_target restTarget (newColumn ++ [curRowTarget])
    | _, _ => (itToAdd, itTarget, newColumn)
    end.

(** The loops that copy what is left of one operand. *)
Definition insert_rest (rest : list index) (column : Column_type) : Column_type :=
  fold_left (fun col r => _insert_cell r col) rest column.

Definition push_rest (rest : list index) (column : Column_type) : Column_type :=
  fold_left (fun col r => col ++ [r]) rest column.

(** [operator+=(column)]: [column] is any range of cells, read in order. *)
Definition add_assign (target : Z2_vector_column) (column : list index) :
    Z2_vector_column :=
  match column with
  | [] => target
  | _ :: _ =>
      match column_ target with
      | [] => {| dim_ := dim_ target; column_ := insert_rest column [] |}
      | _ :: _ =>
          let '(itToAdd, itTarget, newColumn) :=
            merge_walk column (column_ target) [] in
          let newColumn := insert_rest itToAdd newColumn in
          let newColumn := push_rest itTarget newColumn in
          {| dim_ := dim_ target; column_ := newColumn |}
      end
  end.

(** [operator*=(v)] with [v] an [unsigned int]. *)
Definition mul_assign (c : Z2_vector_column) (v : N) : Z2_vector_column :=
  if (v mod 2 =? 0)%N then clear c else c.

(** [reorder(valueMap)]: every cell is relabelled through the map, then the
    vector is sorted again. [valueMap[r]] of an absent key is value
    initialised, i.e. 0. *)
Fixpoint insert_sorted (r : index) (l : list index) : list index :=
  match l with
  | [] => [r]
  | x :: l' => if (r <=? x)%N then r :: l else x :: insert_sorted r l'
  end.

Definition sort_rows (l : list index) : list index :=
  foldr insert_sorted [] l.

Definition reorder (c : Z2_vector_column) (valueMap : gmap index index) :
    Z2_vector_column :=
  {| dim_ := dim_ c;
     column_ := sort_rows (map (fun r => default 0%N (valueMap !! r)) (column_ c)) |}.

(** The loop of [get_content]: it stops at the first cell whose row index
    is not below [columnLength]. *)
Fixpoint content_loop (it : list index) (columnLength : index)
    (container : list bool) : list bool :=
  match it with
  | [] => container
  | row :: it' =>
      if (row <? columnLength)%N
      then content_loop it' columnLength (<[N.to_nat row := true]> container)
      else container
  end.

(** [get_content(columnLength)], [columnLength] an [int] defaulting to
    [-1]. [column_.back()] of an empty column has no defined behaviour;
    the [unsigned int] [get_row_index() + 1] is converted to [int]; a
    vector of negative length is not constructed. *)
Definition get_content (c : Z2_vector_column) (columnLength : Z) :
    option (list bool) :=
  columnLength ←
    (if columnLength <? 0 then
       back ← last (column_ c);
       let size := (Z.of_N back + 1) mod 4294967296 in
       Some (if size <? 2147483648 then size else size - 4294967296)
     else Some columnLength);
  if columnLength <? 0 then None
  else
    Some (content_loop (column_ c) (Z.to_N columnLength)
            (replicate (Z.to_nat columnLength) false)).

(** [operator==(c1, c2)]: the sizes, then the cells one by one. The cell
    type is not among the sources: the cell of a column without row
    access carries its row index only and is compared by it. Two names of
    one object ([&c1 == &c2]) have the same cells, for which the loop
    returns [true] as well. *)
Fixpoint equal_cells (l1 l2 : list index) : bool :=
  match l1, l2 with
  | r1 :: l1', r2 :: l2' => if negb (r1 =? r2)%N then false else equal_cells l1' l2'
  | _, _ => true
  end.

Definition equal (c1 c2 : Z2_vector_column) : bool :=
  if negb (length (column_ c1) =? length (column_ c2))%nat then false
  else equal_cells (column_ c1) (column_ c2).

(** [operator<(c1, c2)]: the loop of the two iterators, then
    [it2 != c2.column_.end()]. Two names of one object give [false], which
    the loop returns as well for equal cells. *)
Fixpoint less_cells (it1 it2 : list index) : bool :=
  match it1, it2 with
  | r1 :: it1', r2 :: it2' =>
      if negb (r1 =? r2)%N then (r1 <? r2)%N else less_cells it1' it2'
  | _, [] => false
  | _, _ :: _ => true
  end.

Definition less (c1 c2 : Z2_vector_column) : bool :=
  less_cells (column_ c1) (column_ c2).

(** The merge of two strictly increasing lists written as a function; the
    loops above compute it (lemma [add_assign_sym_merge]). *)
Fixpoint sym_merge (s : list index) : list index -> list index :=
  fix go (t : list index) :=
    match s, t with
    | [], _ => t
    | _, [] => s
    | y :: s', x :: t' =>
        if (y =? x)%N then sym_merge s' t'
        else if (y <? x)%N then y :: sym_merge s' t
        else x :: go t'
    end.

End Z2Vec.

(** ** [Z2_intrusive_list_boundary_column]: a boundary column over Z2 stored
       as an intrusive list of cells *)

Module Z2IList.

Record Z2_intrusive_list_boundary_column := mk_column {
  dim_ : Z;
  column_ : list index
}.

(** [get_pivot()]: the row index of the last cell, [-1] for no cell. The
    row index is an [unsigned int] and the result an [int]: the conversion
    is modulo 2^32 into the range from -2^31 to 2^31 - 1. *)
Definition get_pivot (c : Z2_intrusive_list_boundary_column) : Z :=
  match last (column_ c) with
  | None => -1
  | Some r =>
      let row := Z.of_N r mod 4294967296 in
      if row <? 2147483648 then row else row - 4294967296
  end.

(** [clear(rowIndex)]: the first cell found with that row index is deleted. *)
Fixpoint delete_row (rowIndex : index) (l : list index) : list index :=
  match l with
  | [] => []
  | r :: l' => if (r =? rowIndex)%N then l' else r :: delete_row rowIndex l'
  end.

Definition clear_row (c : Z2_intrusive_list_boundary_column) (rowIndex : index) :
    Z2_intrusive_list_boundary_column :=
  {| dim_ := dim_ c; column_ := delete_row rowIndex (column_ c) |}.

End Z2IList.

(** ** [Shared_multi_field_element_with_small_characteristics]: elements of
       Z/NZ, N a product of primes, on [unsigned int] *)

Module MultiField.

Definition UINT_MAX : Z := 4294967295.

(** Arithmetic of [unsigned int] is modulo 2^32. *)
Definition wrap (z : Z) : Z := z mod 4294967296.

(** An [unsigned int] passed where an [int] is expected. *)
Definition to_int (u : Z) : Z := if u <? 2147483648 then u else u - 4294967296.

(** The static members of the class. *)
Record field_state := mk_field_state {
  primes_ : list Z;
  productOfAllCharacteristics_ : Z;
  partials_ : list Z
}.

Section Arithmetic.

(** The value of the static [productOfAllCharacteristics_]. *)
Variable characteristic : Z.

(** [_add(v)], on the value of [element_]; the result is the new
    [element_]. *)
Definition _add (element_ v : Z) : Z :=
  if wrap (UINT_MAX - element_) <? v then
    wrap (wrap (element_ + v) - characteristic)
  else
    let element_ := wrap (element_ + v) in
    if characteristic <=? element_ then wrap (element_ - characteristic)
    else element_.

(** [_substract(v)]. *)
Definition _substract (element_ v : Z) : Z :=
  let element_ :=
    if element_ <? v then wrap (element_ + characteristic) else element_ in
  wrap (element_ - v).

(** The body of [if (a & 1)] in [_multiply]: [b] is added to [res]. *)
Definition add_step (b res : Z) : Z :=
  let res :=
    if wrap (characteristic - res) <=? b then wrap (res - characteristic)
    else res in
  wrap (res + b).

(** "Double b, modulo m". *)
Definition double_step (b : Z) : Z :=
  let temp_b :=
    if wrap (characteristic - b) <=? b then wrap (b - characteristic)
    else b in
  wrap (b + temp_b).

(** The loop [while (a != 0)] of [_multiply], for [a] not zero: the last
    binary digit of [a] is [a & 1], the other digits are [a >> 1]. *)
Fixpoint multiply_loop (a : positive) (b res : Z) : Z :=
  match a with
  | xH => add_step b res
  | xO a' => multiply_loop a' (double_step b) res
  | xI a' => multiply_loop a' (double_step b) (add_step b res)
  end.

Definition _multiply (a b : Z) : Z :=
  let '(a, b) := if b <? a then (b, a) else (a, b) in
  match a with
  | Zpos a => multiply_loop a b 0
  | _ => 0
  end.

(** [operator+=], [operator-=] and [operator*=] with a field element as
    right operand, on the stored values. *)
Definition add_assign (element_ f : Z) : Z := _add element_ f.
Definition sub_assign (element_ f : Z) : Z := _substract element_ f.
Definition mul_assign (element_ f : Z) : Z := _multiply element_ f.

(** The loop [while (exp > 0)] of [initialize], for [exp] not zero. *)
Fixpoint power_loop (exp : positive) (base partial : Z) : Z :=
  match exp with
  | xH => _multiply partial base
  | xO exp' => power_loop exp' (_multiply base base) partial
  | xI exp' => power_loop exp' (_multiply base base) (_multiply partial base)
  end.

Definition partial_of (p : Z) : Z :=
  let base := characteristic / p in
  match wrap (p - 1) with
  | Zpos exp => power_loop exp base 1
  | _ => 1
  end.

End Arithmetic.

(** [_is_prime(p)], [p] an [int]; the loop variable [i] is a [long] (64
    bits). [fuel] bounds the number of iterations; [None] is "no answer
    within [fuel] iterations". *)
Fixpoint is_prime_loop (fuel : nat) (i p : Z) : option bool :=
  match fuel with
  | O => None
  | S fuel' =>
      if i * i <=? p then
        if (Z.rem p i =? 0) || (Z.rem p (i + 2) =? 0) then Some false
        else is_prime_loop fuel' (i + 6) p
      else Some true
  end.

Definition _is_prime (fuel : nat) (p : Z) : option bool :=
  if p <=? 1 then Some false
  else if p <=? 3 then Some true
  else if (Z.rem p 2 =? 0) || (Z.rem p 3 =? 0) then Some false
  else is_prime_loop fuel 5 p.

(** The loop [for (unsigned int i = minimum; i <= maximum; ++i)]. *)
Fixpoint collect_primes (pfuel fuel : nat) (i maximum : Z)
    (primes : list Z) (product : Z) : option (list Z * Z) :=
  match fuel with
  | O => None
  | S fuel' =>
      if i <=? maximum then
        match _is_prime pfuel (to_int i) with
        | None => None
        | Some true =>
            collect_primes pfuel fuel' (wrap (i + 1)) maximum
              (primes ++ [i]) (wrap (product * i))
        | Some false =>
            collect_primes pfuel fuel' (wrap (i + 1)) maximum primes product
        end
      else Some (primes, product)
  end.

(** What a call leaves behind: an exception with the static members as they
    are when it is thrown, or the members initialised. *)
Inductive outcome :=
  | invalid_argument (what : string) (st : field_state)
  | initialized (st : field_state).

Definition thrown (o : outcome) : bool :=
  match o with invalid_argument _ _ => true | initialized _ => false end.

Definition state_of (o : outcome) : field_state :=
  match o with invalid_argument _ st => st | initialized st => st end.

(** [initialize(minimum, maximum)], called with the static members [st]. *)
Definition initialize (fuel : nat) (st : field_state) (minimum maximum : Z) :
    option outcome :=
  if maximum <? 2 then
    Some (invalid_argument "Characteristic must be strictly positive" st)
  else if maximum <? minimum then
    Some (invalid_argument "The given interval is not valid." st)
  else
    match (if minimum =? maximum
           then negb <$> _is_prime fuel (to_int minimum) else Some false) with
    | None => None
    | Some true =>
        Some (invalid_argument
                "The given interval does not contain a prime number." st)
    | Some false =>
        match collect_primes fuel fuel minimum maximum [] 1 with
        | None => None
        | Some (primes, product) =>
            match primes with
            | [] =>
                Some (invalid_argument
                        "The given interval does not contain a prime number."
                        {| primes_ := [];
                           productOfAllCharacteristics_ := product;
                           partials_ := partials_ st |})
            | _ :: _ =>
                Some (initialized
                        {| primes_ := primes;
                           productOfAllCharacteristics_ := product;
                           partials_ := map (partial_of product) primes |})
            end
        end
    end.

Definition get_characteristic (st : field_state) : Z :=
  productOfAllCharacteristics_ st.

(** The primes of an interval and their product, as the specification
    speaks of them (trial division by every smaller number). *)
Definition is_primeb (n : Z) : bool :=
  (1 <? n) && forallb (fun d => negb (n mod d =? 0)) (seqZ 2 (n - 2)).

Definition primes_between (minimum maximum : Z) : list Z :=
  List.filter is_primeb (seqZ minimum (maximum - minimum + 1)).

Definition product_of (l : list Z) : Z := foldr Z.mul 1 l.

(** ** The operators with an [unsigned int] operand, the constructors and
    the inverse *)

Definition INT_MAX : Z := 2147483647.
Definition INT_MIN : Z := -2147483648.

(** Arithmetic on [int]: a result outside the type has no defined
    behaviour. *)
Definition int_result (z : Z) : option Z :=
  if (INT_MIN <=? z) && (z <=? INT_MAX) then Some z else None.

Section Scalars.

Variable characteristic : Z.

(** The constructor from an [unsigned int], and [operator=(const unsigned
    int)]: [element % productOfAllCharacteristics_]. *)
Definition from_unsigned (element : Z) : Z := element mod characteristic.

(** The constructor from an [int]: in [element %
    productOfAllCharacteristics_] the [int] is converted to [unsigned int]
    first. *)
Definition from_int (element : Z) : Z := wrap element mod characteristic.

(** [operator+=], [operator-=] and [operator*=] with an [unsigned int] as
    right operand. *)
Definition add_assign_unsigned (element_ v : Z) : Z :=
  _add characteristic element_ (v mod characteristic).
Definition sub_assign_unsigned (element_ v : Z) : Z :=
  _substract characteristic element_ (v mod characteristic).
Definition mul_assign_unsigned (element_ v : Z) : Z :=
  _multiply characteristic element_ (v mod characteristic).

(** [friend unsigned int operator+(unsigned int v, f)]. *)
Definition unsigned_plus (v element_ : Z) : Z :=
  let v := wrap (v + element_) in
  v mod characteristic.

(** [friend unsigned int operator-(unsigned int v, f)]. *)
Definition unsigned_minus (v element_ : Z) : Z :=
  let v := if characteristic <=? v then v mod characteristic else v in
  let v := if v <? element_ then wrap (v + characteristic) else v in
  wrap (v - element_).

(** [friend unsigned int operator*(unsigned int v, f)]: the loop of
    [_multiply] on the digits of [v], the operands not swapped. *)
Definition unsigned_times (v element_ : Z) : Z :=
  match v with
  | Zpos a => multiply_loop characteristic a element_ 0
  | _ => 0
  end.

(** [friend bool operator==(const unsigned int v, f)]. *)
Definition equal_unsigned (v element_ : Z) : bool :=
  if v <? characteristic then v =? element_
  else v mod characteristic =? element_.

(** The loop [while (A > 1)] of [_get_inverse], on [int]s; a division by
    zero has no defined behaviour. *)
Fixpoint inverse_loop (fuel : nat) (M A y x : Z) : option Z :=
  match fuel with
  | O => None
  | S fuel' =>
      if 1 <? A then
        if M =? 0 then None
        else
          let quotient := Z.quot A M in
          let temp := M in
          let M := Z.rem A M in
          let A := temp in
          let temp := y in
          product ← int_result (quotient * y);
          y ← int_result (x - product);
          let x := temp in
          inverse_loop fuel' M A y x
      else Some x
  end.

(** [_get_inverse(mod)] of the element of value [element_]; in [x += mod]
    the sum is computed on [unsigned int]. *)
Definition _get_inverse (fuel : nat) (element_ mod_ : Z) : option Z :=
  x ← inverse_loop fuel (to_int mod_) (to_int element_) 0 1;
  Some (if x <? 0 then to_int (wrap (x + mod_)) else x).

End Scalars.

(** [get_partial_multiplicative_identity()]: the loop over [primes_]
    reads [partials_] at the same position. *)
Fixpoint partial_identity_loop (characteristic element_ : Z)
    (primes partials : list Z) (mult : Z) : option Z :=
  match primes with
  | [] => Some mult
  | p :: primes' =>
      match partials with
      | [] => None
      | partial :: partials' =>
          partial_identity_loop characteristic element_ primes' partials'
            (if element_ mod p =? 0
             then add_assign_unsigned characteristic mult partial
             else mult)
      end
  end.

Definition get_partial_multiplicative_identity (st : field_state)
    (element_ : Z) : option Z :=
  if element_ =? 0 then
    Some (from_unsigned (productOfAllCharacteristics_ st) 1)
  else
    partial_identity_loop (productOfAllCharacteristics_ st) element_
      (primes_ st) (partials_ st) 0.

(** [get_partial_inverse(productOfCharacteristics)]: the partial inverse
    and the product of the characteristics it is an inverse for. *)
Definition get_partial_inverse (fuel : nat) (st : field_state) (element_ : Z)
    (productOfCharacteristics : Z) : option (Z * Z) :=
  let N := productOfAllCharacteristics_ st in
  let gcd := Z.gcd element_ N in
  if gcd =? productOfCharacteristics then Some (0, 1)
  else if gcd =? 0 then None
  else
    let QT := productOfCharacteristics / gcd in
    let res := from_unsigned N QT in
    inv_qt ← _get_inverse fuel element_ QT;
    let inv_qt := wrap inv_qt in
    res ← get_partial_multiplicative_identity st res;
    let res := mul_assign_unsigned N res inv_qt in
    Some (res, QT).

(** [get_inverse()]. *)
Definition get_inverse (fuel : nat) (st : field_state) (element_ : Z) : option Z :=
  fst <$> get_partial_inverse fuel st element_ (productOfAllCharacteristics_ st).

(** What the loop of [_get_inverse] keeps, for the element [A0] and the
    modulus [M0]: [A0 * x] is [A] and [A0 * y] is [M] modulo [M0]; [x] and
    [y] have opposite signs [sign] and [- sign], and [|x| * M + |y| * A]
    stays [M0], which bounds them. *)
Definition bezout_state (A0 M0 M A y x : Z) : Prop :=
  0 <= M /\ 1 <= A /\
  (A0 * x) mod M0 = A mod M0 /\ (A0 * y) mod M0 = M mod M0 /\
  - M0 < x < M0 /\
  exists sign, (sign = 1 \/ sign = -1) /\
    0 <= sign * x /\ sign * y <= 0 /\ sign * (x * M - y * A) = M0.

(** Nothing strictly between 1 and [i] divides [p]. *)
Definition no_divisor_below (i p : Z) : Prop :=
  forall d, 1 < d < i -> ~ (d | p).

End MultiField.

(** ** Columns over a prime field

    Modelled from the spec: the column over a field Fp and its operators
    [+=] and [-=]. No column with field values is among the sources, and
    none of the columns among them has an [operator-=]. The specification
    describes the addition as a merge of two sequences of cells sorted by
    row: a row present in one column only is copied (scaled by the
    coefficient), a row present in both has its values combined and the cell
    is dropped when the combined value is the additive identity.
    Subtraction is the same merge with the field subtraction. *)

Module FpColumn.

Definition cell := (index * Z)%type.
Definition column := list cell.

Section Merge.

(** [combine a b]: the value for a row of both columns ([a] of the target,
    [b] of the source); [scale b]: the value copied for a row of the source
    only. *)
Variable combine : Z -> Z -> Z.
Variable scale : Z -> Z.

Fixpoint merge (s : column) : column -> column :=
  fix go (t : column) :=
    match s, t with
    | [], _ => t
    | _, [] => map (fun c => (c.1, scale c.2)) s
    | cy :: s', cx :: t' =>
        if (cy.1 =? cx.1)%N then
          let v := combine cx.2 cy.2 in
          if v =? 0 then merge s' t' else (cx.1, v) :: merge s' t'
        else if (cy.1 <? cx.1)%N then (cy.1, scale cy.2) :: merge s' t
        else cx :: go t'
    end.

(** What the merge computes at one row, from the two coefficients. *)
Definition merged (a b : Z) : Z :=
  if b =? 0 then a else if a =? 0 then scale b else combine a b.

End Merge.

(** [target += source] and [target -= source] over Z/pZ. *)
Definition add_assign (p : Z) (target source : column) : column :=
  merge (fun a b => (a + b) mod p) (fun b => b) source target.

Definition sub_assign (p : Z) (target source : column) : column :=
  merge (fun a b => (a - b) mod p) (fun b => (- b) mod p) source target.

(** The invariant of a column: rows strictly increasing, no zero value. *)
Definition wf (p : Z) (c : column) : Prop :=
  increasing (map fst c) /\ Forall (fun x => 0 < x.2 < p) c.

(** The coefficient of a column at a row. *)
Fixpoint coef (c : column) (r : index) : Z :=
  match c with
  | [] => 0
  | x :: c' => if (x.1 =? r)%N then x.2 else coef c' r
  end.

End FpColumn.

(** ** [Set_chain_column]: a chain column over the set column, with the
       pivot-to-column dictionary shared by the chain columns of a matrix *)

Module ChainSet.

(** The base class [Set_column] is not among the sources: what
    [Set_chain_column] uses of it is an interface. [F] is
    [Field_element_type]. The row passed to [is_non_zero] is the [int]
    [pivot_]. *)
Class Set_column_base (Column F : Type) := {
  (** [Base::operator+=(column)]: the target after [target += source]. *)
  base_add : Column -> Column -> Column;
  (** [Base::multiply_and_add(v, column)]: [target * v + source]. *)
  base_multiply_target_and_add : F -> Column -> Column -> Column;
  (** [Base::multiply_and_add(column, v)]: [target + source * v]. *)
  base_multiply_source_and_add : Column -> F -> Column -> Column;
  (** [Base::is_non_zero(rowIndex)]. *)
  base_is_non_zero : Column -> Z -> bool
}.

Section Chain.

Context {Column F : Type} `{Set_column_base Column F}.

Record Set_chain_column := mk_chain {
  base : Column;
  pivot_ : Z;
  pairedColumn_ : Z
}.

Definition get_pivot (c : Set_chain_column) : Z := pivot_ c.
Definition get_paired_chain_index (c : Set_chain_column) : Z := pairedColumn_ c.
Definition is_paired (c : Set_chain_column) : bool := negb (pairedColumn_ c =? -1).
Definition assign_paired_chain (c : Set_chain_column) (other_col : Z) :=
  {| base := base c; pivot_ := pivot_ c; pairedColumn_ := other_col |}.
Definition unassign_paired_chain (c : Set_chain_column) :=
  {| base := base c; pivot_ := pivot_ c; pairedColumn_ := -1 |}.

Definition set_base (c : Set_chain_column) (b : Column) : Set_chain_column :=
  {| base := b; pivot_ := pivot_ c; pairedColumn_ := pairedColumn_ c |}.
Definition set_pivot (c : Set_chain_column) (pivot : Z) : Set_chain_column :=
  {| base := base c; pivot_ := pivot; pairedColumn_ := pairedColumn_ c |}.

(** The chain columns of a matrix, by column index, and the dictionary
    [*pivotToColumnIndex_] that every one of them points to. *)
Record chain_matrix := mk_matrix {
  columns : gmap nat Set_chain_column;
  pivotToColumnIndex : gmap Z nat
}.

(** A call returns, or [Dictionnary_type::at] throws [std::out_of_range];
    either way a state is left behind. *)
Inductive result :=
  | returned (m : chain_matrix)
  | out_of_range (m : chain_matrix).

Definition state_of (r : result) : chain_matrix :=
  match r with returned m => m | out_of_range m => m end.

Definition has_thrown (r : result) : bool :=
  match r with returned _ => false | out_of_range _ => true end.

(** The three additions between chain columns. *)
Inductive addition :=
  | plus_assign (target source : nat)
  | multiply_target_and_add (v : F) (target source : nat)
  | multiply_source_and_add (target source : nat) (v : F).

Definition target_of (a : addition) : nat :=
  match a with
  | plus_assign t _ | multiply_target_and_add _ t _
  | multiply_source_and_add t _ _ => t
  end.

Definition source_of (a : addition) : nat :=
  match a with
  | plus_assign _ s | multiply_target_and_add _ _ s
  | multiply_source_and_add _ s _ => s
  end.

(** The call of the base class that opens each of the three methods. *)
Definition base_step (a : addition) (target source : Column) : Column :=
  match a with
  | plus_assign _ _ => base_add target source
  | multiply_target_and_add v _ _ => base_multiply_target_and_add v target source
  | multiply_source_and_add _ _ v => base_multiply_source_and_add target v source
  end.

(** What the three methods share after the call of the base class:
    [if (!Base::is_non_zero(pivot_))], the two entries of the dictionary are
    swapped, then the two [pivot_] fields. The target is the column of index
    [t], the argument [column] the one of index [s]. *)
Definition swap_pivots (m : chain_matrix) (t s : nat)
    (ct cs : Set_chain_column) : result :=
  if base_is_non_zero (base ct) (pivot_ ct) then returned m
  else
    match pivotToColumnIndex m !! pivot_ ct,
          pivotToColumnIndex m !! get_pivot cs with
    | Some at_target, Some at_source =>
        returned
          {| columns :=
               <[s := set_pivot cs (pivot_ ct)]>
                 (<[t := set_pivot ct (pivot_ cs)]> (columns m));
             pivotToColumnIndex :=
               <[get_pivot cs := at_target]>
                 (<[pivot_ ct := at_source]> (pivotToColumnIndex m)) |}
    | _, _ => out_of_range m
    end.

(** One addition between two distinct live columns; [None] when the indices
    do not name two such columns. *)
Definition add_columns (a : addition) (m : chain_matrix) : option result :=
  let t := target_of a in
  let s := source_of a in
  match columns m !! t, columns m !! s with
  | Some ct, Some cs =>
      if decide (t = s) then None
      else
        let ct := set_base ct (base_step a (base ct) (base cs)) in
        Some (swap_pivots
                {| columns := <[t := ct]> (columns m);
                   pivotToColumnIndex := pivotToColumnIndex m |}
                t s ct cs)
  | _, _ => None
  end.

(** A sequence of additions; an exception ends it. *)
Fixpoint add_sequence (l : list addition) (m : chain_matrix) : option result :=
  match l with
  | [] => Some (returned m)
  | a :: l' =>
      match add_columns a m with
      | Some (returned m') => add_sequence l' m'
      | other => other
      end
  end.

(** The additions name two distinct live columns. *)
Definition between_live_columns (m : chain_matrix) (a : addition) : Prop :=
  is_Some (columns m !! target_of a) /\ is_Some (columns m !! source_of a) /\
  target_of a <> source_of a.

(** No two distinct live columns report the same pivot. *)
Definition unique_pivots (m : chain_matrix) : Prop :=
  forall i j ci cj,
    columns m !! i = Some ci -> columns m !! j = Some cj ->
    get_pivot ci = get_pivot cj -> i = j.

(** The dictionary sends the pivot of every live column to that column. *)
Definition dictionary_consistent (m : chain_matrix) : Prop :=
  forall i ci,
    columns m !! i = Some ci -> pivotToColumnIndex m !! get_pivot ci = Some i.

(** [friend Set_chain_column operator+(Set_chain_column column1,
    Set_chain_column& column2)]: [column1] is passed by value, a copy of
    the column of index [t] that points to the same dictionary; [column2]
    is the column of index [s] itself. [column1 += column2] runs on the
    copy, which is returned; what [operator+=] writes through [column2]
    and through the dictionary stays written. *)
Definition column_plus (t s : nat) (m : chain_matrix) :
    option (result * option Set_chain_column) :=
  match columns m !! t, columns m !! s with
  | Some ct, Some cs =>
      let column1 := set_base ct (base_add (base ct) (base cs)) in
      if base_is_non_zero (base column1) (pivot_ column1)
      then Some (returned m, Some column1)
      else
        match pivotToColumnIndex m !! pivot_ column1,
              pivotToColumnIndex m !! get_pivot cs with
        | Some at_target, Some at_source =>
            Some (returned
                    {| columns := <[s := set_pivot cs (pivot_ column1)]> (columns m);
                       pivotToColumnIndex :=
                         <[get_pivot cs := at_target]>
                           (<[pivot_ column1 := at_source]> (pivotToColumnIndex m)) |},
                  Some (set_pivot column1 (pivot_ cs)))
        | _, _ => Some (out_of_range m, None)
        end
  | _, _ => None
  end.

End Chain.

Arguments Set_chain_column : clear implicits.
Arguments chain_matrix : clear implicits.
Arguments result : clear implicits.
Arguments addition : clear implicits.

(** Modelled from the spec: the set column over Z2, for concrete runs. The
    sources hold no [Set_column]; the specification has its addition over
    characteristic 2 as the symmetric difference of the rows, and a
    multiplication by a coefficient of Z2 as the identity or the zero
    column. *)
Definition z2_scale (v : N) (c : list index) : list index :=
  if N.odd v then c else [].

#[export] Instance z2_set_column : Set_column_base (list index) N := {
  base_add target source := Z2Vec.sym_merge source target;
  base_multiply_target_and_add v target source :=
    Z2Vec.sym_merge source (z2_scale v target);
  base_multiply_source_and_add target v source :=
    Z2Vec.sym_merge (z2_scale v source) target;
  base_is_non_zero c r := existsb (fun x => Z.of_N x =? r) c
}.

End ChainSet.

(** ** [Boundary_matrix]

    The options of [Master_matrix] that [if constexpr] tests are values of
    the embedding. The column type is the Z2 vector column; its [get_pivot]
    is the one of the Z2 boundary columns (the last cell). Indices and
    sizes are those of the faces of a complex, far below the bound of the
    machine word: they are binary naturals, and an [index] that may be the
    sentinel [static_cast<index>(-1)] is an integer, [-1] for the sentinel.
    [None] stands for a call with no result: an exception ([at]) or
    undefined behaviour (an element read out of range). *)

Module BoundaryMatrix.

Export Z2Vec.

Record Options := mk_options {
  has_row_access : bool;
  has_removable_rows : bool;
  activeDimOption : bool;
  activeSwapOption : bool;
  activePairingOption : bool
}.

(** [matrix_]: a [std::vector] of columns, or a map from [MatIdx] to columns
    with [has_map_column_container]; the shape of the container is that
    option. *)
Inductive column_container :=
  | vector_of (v : list Z2_vector_column)
  | map_of (m : gmap index Z2_vector_column).

(** [matrix_.at(i)] and [matrix_[i]]. *)
Definition column_at (c : column_container) (i : index) : option Z2_vector_column :=
  match c with
  | vector_of v => v !! N.to_nat i
  | map_of m => m !! i
  end.

(** An assignment to [matrix_.at(i)] or [matrix_[i]]. *)
Definition set_column (c : column_container) (i : index) (col : Z2_vector_column) :
    column_container :=
  match c with
  | vector_of v => vector_of (<[N.to_nat i := col]> v)
  | map_of m => map_of (<[i := col]> m)
  end.

Definition map_columns (f : Z2_vector_column -> Z2_vector_column)
    (c : column_container) : column_container :=
  match c with
  | vector_of v => vector_of (f <$> v)
  | map_of m => map_of (f <$> m)
  end.

(** [get_pivot()] of a boundary column. *)
Definition column_pivot (c : Z2_vector_column) : Z :=
  match last (column_ c) with
  | None => -1
  | Some r => Z.of_N r
  end.

(** [emplace(k, v)] and [try_emplace(k, v)] of the standard maps: nothing
    happens when the key is there. *)
Definition emplace {A} (k : index) (v : A) (m : gmap index A) : gmap index A :=
  match m !! k with
  | Some _ => m
  | None => <[k := v]> m
  end.

(** A dictionary of the swap option that is a [std::vector]: its keys are
    the positions; [push_back] writes at position [size()]. *)
Definition dictionary_size (d : gmap index index) : index := N.of_nat (size d).

Definition push_back (v : index) (d : gmap index index) : gmap index index :=
  <[dictionary_size d := v]> d.

(** The keys of a dictionary that is a vector are its positions. *)
Definition prefix_keys (d : gmap index index) : Prop :=
  forall k, is_Some (d !! k) <-> (k < dictionary_size d)%N.

(** What a dictionary holds once the loop of [insert_boundary] has pushed
    the missing indices. *)
Definition extended (faceIndex : index) (d : gmap index index) (k : index) :
    option index :=
  if (k <? dictionary_size d)%N then d !! k
  else if (k <=? faceIndex)%N then Some k else None.

Definition identity_on (d : gmap index index) : gmap index index :=
  map_imap (fun k _ => Some k) d.

Section Matrix.

(** The dimension option and the pairing option are not among the sources:
    their states and the methods the matrix calls are parameters. *)
Context {Dimension_option Pairing_option : Type}.
Variable update_up : Z -> Dimension_option -> Dimension_option.
Variable update_down : Z -> Dimension_option -> Dimension_option.
Variable pairing_remove_last : index -> Pairing_option -> Pairing_option.

Variable opts : Options.

Record Boundary_matrix := mk_matrix {
  dim_opt : Dimension_option;
  indexToRow_ : gmap index index;
  rowToIndex_ : gmap index index;
  rowSwapped_ : bool;
  pair_opt : Pairing_option;
  matrix_ : column_container;
  nextInsertIndex_ : index
}.

(** [Boundary_matrix(colSettings)], the empty matrix; the states of the two
    absent options at construction are arguments. *)
Definition empty_matrix (dim0 : Dimension_option) (pair0 : Pairing_option)
    (with_map : bool) : Boundary_matrix :=
  {| dim_opt := dim0; indexToRow_ := ∅; rowToIndex_ := ∅; rowSwapped_ := false;
     pair_opt := pair0;
     matrix_ := if with_map then map_of ∅ else vector_of [];
     nextInsertIndex_ := 0 |}.

Definition get_number_of_columns (s : Boundary_matrix) : index :=
  match matrix_ s with
  | map_of m => N.of_nat (size m)
  | vector_of _ => nextInsertIndex_ s
  end.

(** Modelled from the spec: [_orderRows()] of the swap option, which is not
    among the sources. The pending permutation is materialised: every
    column is relabelled through the row-to-index dictionary ([reorder]),
    both dictionaries become the identity on the indices, the flag is
    cleared. *)
Definition _orderRows (s : Boundary_matrix) : Boundary_matrix :=
  {| dim_opt := dim_opt s;
     indexToRow_ := identity_on (indexToRow_ s);
     rowToIndex_ := identity_on (indexToRow_ s);
     rowSwapped_ := false;
     pair_opt := pair_opt s;
     matrix_ := map_columns (fun col => reorder col (rowToIndex_ s)) (matrix_ s);
     nextInsertIndex_ := nextInsertIndex_ s |}.

(** [if constexpr (activeSwapOption) { if (rowSwapped_) _orderRows(); }] *)
Definition order_rows_if_swapped (s : Boundary_matrix) : Boundary_matrix :=
  if activeSwapOption opts && rowSwapped_ s then _orderRows s else s.

(** Modelled from the spec: [swap_rows] of the swap option. The
    transposition is recorded in the two dictionaries, no cell is touched,
    the flag is set. *)
Definition swap_rows (rowIndex1 rowIndex2 : index) (s : Boundary_matrix) :
    option Boundary_matrix :=
  row1 ← indexToRow_ s !! rowIndex1;
  row2 ← indexToRow_ s !! rowIndex2;
  index1 ← rowToIndex_ s !! row1;
  index2 ← rowToIndex_ s !! row2;
  Some {| dim_opt := dim_opt s;
          indexToRow_ := <[rowIndex2 := row1]> (<[rowIndex1 := row2]> (indexToRow_ s));
          rowToIndex_ := <[row2 := index1]> (<[row1 := index2]> (rowToIndex_ s));
          rowSwapped_ := true;
          pair_opt := pair_opt s;
          matrix_ := matrix_ s;
          nextInsertIndex_ := nextInsertIndex_ s |}.

(** The dimension of a face from the size of its boundary. *)
Definition dimension_of_size (boundary : list index) : Z :=
  match boundary with
  | [] => 0
  | _ :: _ => Z.of_nat (length boundary) - 1
  end.

(** With row access and rows that cannot be removed, [insert_boundary]
    reads [*std::prev(boundary.end())]: this is defined for a boundary that
    is not empty only. *)
Definition insertable (boundary : list index) : bool :=
  negb (has_row_access opts && negb (has_removable_rows opts) &&
        bool_decide (boundary = [])).

(** The loop [for (index i = indexToRow_.size(); i <= faceIndex; ++i)]. *)
Definition extend_dictionaries (faceIndex : index)
    (d : gmap index index * gmap index index) :
    gmap index index * gmap index index :=
  let first := dictionary_size d.1 in
  foldl (fun d i => (push_back i d.1, push_back i d.2)) d
        (seqN first (N.succ faceIndex - first)).

(** [insert_boundary(faceIndex, boundary, dim)]; the result is the new
    matrix and the [MatIdx] of the column. *)
Definition insert_boundary_at (faceIndex : index) (boundary : list index)
    (dim : Z) (s : Boundary_matrix) : option (Boundary_matrix * index) :=
  let dim := if dim =? -1 then dimension_of_size boundary else dim in
  let s := order_rows_if_swapped s in
  if negb (insertable boundary) then None
  else
    let column := {| dim_ := dim; column_ := boundary |} in
    let '(dictionaries, matrix) :=
      match matrix_ s with
      | map_of m =>
          (if activeSwapOption opts
           then (emplace faceIndex faceIndex (indexToRow_ s),
                 emplace faceIndex faceIndex (rowToIndex_ s))
           else (indexToRow_ s, rowToIndex_ s),
           map_of (emplace (nextInsertIndex_ s) column m))
      | vector_of v =>
          (if activeSwapOption opts
           then extend_dictionaries faceIndex (indexToRow_ s, rowToIndex_ s)
           else (indexToRow_ s, rowToIndex_ s),
           if has_row_access opts then vector_of (v ++ [column])
           else if (N.of_nat (length v) <=? nextInsertIndex_ s)%N
                then vector_of (v ++ [column])
                else vector_of (<[N.to_nat (nextInsertIndex_ s) := column]> v))
      end in
    Some ({| dim_opt := if activeDimOption opts
                        then update_up (dimension_of_size boundary) (dim_opt s)
                        else dim_opt s;
             indexToRow_ := dictionaries.1;
             rowToIndex_ := dictionaries.2;
             rowSwapped_ := rowSwapped_ s;
             pair_opt := pair_opt s;
             matrix_ := matrix;
             nextInsertIndex_ := N.succ (nextInsertIndex_ s) |},
          nextInsertIndex_ s).

(** [insert_boundary(boundary, dim)], [dim] defaulting to [-1]. *)
Definition insert_boundary (boundary : list index) (dim : Z)
    (s : Boundary_matrix) : option (Boundary_matrix * index) :=
  insert_boundary_at (nextInsertIndex_ s) boundary dim s.

(** [erase_row(rowIndex)]. The row container of the row access option is
    not modelled as a structure of its own (see [row_of]): the call of
    [ra_opt::erase_row] declares an empty row and changes no cell. *)
Definition erase_row (rowIndex : index) (s : Boundary_matrix) : option Boundary_matrix :=
  if activeSwapOption opts then
    match matrix_ s with
    | map_of _ =>
        rowID ← indexToRow_ s !! rowIndex;
        Some {| dim_opt := dim_opt s;
                indexToRow_ := delete rowIndex (indexToRow_ s);
                rowToIndex_ := delete rowID (rowToIndex_ s);
                rowSwapped_ := rowSwapped_ s;
                pair_opt := pair_opt s;
                matrix_ := matrix_ s;
                nextInsertIndex_ := nextInsertIndex_ s |}
    | vector_of _ =>
        rowID ← indexToRow_ s !! rowIndex;
        Some s
    end
  else Some s.

Definition with_matrix (s : Boundary_matrix) (c : column_container) : Boundary_matrix :=
  {| dim_opt := dim_opt s; indexToRow_ := indexToRow_ s;
     rowToIndex_ := rowToIndex_ s; rowSwapped_ := rowSwapped_ s;
     pair_opt := pair_opt s; matrix_ := c;
     nextInsertIndex_ := nextInsertIndex_ s |}.

(** [remove_last()], of the matrices with removable columns; the result is
    the new matrix and the value returned. *)
Definition remove_last (s : Boundary_matrix) : option (Boundary_matrix * Z) :=
  if (nextInsertIndex_ s =? 0)%N then Some (s, -1)
  else
    let next := N.pred (nextInsertIndex_ s) in
    (* --nextInsertIndex_; dim_opt::update_down(matrix_.at(...).get_dimension()) *)
    removed ← column_at (matrix_ s) next;
    let s := {| dim_opt := if activeDimOption opts
                           then update_down (get_dimension removed) (dim_opt s)
                           else dim_opt s;
                indexToRow_ := indexToRow_ s; rowToIndex_ := rowToIndex_ s;
                rowSwapped_ := rowSwapped_ s; pair_opt := pair_opt s;
                matrix_ := matrix_ s; nextInsertIndex_ := next |} in
    let pivot := column_pivot removed in
    (* if the removed column is positive, the pivot won't change value *)
    let s :=
      if activeSwapOption opts && rowSwapped_ s && negb (pivot =? -1)
      then _orderRows s else s in
    removed ← column_at (matrix_ s) next;
    let pivot := column_pivot removed in
    matrix ←
      match matrix_ s with
      | map_of m => Some (map_of (delete next m))
      | vector_of v =>
          if has_row_access opts then
            (* assert(nextInsertIndex_ == matrix_.size() - 1); pop_back() *)
            if (N.succ next =? N.of_nat (length v))%N
            then Some (vector_of (take (N.to_nat next) v))
            else None
          else Some (vector_of (<[N.to_nat next := clear removed]> v))
      end;
    s ← erase_row next (with_matrix s matrix);
    Some ({| dim_opt := dim_opt s; indexToRow_ := indexToRow_ s;
             rowToIndex_ := rowToIndex_ s; rowSwapped_ := rowSwapped_ s;
             pair_opt := if activePairingOption opts
                         then pairing_remove_last next (pair_opt s)
                         else pair_opt s;
             matrix_ := matrix_ s; nextInsertIndex_ := nextInsertIndex_ s |},
          pivot).

(** [get_column(columnIndex)]: the column returned and the matrix left. *)
Definition get_column (columnIndex : index) (s : Boundary_matrix) :
    option (Boundary_matrix * Z2_vector_column) :=
  let s := order_rows_if_swapped s in
  col ← column_at (matrix_ s) columnIndex;
  Some (s, col).

(** Modelled from the spec: the row of the row access option, which is not
    among the sources. By the invariant of the row access structure, the
    cells reachable from row [r] are the cells of row index [r] of the
    columns; the row is given by the indices of these columns. *)
Definition row_of (s : Boundary_matrix) (rowIndex : index) : list index :=
  List.filter
    (fun c => match column_at (matrix_ s) c with
              | Some col => is_non_zero col rowIndex
              | None => false
              end)
    (seqN 0 (nextInsertIndex_ s)).

(** [get_row(rowIndex)], of the matrices with row access. *)
Definition get_row (rowIndex : index) (s : Boundary_matrix) :
    option (Boundary_matrix * list index) :=
  if has_row_access opts then
    let s := order_rows_if_swapped s in
    Some (s, row_of s rowIndex)
  else None.

(** [get_pivot(columnIndex)]. *)
Definition get_pivot (columnIndex : index) (s : Boundary_matrix) :
    option (Boundary_matrix * Z) :=
  let s := order_rows_if_swapped s in
  col ← column_at (matrix_ s) columnIndex;
  Some (s, column_pivot col).

(** [is_zero_cell(columnIndex, rowIndex)], a [const] method. *)
Definition is_zero_cell (columnIndex rowIndex : index) (s : Boundary_matrix) :
    option bool :=
  col ← column_at (matrix_ s) columnIndex;
  if activeSwapOption opts then
    row ← indexToRow_ s !! rowIndex;
    Some (negb (is_non_zero col row))
  else Some (negb (is_non_zero col rowIndex)).

(** [is_zero_column(columnIndex)] and [get_column_dimension(columnIndex)]. *)
Definition is_zero_column (columnIndex : index) (s : Boundary_matrix) : option bool :=
  is_empty <$> column_at (matrix_ s) columnIndex.

Definition get_column_dimension (columnIndex : index) (s : Boundary_matrix) : option Z :=
  get_dimension <$> column_at (matrix_ s) columnIndex.

(** [add_to(sourceColumnIndex, targetColumnIndex)]. *)
Definition add_to (sourceColumnIndex targetColumnIndex : index)
    (s : Boundary_matrix) : option Boundary_matrix :=
  target ← column_at (matrix_ s) targetColumnIndex;
  source ← column_at (matrix_ s) sourceColumnIndex;
  Some (with_matrix s
          (set_column (matrix_ s) targetColumnIndex
             (add_assign target (column_ source)))).

(** [zero_column(columnIndex)]. *)
Definition zero_column (columnIndex : index) (s : Boundary_matrix) :
    option Boundary_matrix :=
  col ← column_at (matrix_ s) columnIndex;
  Some (with_matrix s (set_column (matrix_ s) columnIndex (clear col))).

(** Whether a row holds no cell, once a pending permutation of the rows is
    materialised, as every access to a row does first. *)
Definition row_is_empty (rowIndex : index) (s : Boundary_matrix) : bool :=
  bool_decide (row_of (order_rows_if_swapped s) rowIndex = []).

(** The requests of a client and what each returns. *)
Inductive request :=
  | call_insert_boundary (boundary : list index) (dim : Z)
  | call_swap_rows (rowIndex1 rowIndex2 : index)
  | call_add_to (sourceColumnIndex targetColumnIndex : index)
  | call_remove_last
  | call_get_column (columnIndex : index)
  | call_get_row (rowIndex : index)
  | call_get_pivot (columnIndex : index)
  | call_is_zero_cell (columnIndex rowIndex : index).

Inductive observation :=
  | nothing
  | mat_index (i : index)
  | pivot_value (p : Z)
  | column_content (dim : Z) (rows : list index)
  | row_content (columns : list index)
  | truth (b : bool).

Definition serve (r : request) (s : Boundary_matrix) :
    option (Boundary_matrix * observation) :=
  match r with
  | call_insert_boundary boundary dim =>
      '(s, i) ← insert_boundary boundary dim s; Some (s, mat_index i)
  | call_swap_rows rowIndex1 rowIndex2 =>
      if activeSwapOption opts
      then s ← swap_rows rowIndex1 rowIndex2 s; Some (s, nothing)
      else None
  | call_add_to source target =>
      s ← add_to source target s; Some (s, nothing)
  | call_remove_last =>
      '(s, p) ← remove_last s; Some (s, pivot_value p)
  | call_get_column columnIndex =>
      '(s, col) ← get_column columnIndex s;
      Some (s, column_content (get_dimension col) (column_ col))
  | call_get_row rowIndex =>
      '(s, row) ← get_row rowIndex s; Some (s, row_content row)
  | call_get_pivot columnIndex =>
      '(s, p) ← get_pivot columnIndex s; Some (s, pivot_value p)
  | call_is_zero_cell columnIndex rowIndex =>
      b ← is_zero_cell columnIndex rowIndex s; Some (s, truth b)
  end.

Fixpoint serve_all (l : list request) (s : Boundary_matrix) :
    option (Boundary_matrix * list observation) :=
  match l with
  | [] => Some (s, [])
  | r :: l' =>
      '(s, o) ← serve r s;
      '(s, os) ← serve_all l' s;
      Some (s, o :: os)
  end.

(** The matrices a client can have in hand. *)
Inductive reachable : Boundary_matrix -> Prop :=
  | reachable_empty dim0 pair0 with_map :
      reachable (empty_matrix dim0 pair0 with_map)
  | reachable_serve r s s' o :
      reachable s -> serve r s = Some (s', o) -> reachable s'
  | reachable_zero_column c s s' :
      reachable s -> zero_column c s = Some s' -> reachable s'.

(** The matrix left by a sequence of requests, the matrix itself when a
    request has no result. *)
Definition after (l : list request) (s : Boundary_matrix) : Boundary_matrix :=
  match serve_all l s with
  | Some (s', _) => s'
  | None => s
  end.

(** What holds of the containers of every such matrix. *)
Definition container_wf (s : Boundary_matrix) : Prop :=
  match matrix_ s with
  | map_of m => forall k, is_Some (m !! k) -> (k < nextInsertIndex_ s)%N
  | vector_of v =>
      (nextInsertIndex_ s <= N.of_nat (length v))%N /\
      (has_row_access opts = true -> N.of_nat (length v) = nextInsertIndex_ s) /\
      (forall k, is_Some (indexToRow_ s !! k) <->
                 (k < dictionary_size (indexToRow_ s))%N)
  end.

(** The calls the language defines: [insert_boundary] reads the last cell
    of the boundary when rows are accessed and cannot be removed (see
    [insertable]); every other call is defined. *)
Definition defined_request (r : request) : bool :=
  match r with
  | call_insert_boundary boundary _ => insertable boundary
  | _ => true
  end.

(** Modelled from the spec: the swap option built for [n] columns, whose
    constructor is not among the sources. A matrix just built is in the
    state "rows-in-canonical-order": both dictionaries send each of the
    [n] indices to itself and nothing is pending. *)
Definition identity_below (n : index) : gmap index index :=
  foldr (fun k d => <[k := k]> d) ∅ (seqN 0 n).

(** The loop [for (index i = 0; i < orderedBoundaries.size(); i++)] of the
    constructor on a map: [matrix_.try_emplace(i, ...)]. *)
Fixpoint emplace_columns (i : index) (columns : list Z2_vector_column)
    (m : gmap index Z2_vector_column) : gmap index Z2_vector_column :=
  match columns with
  | [] => m
  | column :: columns' => emplace_columns (N.succ i) columns' (emplace i column m)
  end.

(** [Boundary_matrix(orderedBoundaries, colSettings)]: a column for each
    boundary, built without a dimension (the size of the boundary gives
    it), the dimension option told of each in turn, the swap option built
    for as many columns; [nextInsertIndex_] is their number. As for
    [empty_matrix], the states of the two absent options at construction
    are arguments. *)
Definition of_ordered_boundaries (dim0 : Dimension_option) (pair0 : Pairing_option)
    (with_map : bool) (orderedBoundaries : list (list index)) : Boundary_matrix :=
  let columns :=
    (fun boundary => {| dim_ := dimension_of_size boundary; column_ := boundary |})
      <$> orderedBoundaries in
  let n := N.of_nat (length orderedBoundaries) in
  {| dim_opt := if activeDimOption opts
                then fold_left (fun d column => update_up (get_dimension column) d)
                       columns dim0
                else dim0;
     indexToRow_ := if activeSwapOption opts then identity_below n else ∅;
     rowToIndex_ := if activeSwapOption opts then identity_below n else ∅;
     rowSwapped_ := false;
     pair_opt := pair0;
     matrix_ := if with_map then map_of (emplace_columns 0 columns ∅)
                else vector_of columns;
     nextInsertIndex_ := n |}.

(** With the columns in a map, every index below [nextInsertIndex_] has
    its column. *)
Definition columns_present (s : Boundary_matrix) : Prop :=
  match matrix_ s with
  | map_of m => forall k, (k < nextInsertIndex_ s)%N -> is_Some (m !! k)
  | vector_of _ => True
  end.

End Matrix.

End BoundaryMatrix.

(** ** A dimension option

    Modelled from the spec: a dimension option for concrete runs (the one
    of the sources is absent). It keeps the dimension of every face in the
    matrix; the maximal dimension is the largest of them, [-1] for none. *)

Module DimensionHolder.

Definition holder := gmultiset Z.

Definition update_up (dimension : Z) (h : holder) : holder :=
  {[+ dimension +]} ⊎ h.

Definition update_down (dimension : Z) (h : holder) : holder :=
  h ∖ {[+ dimension +]}.

Definition get_max_dimension (h : holder) : Z :=
  foldr Z.max (-1) (elements h).

End DimensionHolder.

(** ** The matrix with rows swapped at once

    Modelled from the spec: the matrix that the reads of [Boundary_matrix]
    have to agree with. It serves the same requests; a swap of two rows
    relabels the cells of every column at once, so that the row indices it
    holds are those "consistent with all previously requested swaps". It
    accepts the requests the documentation of [Boundary_matrix] allows: a
    boundary is sorted and names faces inserted before, a column or a row
    named in a request exists, the row of a face removed is empty. *)

Module Reference.

Import BoundaryMatrix.

Abbreviation matrix := (list (Z * list index)).

Definition transposition (i j r : index) : index :=
  if (r =? i)%N then j else if (r =? j)%N then i else r.

Fixpoint increasingb (l : list index) : bool :=
  match l with
  | [] => true
  | x :: l' =>
      match l' with
      | [] => true
      | y :: _ => (x <? y)%N && increasingb l'
      end
  end.

Definition has_row (r : index) (col : Z * list index) : bool :=
  existsb (N.eqb r) col.2.

Definition pivot_of (col : Z * list index) : Z :=
  match last col.2 with
  | None => -1
  | Some r => Z.of_N r
  end.

Section Serve.

Variable opts : Options.

Definition serve (r : request) (e : matrix) : option (matrix * observation) :=
  let n := N.of_nat (length e) in
  match r with
  | call_insert_boundary boundary dim =>
      if increasingb boundary && forallb (fun r => (r <? n)%N) boundary
      then
        let dim := if dim =? -1 then dimension_of_size boundary else dim in
        Some (e ++ [(dim, boundary)], mat_index n)
      else None
  | call_swap_rows i j =>
      if activeSwapOption opts && (i <? n)%N && (j <? n)%N then
        Some ((fun col => (col.1, sort_rows (map (transposition i j) col.2))) <$> e,
              nothing)
      else None
  | call_add_to source target =>
      s ← e !! N.to_nat source;
      t ← e !! N.to_nat target;
      Some (<[N.to_nat target := (t.1, sym_merge s.2 t.2)]> e, nothing)
  | call_remove_last =>
      match last e with
      | None => Some (e, pivot_value (-1))
      | Some removed =>
          let rest := take (pred (length e)) e in
          if forallb (fun col => negb (has_row (N.pred n) col)) rest
          then Some (rest, pivot_value (pivot_of removed))
          else None
      end
  | call_get_column c =>
      col ← e !! N.to_nat c; Some (e, column_content col.1 col.2)
  | call_get_row r =>
      if has_row_access opts && (r <? n)%N then
        Some (e, row_content
                   (List.filter
                      (fun c => match e !! N.to_nat c with
                                | Some col => has_row r col
                                | None => false
                                end)
                      (seqN 0 n)))
      else None
  | call_get_pivot c =>
      col ← e !! N.to_nat c; Some (e, pivot_value (pivot_of col))
  | call_is_zero_cell c r =>
      col ← e !! N.to_nat c;
      if (r <? n)%N then Some (e, truth (negb (has_row r col))) else None
  end.

Fixpoint serve_all (l : list request) (e : matrix) :
    option (matrix * list observation) :=
  match l with
  | [] => Some (e, [])
  | r :: l' =>
      '(e, o) ← serve r e;
      '(e, os) ← serve_all l' e;
      Some (e, o :: os)
  end.

End Serve.

(** The reference for a matrix built from a list of boundaries: a column
    for each, with the dimension its size gives; the boundaries it accepts
    are sorted and name faces of the list. *)
Definition of_boundaries (orderedBoundaries : list (list index)) : matrix :=
  (fun boundary => (dimension_of_size boundary, boundary)) <$> orderedBoundaries.

Definition ordered (orderedBoundaries : list (list index)) : bool :=
  forallb
    (fun boundary =>
       increasingb boundary &&
       forallb (fun r => (r <? N.of_nat (length orderedBoundaries))%N) boundary)
    orderedBoundaries.

End Reference.

(** ** The matrix and the reference side by side *)

Module Agreement.

Import BoundaryMatrix.

Section Agrees.

Context {Dimension_option Pairing_option : Type}.
Variable opts : Options.

(** A column of the matrix and the column of the reference at the same
    index: the cells of the first carry the labels the rows had when the
    pending permutation started, the row-to-index dictionary sends each
    label to the row index of the reference. *)
Definition column_agrees (s : @Boundary_matrix Dimension_option Pairing_option)
    (col : Z2_vector_column) (ecol : Z * list index) : Prop :=
  dim_ col = ecol.1 /\
  increasing (column_ col) /\
  increasing ecol.2 /\
  (forall x, x ∈ column_ col -> is_Some (rowToIndex_ s !! x)) /\
  (forall r, r ∈ ecol.2 <->
             exists x, x ∈ column_ col /\ rowToIndex_ s !! x = Some r) /\
  (forall r, r ∈ ecol.2 -> (r < nextInsertIndex_ s)%N).

Record agrees (s : @Boundary_matrix Dimension_option Pairing_option)
    (e : Reference.matrix) : Prop := mk_agrees {
  agrees_count : nextInsertIndex_ s = N.of_nat (length e);
  agrees_columns :
    forall c ecol, e !! N.to_nat c = Some ecol ->
      exists col, column_at (matrix_ s) c = Some col /\ column_agrees s col ecol;
  agrees_inverse :
    forall i x, indexToRow_ s !! i = Some x <-> rowToIndex_ s !! x = Some i;
  agrees_indices :
    forall i, (i < nextInsertIndex_ s)%N -> is_Some (indexToRow_ s !! i);
  agrees_settled :
    rowSwapped_ s = false -> forall i x, indexToRow_ s !! i = Some x -> x = i;
  agrees_keys :
    match matrix_ s with
    | map_of _ =>
        forall i, is_Some (indexToRow_ s !! i) -> (i < nextInsertIndex_ s)%N
    | vector_of _ => True
    end;
  agrees_containers : container_wf opts s
}.

End Agrees.

End Agreement.

(** * Part II. Properties *)

(** ** Properties of [Z2_vector_column] *)

Section Increasing.

Lemma increasing_cons_inv x l :
  increasing (x :: l) -> increasing l /\ Forall (N.lt x) l.
Proof. intros H. inversion H; subst. split; assumption. Qed.

Lemma increasing_cons x l :
  increasing l -> Forall (N.lt x) l -> increasing (x :: l).
Proof. intros Hl Hx. constructor; assumption. Qed.

Lemma increasing_NoDup l : increasing l -> NoDup l.
Proof.
  induction l as [|x l IH]; intros H.
  - constructor.
  - apply increasing_cons_inv in H as [Hl Hx]. constructor; [|auto].
    intros Hin. rewrite Forall_forall in Hx.
    specialize (Hx x Hin). lia.
Qed.

Lemma increasing_head_notin x l : increasing (x :: l) -> x ∉ l.
Proof.
  intros H Hin. apply increasing_cons_inv in H as [_ Hx].
  rewrite Forall_forall in Hx. specialize (Hx x Hin). lia.
Qed.

(** Two strictly increasing lists with the same elements are equal. *)
Lemma increasing_ext l1 l2 :
  increasing l1 -> increasing l2 ->
  (forall x, x ∈ l1 <-> x ∈ l2) -> l1 = l2.
Proof.
  revert l2. induction l1 as [|a l1 IH]; intros [|b l2] H1 H2 Hext.
  - reflexivity.
  - exfalso. apply (not_elem_of_nil b). apply Hext. left.
  - exfalso. apply (not_elem_of_nil a). apply Hext. left.
  - apply increasing_cons_inv in H1 as [H1 Ha].
    apply increasing_cons_inv in H2 as [H2 Hb].
    rewrite Forall_forall in Ha, Hb.
    assert (a = b) as ->.
    { assert (a ∈ b :: l2) as Hab by (apply Hext; left).
      assert (b ∈ a :: l1) as Hba by (apply Hext; left).
      apply elem_of_cons in Hab as [?|Hab]; [assumption|].
      apply elem_of_cons in Hba as [?|Hba]; [congruence|].
      specialize (Ha _ Hba). specialize (Hb _ Hab). lia. }
    f_equal. apply IH; [assumption..|].
    intros x. split; intros Hx.
    + assert (x ∈ b :: l2) as Hx' by (apply Hext; right; exact Hx).
      apply elem_of_cons in Hx' as [->|?]; [|assumption].
      specialize (Ha _ Hx). lia.
    + assert (x ∈ b :: l1) as Hx' by (apply Hext; right; exact Hx).
      apply elem_of_cons in Hx' as [->|?]; [|assumption].
      specialize (Hb _ Hx). lia.
Qed.

End Increasing.

Section Z2VecProperties.
Import Z2Vec.

Lemma insert_rest_app rest col : insert_rest rest col = col ++ rest.
Proof.
  revert col. induction rest as [|r rest IH]; intros col; simpl.
  - by rewrite app_nil_r.
  - unfold insert_rest in IH. rewrite IH. unfold _insert_cell.
    by rewrite <- app_assoc.
Qed.

Lemma push_rest_app rest col : push_rest rest col = col ++ rest.
Proof.
  revert col. induction rest as [|r rest IH]; intros col; simpl.
  - by rewrite app_nil_r.
  - unfold push_rest in IH. rewrite IH. by rewrite <- app_assoc.
Qed.

Lemma sym_merge_nil_r s : sym_merge s [] = s.
Proof. by destruct s. Qed.

Lemma sym_merge_nil_l t : sym_merge [] t = t.
Proof. by destruct t. Qed.

Lemma sym_merge_cons y s x t :
  sym_merge (y :: s) (x :: t) =
  if (y =? x)%N then sym_merge s t
  else if (y <? x)%N then y :: sym_merge s (x :: t)
  else x :: sym_merge (y :: s) t.
Proof. reflexivity. Qed.

Lemma merge_walk_cons y s x t acc :
  merge_walk (y :: s) (x :: t) acc =
  if (y =? x)%N then merge_walk s t acc
  else if (y <? x)%N then merge_walk s (x :: t) (acc ++ [y])
  else merge_walk (y :: s) t (acc ++ [x]).
Proof. reflexivity. Qed.

(** The three loops of [operator+=] compute [sym_merge] behind what was
    already written to [newColumn]. *)
Lemma merge_walk_sym_merge s t acc :
  let '(itToAdd, itTarget, newColumn) := merge_walk s t acc in
  push_rest itTarget (insert_rest itToAdd newColumn) = acc ++ sym_merge s t.
Proof.
  revert t acc. induction s as [|y s IHs]; intros t acc.
  - rewrite sym_merge_nil_l.
    destruct t; cbn [merge_walk]; rewrite push_rest_app, insert_rest_app, app_nil_r; reflexivity.
  - induction t as [|x t IHt] in acc |- *.
    + cbn [merge_walk]. rewrite sym_merge_nil_r, push_rest_app, insert_rest_app, app_nil_r.
      reflexivity.
    + rewrite merge_walk_cons, sym_merge_cons.
      destruct (y =? x)%N; [apply IHs|].
      destruct (y <? x)%N.
      * specialize (IHs (x :: t) (acc ++ [y])).
        destruct (merge_walk s (x :: t) (acc ++ [y])) as [[ra rt] nc].
        rewrite IHs. by rewrite <- app_assoc.
      * specialize (IHt (acc ++ [x])).
        destruct (merge_walk (y :: s) t (acc ++ [x])) as [[ra rt] nc].
        rewrite IHt. by rewrite <- app_assoc.
Qed.

Lemma add_assign_sym_merge target column :
  column_ (add_assign target column) = sym_merge column (column_ target).
Proof.
  unfold add_assign. destruct column as [|y s].
  - by rewrite sym_merge_nil_l.
  - destruct (column_ target) as [|x t] eqn:Ht.
    + cbn [column_]. rewrite insert_rest_app, sym_merge_nil_r. reflexivity.
    + pose proof (merge_walk_sym_merge (y :: s) (x :: t) []) as H.
      destruct (merge_walk (y :: s) (x :: t) []) as [[ra rt] nc].
      simpl. exact H.
Qed.

Lemma add_assign_dim target column :
  dim_ (add_assign target column) = dim_ target.
Proof.
  unfold add_assign. destruct column; [reflexivity|].
  destruct (column_ target); [reflexivity|].
  by destruct (merge_walk _ _ _) as [[? ?] ?].
Qed.

Lemma sym_merge_lower_bound b s t :
  Forall (N.lt b) s -> Forall (N.lt b) t -> Forall (N.lt b) (sym_merge s t).
Proof.
  revert t. induction s as [|y s IHs]; intros t Hs Ht.
  - by rewrite sym_merge_nil_l.
  - induction t as [|x t IHt].
    + by rewrite sym_merge_nil_r.
    + rewrite sym_merge_cons.
      apply Forall_cons in Hs as [Hy Hs]. apply Forall_cons in Ht as [Hx Ht].
      destruct (y =? x)%N; [by apply IHs|].
      destruct (y <? x)%N.
      * constructor; [done|]. apply IHs; [done|by constructor].
      * constructor; [done|]. by apply IHt.
Qed.

Lemma Forall_lt_trans (a b : N) l : (a < b)%N -> Forall (N.lt b) l -> Forall (N.lt a) l.
Proof.
  intros Hab Hl. eapply Forall_impl; [exact Hl|].
  intros x Hx. simpl in Hx. lia.
Qed.

Lemma sym_merge_increasing s t :
  increasing s -> increasing t -> increasing (sym_merge s t).
Proof.
  revert t. induction s as [|y s IHs]; intros t Hs Ht.
  - by rewrite sym_merge_nil_l.
  - induction t as [|x t IHt].
    + by rewrite sym_merge_nil_r.
    + rewrite sym_merge_cons.
      destruct (increasing_cons_inv _ _ Hs) as [Hs' Hy].
      destruct (increasing_cons_inv _ _ Ht) as [Ht' Hx].
      destruct (y =? x)%N eqn:E; [by apply IHs|].
      apply N.eqb_neq in E.
      destruct (y <? x)%N eqn:L.
      * apply N.ltb_lt in L. apply increasing_cons; [by apply IHs|].
        apply sym_merge_lower_bound; [done|].
        constructor; [done|]. by apply Forall_lt_trans with x.
      * apply N.ltb_ge in L. assert (x < y)%N by lia.
        apply increasing_cons; [by apply IHt|].
        apply sym_merge_lower_bound; [|done].
        constructor; [done|]. by apply Forall_lt_trans with y.
Qed.

Lemma sym_merge_elem_of s t z :
  increasing s -> increasing t ->
  z ∈ sym_merge s t <-> (z ∈ t /\ z ∉ s) \/ (z ∈ s /\ z ∉ t).
Proof.
  revert t. induction s as [|y s IHs]; intros t Hs Ht.
  - rewrite sym_merge_nil_l. split.
    + intros Hz. left. split; [done|]. apply not_elem_of_nil.
    + intros [[Hz _]|[Hz _]]; [done|]. by apply not_elem_of_nil in Hz.
  - induction t as [|x t IHt].
    + rewrite sym_merge_nil_r. split.
      * intros Hz. right. split; [done|]. apply not_elem_of_nil.
      * intros [[Hz _]|[Hz _]]; [|done]. by apply not_elem_of_nil in Hz.
    + rewrite sym_merge_cons.
      destruct (increasing_cons_inv _ _ Hs) as [Hs' Hy].
      destruct (increasing_cons_inv _ _ Ht) as [Ht' Hx].
      rewrite Forall_forall in Hy, Hx.
      destruct (y =? x)%N eqn:E.
      * apply N.eqb_eq in E. subst x. rewrite IHs by done.
        rewrite !elem_of_cons.
        split.
        -- intros [[Hz Hn]|[Hz Hn]].
           ++ left. split; [by right|]. intros [->|?]; [|done].
              specialize (Hx _ Hz). lia.
           ++ right. split; [by right|]. intros [->|?]; [|done].
              specialize (Hy _ Hz). lia.
        -- intros [[[->|Hz] Hn]|[[->|Hz] Hn]].
           ++ exfalso. apply Hn. by left.
           ++ left. split; [done|]. intros ?. apply Hn. by right.
           ++ exfalso. apply Hn. by left.
           ++ right. split; [done|]. intros ?. apply Hn. by right.
      * apply N.eqb_neq in E. destruct (y <? x)%N eqn:L.
        -- apply N.ltb_lt in L. rewrite elem_of_cons, IHs by done.
           rewrite !elem_of_cons.
           assert (y ∉ t) as Hyt by (intros Hin; specialize (Hx _ Hin); lia).
           split.
           ++ intros [->|[[Hz Hn]|[Hz Hn]]].
              ** right. split; [by left|]. intros [?|?]; [lia|done].
              ** left. split; [done|]. intros [->|?]; [|done].
                 destruct Hz as [->|Hz]; [lia|done].
              ** right. split; [by right|done].
           ++ intros [[[->|Hz] Hn]|[[->|Hz] Hn]].
              ** right. left. split; [by left|]. intros ?. apply Hn. by right.
              ** right. left. split; [by right|]. intros ?. apply Hn. by right.
              ** by left.
              ** right. right. done.
        -- apply N.ltb_ge in L. assert (x < y)%N as L' by lia.
           rewrite elem_of_cons, IHt by done.
           rewrite !elem_of_cons.
           assert (x ∉ s) as Hxs by (intros Hin; specialize (Hy _ Hin); lia).
           split.
           ++ intros [->|[[Hz Hn]|[Hz Hn]]].
              ** left. split; [by left|]. intros [?|?]; [lia|done].
              ** left. split; [by right|done].
              ** right. split; [done|]. intros [->|?]; [|done].
                 destruct Hz as [->|Hz]; [lia|done].
           ++ intros [[[->|Hz] Hn]|[[->|Hz] Hn]].
              ** by left.
              ** right. left. done.
              ** right. right. split; [by left|]. intros ?. apply Hn. by right.
              ** right. right. split; [by right|]. intros ?. apply Hn. by right.
Qed.

End Z2VecProperties.

Section Z2VecClaims.
Import Z2Vec.

(** C2. For distinct Z2 columns [target] and [source] whose cells are sorted
    by strictly increasing row index, after [target += source] the row
    indices of [target] are the symmetric difference of the two original
    sets of row indices, and the cells of [target] are again sorted by
    strictly increasing row index, with no row index twice. *)
Theorem add_assign_symmetric_difference (target : Z2_vector_column) (source : list index) :
  increasing (column_ target) -> increasing source ->
  list_to_set (column_ (add_assign target source)) =
    sym_diff (list_to_set (column_ target)) (list_to_set source) /\
  increasing (column_ (add_assign target source)) /\
  NoDup (column_ (add_assign target source)).
Proof.
  intros Ht Hs. rewrite add_assign_sym_merge.
  pose proof (sym_merge_increasing _ _ Hs Ht) as Hinc.
  split; [|split; [exact Hinc|by apply increasing_NoDup]].
  apply set_eq. intros z. unfold sym_diff.
  rewrite elem_of_list_to_set, elem_of_union, !elem_of_difference,
    !elem_of_list_to_set.
  by apply sym_merge_elem_of.
Qed.

Lemma add_assign_symmetric_difference_witness :
  let target := {| dim_ := 1; column_ := [0; 2; 5]%N |} in
  let source := [2; 3]%N in
  list_to_set (column_ (add_assign target source)) =
    sym_diff (list_to_set (column_ target)) (list_to_set source) /\
  increasing (column_ (add_assign target source)) /\
  NoDup (column_ (add_assign target source)).
Proof.
  apply add_assign_symmetric_difference; simpl;
    repeat (constructor; try (simpl; lia)).
Defined.

(** Adding the same sorted source twice gives back the target, cell for
    cell. *)
Lemma add_assign_twice (target : Z2_vector_column) (source : list index) :
  increasing (column_ target) -> increasing source ->
  add_assign (add_assign target source) source = target.
Proof.
  intros Ht Hs.
  assert (column_ (add_assign (add_assign target source) source) = column_ target)
    as Hcol.
  { pose proof (sym_merge_increasing _ _ Hs Ht) as Hinc.
    apply increasing_ext; [|exact Ht|].
    - rewrite add_assign_sym_merge. apply sym_merge_increasing; [done|].
      by rewrite add_assign_sym_merge.
    - intros z. rewrite add_assign_sym_merge.
      rewrite sym_merge_elem_of; [|done|by rewrite add_assign_sym_merge].
      rewrite add_assign_sym_merge, sym_merge_elem_of by done.
      destruct (decide (z ∈ source)), (decide (z ∈ column_ target)); tauto. }
  pose proof (add_assign_dim (add_assign target source) source) as Hdim.
  rewrite (add_assign_dim target source) in Hdim.
  revert Hcol Hdim.
  generalize (add_assign (add_assign target source) source).
  intros [d c]. destruct target as [d' c']. simpl. intros -> ->. reflexivity.
Qed.

(** C10. [c *= v] on a Z2 vector column leaves [c] as it is for an odd [v]
    and removes every cell for an even [v]: the column is multiplied by
    [v mod 2]. *)
Theorem mul_assign_parity (c : Z2_vector_column) (v : N) :
  mul_assign c v = (if N.odd v then c else clear c) /\
  column_ (mul_assign c v) = (if (v mod 2 =? 1)%N then column_ c else []) /\
  forall r, is_non_zero (mul_assign c v) r = N.odd v && is_non_zero c r.
Proof.
  unfold mul_assign. rewrite <- N.bit0_mod, N.bit0_odd.
  destruct (N.odd v); simpl; repeat split; reflexivity.
Qed.

End Z2VecClaims.

Section Z2IListClaims.
Import Z2IList.

Lemma increasing_last_max l p :
  increasing l -> last l = Some p -> forall r, r ∈ l -> (r <= p)%N.
Proof.
  induction l as [|x l IH]; intros Hl Hp r Hr.
  - by apply not_elem_of_nil in Hr.
  - apply increasing_cons_inv in Hl as [Hl Hx]. rewrite Forall_forall in Hx.
    destruct l as [|y l'].
    + simpl in Hp. injection Hp as <-. apply elem_of_cons in Hr as [->|Hr]; [lia|].
      by apply not_elem_of_nil in Hr.
    + change (last (x :: y :: l')) with (last (y :: l')) in Hp.
      apply elem_of_cons in Hr as [->|Hr].
      * assert (p ∈ y :: l') as Hin by (by apply last_Some_elem_of).
        specialize (Hx _ Hin). lia.
      * by apply IH.
Qed.

Lemma get_pivot_of_int_row (c : Z2_intrusive_list_boundary_column) r :
  last (column_ c) = Some r -> Z.of_N r <= 2147483647 -> get_pivot c = Z.of_N r.
Proof.
  intros Hlast Hr. unfold get_pivot. rewrite Hlast. cbv zeta.
  rewrite Z.mod_small by lia.
  by rewrite (proj2 (Z.ltb_lt (Z.of_N r) 2147483648)) by lia.
Qed.

(** C7. For a column whose cells are sorted by strictly increasing row
    index and whose row indices are within the range of the [int] that
    [get_pivot()] returns (at most 2^31 - 1), [get_pivot()] is the largest
    row index of the column, and it is the "none" sentinel [-1] exactly
    when the column has no cell. *)
Theorem get_pivot_is_maximum (c : Z2_intrusive_list_boundary_column) :
  increasing (column_ c) ->
  Forall (fun r => Z.of_N r <= 2147483647) (column_ c) ->
  (get_pivot c = -1 <-> column_ c = []) /\
  (forall r, r ∈ column_ c -> Z.of_N r <= get_pivot c) /\
  (column_ c <> [] -> exists p, p ∈ column_ c /\ get_pivot c = Z.of_N p).
Proof.
  intros Hc Hint. rewrite Forall_forall in Hint.
  destruct (last (column_ c)) as [p|] eqn:Hlast.
  - assert (p ∈ column_ c) as Hin by (by apply last_Some_elem_of).
    rewrite (get_pivot_of_int_row c p Hlast (Hint p Hin)).
    split; [|split].
    + split; [lia|]. intros Hnil. rewrite Hnil in Hlast. discriminate.
    + intros r Hr. pose proof (increasing_last_max _ _ Hc Hlast r Hr). lia.
    + intros _. by exists p.
  - unfold get_pivot. rewrite Hlast.
    apply last_None in Hlast. rewrite Hlast. split; [done|]. split.
    + intros r Hr. by apply not_elem_of_nil in Hr.
    + done.
Qed.

Lemma get_pivot_is_maximum_witness :
  let c := {| dim_ := 1; column_ := [1; 4; 7]%N |} in
  (get_pivot c = -1 <-> column_ c = []) /\
  (forall r, r ∈ column_ c -> Z.of_N r <= get_pivot c) /\
  (column_ c <> [] -> exists p, p ∈ column_ c /\ get_pivot c = Z.of_N p).
Proof.
  apply get_pivot_is_maximum; simpl; repeat (constructor; try (simpl; lia)).
Defined.

(** Beyond the range of an [int] the conversion loses the row: the column
    whose only cell is at row 2^32 - 1 reports the sentinel [-1] although
    it is not empty, and the column of rows 5 and 2^31 reports a pivot
    below both rows. *)
Lemma get_pivot_beyond_int_range :
  let c1 := {| dim_ := 0; column_ := [4294967295]%N |} in
  let c2 := {| dim_ := 1; column_ := [5; 2147483648]%N |} in
  (increasing (column_ c1) /\ column_ c1 <> [] /\ get_pivot c1 = -1) /\
  (increasing (column_ c2) /\ 2147483648%N ∈ column_ c2 /\
   get_pivot c2 = -2147483648 /\ ~ Z.of_N 2147483648 <= get_pivot c2).
Proof.
  intros c1 c2. split.
  - split; [repeat constructor|]. split; [done|reflexivity].
  - split; [repeat constructor; simpl; lia|].
    split; [right; left|]. split; [reflexivity|]. vm_compute. by intros H.
Qed.

End Z2IListClaims.

Section MultiFieldArithmetic.
Import MultiField.

Lemma mod_shift (m k z : Z) : 0 <= z + k * m < m -> z mod m = z + k * m.
Proof.
  intros H. symmetry. apply Z.mod_unique_pos with (q := - k); lia.
Qed.

Lemma wrap_shift (k z : Z) :
  0 <= z + k * 4294967296 < 4294967296 -> wrap z = z + k * 4294967296.
Proof. apply mod_shift. Qed.

Lemma wrap_small z : 0 <= z < 4294967296 -> wrap z = z.
Proof. intros H. rewrite (wrap_shift 0); lia. Qed.

Variable N : Z.
Hypothesis N_fits : N <= UINT_MAX.

Lemma _add_spec x y :
  0 <= x < N -> 0 <= y < N -> _add N x y = (x + y) mod N.
Proof using N_fits.
  unfold UINT_MAX in N_fits. intros Hx Hy. unfold _add, UINT_MAX.
  rewrite (wrap_small (4294967295 - x)) by lia.
  destruct (4294967295 - x <? y) eqn:E.
  - apply Z.ltb_lt in E.
    rewrite (wrap_shift (-1) (x + y)) by lia.
    rewrite (wrap_shift 1) by lia.
    rewrite (mod_shift N (-1)) by lia. lia.
  - apply Z.ltb_ge in E. rewrite (wrap_small (x + y)) by lia.
    destruct (N <=? x + y) eqn:E'.
    + apply Z.leb_le in E'. rewrite wrap_small by lia.
      rewrite (mod_shift N (-1)) by lia. lia.
    + apply Z.leb_gt in E'. rewrite (mod_shift N 0) by lia. lia.
Qed.

Lemma _substract_spec x y :
  0 <= x < N -> 0 <= y < N -> _substract N x y = (x - y) mod N.
Proof using N_fits.
  unfold UINT_MAX in N_fits. intros Hx Hy. unfold _substract.
  destruct (x <? y) eqn:E.
  - apply Z.ltb_lt in E.
    destruct (Z_lt_le_dec (x + N) 4294967296) as [Hs|Hs].
    + rewrite (wrap_small (x + N)) by lia. rewrite wrap_small by lia.
      rewrite (mod_shift N 1) by lia. lia.
    + rewrite (wrap_shift (-1) (x + N)) by lia.
      rewrite (wrap_shift 1) by lia.
      rewrite (mod_shift N 1) by lia. lia.
  - apply Z.ltb_ge in E. rewrite wrap_small by lia.
    rewrite (mod_shift N 0) by lia. lia.
Qed.

Lemma add_step_spec b res :
  0 <= b < N -> 0 <= res < N -> add_step N b res = (res + b) mod N.
Proof using N_fits.
  unfold UINT_MAX in N_fits. intros Hb Hres. unfold add_step.
  rewrite (wrap_small (N - res)) by lia.
  destruct (N - res <=? b) eqn:E.
  - apply Z.leb_le in E.
    rewrite (wrap_shift 1 (res - N)) by lia.
    rewrite (wrap_shift (-1)) by lia.
    rewrite (mod_shift N (-1)) by lia. lia.
  - apply Z.leb_gt in E. rewrite wrap_small by lia.
    rewrite (mod_shift N 0) by lia. lia.
Qed.

Lemma double_step_spec b :
  0 <= b < N -> double_step N b = (2 * b) mod N.
Proof using N_fits.
  unfold UINT_MAX in N_fits. intros Hb. unfold double_step.
  rewrite (wrap_small (N - b)) by lia.
  destruct (N - b <=? b) eqn:E.
  - apply Z.leb_le in E.
    rewrite (wrap_shift 1 (b - N)) by lia.
    rewrite (wrap_shift (-1)) by lia.
    rewrite (mod_shift N (-1)) by lia. lia.
  - apply Z.leb_gt in E. rewrite wrap_small by lia.
    rewrite (mod_shift N 0) by lia. lia.
Qed.

Lemma mod_combine x a y :
  (x mod N + a * (y mod N)) mod N = (x + a * y) mod N.
Proof.
  rewrite Zplus_mod_idemp_l.
  rewrite (Zplus_mod x (a * (y mod N))), Zmult_mod_idemp_r.
  by rewrite <- Zplus_mod.
Qed.

Lemma multiply_loop_spec a b res :
  0 <= b < N -> 0 <= res < N ->
  multiply_loop N a b res = (res + Zpos a * b) mod N.
Proof using N_fits.
  revert b res. induction a as [a IH|a IH|]; intros b res Hb Hres; simpl.
  - rewrite IH.
    + rewrite add_step_spec, double_step_spec by done.
      rewrite mod_combine. f_equal. lia.
    + rewrite double_step_spec by done. apply Z.mod_pos_bound. lia.
    + rewrite add_step_spec by done. apply Z.mod_pos_bound. lia.
  - rewrite IH; [|rewrite double_step_spec by done; apply Z.mod_pos_bound; lia|done].
    rewrite double_step_spec by done.
    rewrite <- (Z.mod_small res N) at 1 by lia.
    rewrite mod_combine. f_equal. lia.
  - rewrite add_step_spec by done. f_equal. lia.
Qed.

Lemma _multiply_spec x y :
  0 <= x < N -> 0 <= y < N -> _multiply N x y = (x * y) mod N.
Proof using N_fits.
  intros Hx Hy. unfold _multiply.
  destruct (y <? x).
  - destruct y as [|y|y]; [by rewrite Z.mul_0_r, Z.mod_0_l by lia| |lia].
    rewrite multiply_loop_spec by lia. f_equal. lia.
  - destruct x as [|x|x]; [by rewrite Z.mod_0_l by lia| |lia].
    rewrite multiply_loop_spec by lia. f_equal.
Qed.

End MultiFieldArithmetic.

Section MultiFieldClaims.
Import MultiField.

(** C5. With the characteristic [N] an [unsigned int] and both stored
    values in [0, N), each of [operator+=], [operator-=] and [operator*=]
    stores a value in [0, N) that is the sum, the difference and the
    product of the operands modulo [N]; the wrap-around of the machine
    word in the carry branches is part of the embedded code. *)
Theorem field_operations_modular (N x y : Z) :
  N <= UINT_MAX -> 0 <= x < N -> 0 <= y < N ->
  (0 <= add_assign N x y < N /\ add_assign N x y = (x + y) mod N) /\
  (0 <= sub_assign N x y < N /\ sub_assign N x y = (x - y) mod N) /\
  (0 <= mul_assign N x y < N /\ mul_assign N x y = (x * y) mod N).
Proof.
  intros HN Hx Hy. unfold add_assign, sub_assign, mul_assign.
  rewrite _add_spec, _substract_spec, _multiply_spec by done.
  repeat split; try apply Z.mod_pos_bound; lia.
Qed.

Lemma field_operations_modular_witness :
  (0 <= add_assign 4294967291 4294967290 4294967289 < 4294967291 /\
   add_assign 4294967291 4294967290 4294967289 =
     (4294967290 + 4294967289) mod 4294967291) /\
  (0 <= sub_assign 4294967291 4294967290 4294967289 < 4294967291 /\
   sub_assign 4294967291 4294967290 4294967289 =
     (4294967290 - 4294967289) mod 4294967291) /\
  (0 <= mul_assign 4294967291 4294967290 4294967289 < 4294967291 /\
   mul_assign 4294967291 4294967290 4294967289 =
     (4294967290 * 4294967289) mod 4294967291).
Proof.
  apply field_operations_modular; unfold UINT_MAX; lia.
Defined.

End MultiFieldClaims.

Section PrimalityTest.
Import MultiField.

Lemma rem_zero_divide p d :
  0 <= p -> 0 < d -> (Z.rem p d =? 0) = true <-> (d | p).
Proof.
  intros Hp Hd. rewrite Z.eqb_eq, Z.rem_mod_nonneg by lia.
  apply Z.mod_divide. lia.
Qed.

Lemma no_divisor_below_prime i p :
  1 < p -> 0 < i -> p < i * i -> no_divisor_below i p -> Z.prime p.
Proof.
  intros Hp Hi Hsq Hno. split; [done|].
  intros n Hn Hdiv.
  destruct (Z_lt_le_dec n i) as [Hlt|Hge]; [by apply (Hno n); [lia|]|].
  destruct Hdiv as [q Hq].
  assert (1 < q) by nia.
  assert (q < i) by nia.
  apply (Hno q); [lia|]. exists n. lia.
Qed.

Lemma no_divisor_below_step i p :
  3 < p -> 0 <= i -> i mod 6 = 5 -> ~ (2 | p) -> ~ (3 | p) ->
  ~ (i | p) -> ~ (i + 2 | p) ->
  no_divisor_below i p -> no_divisor_below (i + 6) p.
Proof.
  intros Hp Hi Hmod H2 H3 Hi0 Hi2 Hno d Hd Hdiv.
  pose proof (Z.div_mod i 6 ltac:(lia)) as Hdm. rewrite Hmod in Hdm.
  destruct (Z_lt_le_dec d i) as [Hlt|Hge]; [by apply (Hno d); [lia|]|].
  assert (d = i \/ d = i + 1 \/ d = i + 2 \/ d = i + 3 \/ d = i + 4 \/ d = i + 5)
    as [-> | [-> | [-> | [-> | [-> | ->]]]]] by lia.
  - done.
  - apply H2. apply Z.divide_trans with (i + 1); [|done].
    exists (3 * (i / 6) + 3). lia.
  - done.
  - apply H2. apply Z.divide_trans with (i + 3); [|done].
    exists (3 * (i / 6) + 4). lia.
  - apply H3. apply Z.divide_trans with (i + 4); [|done].
    exists (2 * (i / 6) + 3). lia.
  - apply H2. apply Z.divide_trans with (i + 5); [|done].
    exists (3 * (i / 6) + 5). lia.
Qed.

Lemma divisor_not_prime d p : 1 < d < p -> (d | p) -> ~ Z.prime p.
Proof.
  intros Hd Hdiv [_ Hno].
  by apply (Hno d).
Qed.

Lemma is_prime_loop_correct fuel i p b :
  3 < p -> 5 <= i -> i mod 6 = 5 -> ~ (2 | p) -> ~ (3 | p) ->
  no_divisor_below i p ->
  is_prime_loop fuel i p = Some b -> (b = true <-> Z.prime p).
Proof.
  revert i. induction fuel as [|fuel IH]; intros i Hp Hi Hmod H2 H3 Hno; [done|].
  simpl. destruct (i * i <=? p) eqn:Hsq.
  - apply Z.leb_le in Hsq.
    destruct (Z.rem p i =? 0) eqn:E1.
    { simpl. intros [= <-]. split; [done|]. intros Hprime. exfalso.
      apply rem_zero_divide in E1; [|lia..].
      apply (divisor_not_prime i p); [nia|done..]. }
    destruct (Z.rem p (i + 2) =? 0) eqn:E2.
    { simpl. intros [= <-]. split; [done|]. intros Hprime. exfalso.
      apply rem_zero_divide in E2; [|lia..].
      apply (divisor_not_prime (i + 2) p); [nia|done..]. }
    simpl. apply IH; [done|lia| |done..|].
    + rewrite <- Zplus_mod_idemp_l, Hmod. reflexivity.
    + apply no_divisor_below_step; [done|lia|done..| | |done].
      * intros Hd. apply (rem_zero_divide p i) in Hd; [congruence|lia..].
      * intros Hd. apply (rem_zero_divide p (i + 2)) in Hd; [congruence|lia..].
  - apply Z.leb_gt in Hsq. intros [= <-]. split; [|done]. intros _.
    apply (no_divisor_below_prime i); [lia..|done].
Qed.

Lemma is_prime_loop_returns fuel i p :
  0 < i -> p - i + 1 < Z.of_nat fuel -> (0 < fuel)%nat ->
  exists b, is_prime_loop fuel i p = Some b.
Proof.
  revert i. induction fuel as [|fuel IH]; intros i Hi Hfuel Hpos; [lia|].
  simpl. destruct (i * i <=? p) eqn:Hsq; [|by eexists].
  apply Z.leb_le in Hsq.
  destruct (_ || _); [by eexists|].
  apply IH; [lia|nia|nia].
Qed.

(** [_is_prime] decides primality, whatever the fuel that lets it answer. *)
Lemma _is_prime_correct fuel p b :
  _is_prime fuel p = Some b -> (b = true <-> Z.prime p).
Proof.
  unfold _is_prime.
  destruct (p <=? 1) eqn:E1.
  { apply Z.leb_le in E1. intros [= <-]. split; [done|].
    intros Hprime. apply Z.prime_ge_2 in Hprime. lia. }
  apply Z.leb_gt in E1.
  destruct (p <=? 3) eqn:E3.
  { apply Z.leb_le in E3. intros [= <-]. split; [|done]. intros _.
    assert (p = 2 \/ p = 3) as [-> | ->] by lia; [apply Z.prime_2|apply Z.prime_3]. }
  apply Z.leb_gt in E3.
  destruct (Z.rem p 2 =? 0) eqn:R2.
  { simpl. intros [= <-]. split; [done|]. intros Hprime. exfalso.
    apply rem_zero_divide in R2; [|lia..].
    by apply (divisor_not_prime 2 p); [lia|..]. }
  destruct (Z.rem p 3 =? 0) eqn:R3.
  { simpl. intros [= <-]. split; [done|]. intros Hprime. exfalso.
    apply rem_zero_divide in R3; [|lia..].
    by apply (divisor_not_prime 3 p); [lia|..]. }
  simpl.
  assert (~ (2 | p)) as H2.
  { intros Hd. apply (rem_zero_divide p 2) in Hd; [congruence|lia..]. }
  assert (~ (3 | p)) as H3.
  { intros Hd. apply (rem_zero_divide p 3) in Hd; [congruence|lia..]. }
  apply is_prime_loop_correct; [lia|lia|done|done|done|].
  intros d Hd Hdiv.
  assert (d = 2 \/ d = 3 \/ d = 4) as [-> | [-> | ->]] by lia; [done..|].
  apply H2. apply Z.divide_trans with 4; [by exists 2|done].
Qed.

Lemma _is_prime_returns fuel p :
  p + 2 <= Z.of_nat fuel -> exists b, _is_prime fuel p = Some b.
Proof.
  intros Hfuel. unfold _is_prime.
  destruct (p <=? 1); [by eexists|].
  destruct (p <=? 3) eqn:E3; [by eexists|]. apply Z.leb_gt in E3.
  destruct (_ || _); [by eexists|].
  apply is_prime_loop_returns; lia.
Qed.

(** Trial division by every smaller number decides primality too. *)
Lemma is_primeb_prime n : is_primeb n = true <-> Z.prime n.
Proof.
  unfold is_primeb. rewrite andb_true_iff, Z.ltb_lt, forallb_forall.
  unfold Z.prime.
  split; intros [Hn Hall]; (split; [done|]).
  - intros d Hd Hdiv.
    assert (In d (seqZ 2 (n - 2))) as Hin.
    { apply list_elem_of_In, elem_of_seqZ. lia. }
    specialize (Hall d Hin). apply negb_true_iff, Z.eqb_neq in Hall.
    apply Hall. apply Z.mod_divide; [lia|done].
  - intros d Hin. apply list_elem_of_In, elem_of_seqZ in Hin.
    apply negb_true_iff, Z.eqb_neq. intros Hmod.
    apply (Hall d); [lia|]. apply Z.mod_divide; [lia|done].
Qed.

End PrimalityTest.

Section Initialize.
Import MultiField.

Lemma to_int_small u : 0 <= u < 2147483648 -> to_int u = u.
Proof. intros H. unfold to_int. destruct (u <? 2147483648) eqn:E; [done|]. lia. Qed.

Lemma primes_between_empty i maximum :
  maximum < i -> primes_between i maximum = [].
Proof.
  intros H. unfold primes_between.
  destruct (maximum - i + 1) eqn:E; try lia; reflexivity.
Qed.

Lemma primes_between_cons i maximum :
  i <= maximum ->
  primes_between i maximum =
  if is_primeb i then i :: primes_between (i + 1) maximum
  else primes_between (i + 1) maximum.
Proof.
  intros H. unfold primes_between.
  rewrite (seqZ_cons i) by lia. simpl.
  replace (Z.pred (maximum - i + 1)) with (maximum - (i + 1) + 1) by lia.
  replace (Z.succ i) with (i + 1) by lia. reflexivity.
Qed.

Lemma elem_of_primes_between p minimum maximum :
  p ∈ primes_between minimum maximum <-> minimum <= p <= maximum /\ Z.prime p.
Proof.
  unfold primes_between.
  rewrite list_elem_of_In, filter_In, <- list_elem_of_In, elem_of_seqZ.
  rewrite is_primeb_prime. intuition lia.
Qed.

Lemma primes_between_nil minimum maximum :
  primes_between minimum maximum = [] <->
  ~ exists p, minimum <= p <= maximum /\ Z.prime p.
Proof.
  split.
  - intros Hnil [p Hp]. apply elem_of_primes_between in Hp.
    rewrite Hnil in Hp. by apply not_elem_of_nil in Hp.
  - intros Hno. destruct (primes_between minimum maximum) as [|p l] eqn:E; [done|].
    exfalso. apply Hno. exists p. apply elem_of_primes_between.
    rewrite E. left.
Qed.

Lemma collect_primes_spec pfuel fuel i maximum primes product :
  0 <= i -> maximum < 2147483648 -> i <= maximum + 1 ->
  maximum + 2 <= Z.of_nat pfuel -> maximum - i + 1 < Z.of_nat fuel ->
  0 <= product < 4294967296 ->
  collect_primes pfuel fuel i maximum primes product =
  Some (primes ++ primes_between i maximum,
        wrap (product * product_of (primes_between i maximum))).
Proof.
  revert i primes product.
  induction fuel as [|fuel IH]; intros i primes product Hi Hmax Hle Hpf Hf Hprod;
    [lia|].
  simpl. destruct (i <=? maximum) eqn:E.
  - apply Z.leb_le in E. rewrite to_int_small by lia.
    destruct (_is_prime_returns pfuel i) as [b Hb]; [lia|].
    rewrite Hb. apply _is_prime_correct in Hb.
    rewrite <- is_primeb_prime in Hb.
    rewrite (primes_between_cons i) by done.
    rewrite (wrap_small (i + 1)) by lia.
    destruct b.
    + replace (is_primeb i) with true by (symmetry; by apply Hb).
      rewrite IH; [|lia|done|lia|done|lia|apply Z.mod_pos_bound; lia].
      rewrite <- app_assoc. simpl. f_equal. f_equal.
      unfold wrap. rewrite Zmult_mod_idemp_l. f_equal. lia.
    + destruct (is_primeb i) eqn:Ep; [by destruct Hb as [_ Hb]; specialize (Hb eq_refl)|].
      apply IH; [lia|done|lia|done|lia|done].
  - apply Z.leb_gt in E. rewrite primes_between_empty by lia.
    rewrite app_nil_r. simpl. rewrite Z.mul_1_r, wrap_small by done. reflexivity.
Qed.

Lemma product_of_primes_pos minimum maximum :
  0 < product_of (primes_between minimum maximum).
Proof.
  assert (Forall (Z.lt 0) (primes_between minimum maximum)) as Hall.
  { apply Forall_forall. intros x Hx.
    apply elem_of_primes_between in Hx as [_ Hx].
    apply Z.prime_ge_2 in Hx. lia. }
  unfold product_of.
  induction Hall as [|x l' Hx Hl IH]; simpl; [lia|nia].
Qed.

End Initialize.

Section InitializeClaims.
Import MultiField.

(** C6, as the code has it. For [unsigned int] bounds with [maximum] at
    most [INT_MAX], [initialize(minimum, maximum)] returns; it throws
    [invalid_argument] exactly when [maximum < 2], or [minimum > maximum],
    or no prime lies in the interval; otherwise the characteristic is the
    product of the primes of the interval in [unsigned int] arithmetic,
    that is modulo 2^32, hence the product itself only when that fits. *)
Theorem initialize_throws_iff (fuel : nat) (st : field_state) (minimum maximum : Z) :
  0 <= minimum <= UINT_MAX -> 0 <= maximum < 2147483648 ->
  maximum + 2 <= Z.of_nat fuel ->
  exists o, initialize fuel st minimum maximum = Some o /\
    (thrown o = true <->
       maximum < 2 \/ maximum < minimum \/
       ~ exists p, minimum <= p <= maximum /\ Z.prime p) /\
    (thrown o = false ->
       get_characteristic (state_of o) =
         wrap (product_of (primes_between minimum maximum)) /\
       (product_of (primes_between minimum maximum) <= UINT_MAX ->
        get_characteristic (state_of o) =
          product_of (primes_between minimum maximum))).
Proof.
  intros Hmin Hmax Hfuel. unfold initialize, UINT_MAX in *.
  destruct (maximum <? 2) eqn:E2.
  { apply Z.ltb_lt in E2. eexists. split; [done|]. simpl. split; [|done].
    split; [by left|done]. }
  apply Z.ltb_ge in E2.
  destruct (maximum <? minimum) eqn:Elt.
  { apply Z.ltb_lt in Elt. eexists. split; [done|]. simpl. split; [|done].
    split; [by right; left|done]. }
  apply Z.ltb_ge in Elt.
  pose proof (collect_primes_spec fuel fuel minimum maximum [] 1) as Hcollect.
  rewrite Hcollect by lia. clear Hcollect. rewrite app_nil_l, Z.mul_1_l.
  destruct (minimum =? maximum) eqn:Eeq.
  - apply Z.eqb_eq in Eeq. subst maximum.
    rewrite to_int_small by lia.
    destruct (_is_prime_returns fuel minimum) as [b Hb]; [lia|].
    rewrite Hb. apply _is_prime_correct in Hb. destruct b; simpl.
    + assert (minimum ∈ primes_between minimum minimum) as Hin.
      { apply elem_of_primes_between. split; [lia|]. by apply Hb. }
      destruct (primes_between minimum minimum) as [|q l] eqn:Epb;
        [by apply not_elem_of_nil in Hin|].
      eexists. split; [done|]. simpl. split.
      * split; [done|]. intros [?|[?|Hno]]; [lia..|].
        exfalso. apply primes_between_nil in Hno. congruence.
      * intros _. split; [done|]. intros Hfit.
        unfold get_characteristic. simpl. apply wrap_small.
        pose proof (product_of_primes_pos minimum minimum) as Hpos.
        rewrite Epb in Hpos. unfold product_of in *. simpl in *. lia.
    + eexists. split; [done|]. simpl. split; [|done].
      split; [|done]. intros _. right. right. intros [p [Hp Hprime]].
      assert (p = minimum) as -> by lia.
      destruct Hb as [_ Hb]. by specialize (Hb Hprime).
  - destruct (primes_between minimum maximum) as [|q l] eqn:Epb.
    + eexists. split; [done|]. simpl. split; [|done].
      split; [|done]. intros _. right. right. by apply primes_between_nil.
    + eexists. split; [done|]. simpl. split.
      * split; [done|]. intros [?|[?|Hno]]; [lia..|].
        exfalso. apply primes_between_nil in Hno. congruence.
      * intros _. split; [done|]. intros Hfit.
        unfold get_characteristic. simpl. apply wrap_small.
        pose proof (product_of_primes_pos minimum maximum) as Hpos.
        rewrite Epb in Hpos. unfold product_of in *. simpl in *. lia.
Qed.

End InitializeClaims.

Section InitializeExamples.
Import MultiField.

Lemma initialize_throws_iff_witness :
  exists o, initialize 10 (mk_field_state [] 0 []) 2 7 = Some o /\
    (thrown o = true <->
       7 < 2 \/ 7 < 2 \/ ~ exists p, 2 <= p <= 7 /\ Z.prime p) /\
    (thrown o = false ->
       get_characteristic (state_of o) = wrap (product_of (primes_between 2 7)) /\
       (product_of (primes_between 2 7) <= UINT_MAX ->
        get_characteristic (state_of o) = product_of (primes_between 2 7))).
Proof.
  apply (initialize_throws_iff 10 (mk_field_state [] 0 []) 2 7);
    unfold UINT_MAX; simpl; lia.
Defined.

(** [initialize(2, 29)] does not throw, and the characteristic it sets is
    not the product of the primes of [2, 29]: that product, 6469693230, is
    above 2^32. *)
Lemma initialize_product_overflows :
  exists st,
    initialize 40 (mk_field_state [] 0 []) 2 29 = Some (initialized st) /\
    get_characteristic st = 2174725934 /\
    product_of (primes_between 2 29) = 6469693230 /\
    get_characteristic st <> product_of (primes_between 2 29).
Proof.
  eexists. split; [vm_compute; reflexivity|].
  split; [reflexivity|]. split; [vm_compute; reflexivity|].
  vm_compute. discriminate.
Qed.

(** Above [INT_MAX] the argument of [_is_prime] is read as a negative
    [int]: the prime 2147483659 is not recognised and the call throws. *)
Lemma initialize_rejects_prime_above_INT_MAX :
  Z.prime 2147483659 /\
  forall fuel st,
    exists what, initialize fuel st 2147483659 2147483659 =
      Some (invalid_argument what st).
Proof.
  split.
  - apply (_is_prime_correct (Z.to_nat 8000) 2147483659 true); [|reflexivity].
    vm_compute. reflexivity.
  - intros fuel st. eexists. unfold initialize. simpl.
    unfold _is_prime. simpl. reflexivity.
Qed.

(** With [maximum = UINT_MAX] the condition [i <= maximum] of the loop
    always holds: the call never returns, whatever the fuel. *)
Lemma collect_primes_UINT_MAX pfuel fuel i primes product :
  0 <= i <= UINT_MAX ->
  collect_primes pfuel fuel i UINT_MAX primes product = None.
Proof.
  unfold UINT_MAX.
  revert i primes product. induction fuel as [|fuel IH]; intros i primes product Hi;
    [done|].
  simpl. destruct (i <=? 4294967295) eqn:E; [|apply Z.leb_gt in E; lia].
  assert (0 <= wrap (i + 1) <= 4294967295) as Hw.
  { pose proof (Z.mod_pos_bound (i + 1) 4294967296 ltac:(lia)). unfold wrap. lia. }
  destruct (_is_prime pfuel (to_int i)) as [[|]|]; [by apply IH..|done].
Qed.

Lemma initialize_UINT_MAX_no_return fuel st minimum :
  0 <= minimum < UINT_MAX -> initialize fuel st minimum UINT_MAX = None.
Proof.
  intros Hmin. unfold initialize.
  change (UINT_MAX <? 2) with false. cbv iota.
  destruct (UINT_MAX <? minimum) eqn:E; [apply Z.ltb_lt in E; lia|].
  destruct (minimum =? UINT_MAX) eqn:E'; [apply Z.eqb_eq in E'; lia|].
  rewrite collect_primes_UINT_MAX by lia. reflexivity.
Qed.

End InitializeExamples.

Section FpColumnProperties.
Import FpColumn.

Variable p : Z.
Hypothesis p_gt_1 : 1 < p.

Variable combine : Z -> Z -> Z.
Variable scale : Z -> Z.
Hypothesis combine_range : forall a b, 0 <= combine a b < p.
Hypothesis scale_range : forall b, 0 < b < p -> 0 < scale b < p.

Lemma merge_nil_l t : merge combine scale [] t = t.
Proof. by destruct t. Qed.

Lemma merge_nil_r s :
  merge combine scale s [] = map (fun c => (c.1, scale c.2)) s.
Proof. by destruct s. Qed.

Lemma merge_cons cy s cx t :
  merge combine scale (cy :: s) (cx :: t) =
  if (cy.1 =? cx.1)%N then
    if combine cx.2 cy.2 =? 0 then merge combine scale s t
    else (cx.1, combine cx.2 cy.2) :: merge combine scale s t
  else if (cy.1 <? cx.1)%N then (cy.1, scale cy.2) :: merge combine scale s (cx :: t)
  else cx :: merge combine scale (cy :: s) t.
Proof. reflexivity. Qed.

Lemma wf_nil : wf p [].
Proof. split; constructor. Qed.

Lemma wf_cons_inv x c :
  wf p (x :: c) -> wf p c /\ 0 < x.2 < p /\ Forall (N.lt x.1) (map fst c).
Proof.
  intros [Hinc Hval]. simpl in Hinc.
  apply increasing_cons_inv in Hinc as [Hinc Hlow].
  apply Forall_cons in Hval as [Hx Hval].
  split; [by split|]. split; assumption.
Qed.

Lemma wf_cons x c :
  wf p c -> 0 < x.2 < p -> Forall (N.lt x.1) (map fst c) -> wf p (x :: c).
Proof.
  intros [Hinc Hval] Hx Hlow. split.
  - simpl. by apply increasing_cons.
  - by constructor.
Qed.

Lemma coef_cons x c r :
  coef (x :: c) r = if (x.1 =? r)%N then x.2 else coef c r.
Proof. reflexivity. Qed.

Lemma coef_above r c : Forall (N.lt r) (map fst c) -> coef c r = 0.
Proof.
  induction c as [|x c IH]; [done|]. simpl. intros Hlow.
  apply Forall_cons in Hlow as [Hx Hlow].
  destruct (x.1 =? r)%N eqn:E; [apply N.eqb_eq in E; lia|]. by apply IH.
Qed.

Lemma coef_range c r : wf p c -> 0 <= coef c r < p.
Proof using p_gt_1.
  induction c as [|x c IH]; intros Hwf; simpl; [lia|].
  apply wf_cons_inv in Hwf as (Hwf & Hx & _).
  destruct (x.1 =? r)%N; [lia|by apply IH].
Qed.

Lemma merge_rows_above b s t :
  Forall (N.lt b) (map fst s) -> Forall (N.lt b) (map fst t) ->
  Forall (N.lt b) (map fst (merge combine scale s t)).
Proof.
  revert t. induction s as [|cy s IHs]; intros t Hs Ht.
  - by rewrite merge_nil_l.
  - induction t as [|cx t IHt].
    + rewrite merge_nil_r, map_map. simpl. exact Hs.
    + rewrite merge_cons. simpl in Hs, Ht.
      apply Forall_cons in Hs as [Hy Hs]. apply Forall_cons in Ht as [Hx Ht].
      destruct (cy.1 =? cx.1)%N.
      * destruct (_ =? 0); [by apply IHs|]. simpl. constructor; [done|by apply IHs].
      * destruct (cy.1 <? cx.1)%N; simpl.
        -- constructor; [done|]. apply IHs; [done|]. simpl. by constructor.
        -- constructor; [done|]. by apply IHt.
Qed.

Lemma merge_wf s t : wf p s -> wf p t -> wf p (merge combine scale s t).
Proof using p_gt_1 combine_range scale_range.
  revert t. induction s as [|cy s IHs]; intros t Hs Ht.
  - by rewrite merge_nil_l.
  - induction t as [|cx t IHt].
    + rewrite merge_nil_r. destruct Hs as [Hinc Hval]. split.
      * by rewrite map_map.
      * apply Forall_map. eapply Forall_impl; [exact Hval|].
        intros x Hx. simpl. by apply scale_range.
    + rewrite merge_cons.
      destruct (wf_cons_inv _ _ Hs) as (Hs' & Hy & Hylow).
      destruct (wf_cons_inv _ _ Ht) as (Ht' & Hx & Hxlow).
      destruct (cy.1 =? cx.1)%N eqn:E.
      * apply N.eqb_eq in E.
        destruct (combine cx.2 cy.2 =? 0) eqn:Ev; [by apply IHs|].
        apply Z.eqb_neq in Ev. pose proof (combine_range cx.2 cy.2).
        apply wf_cons; [by apply IHs|simpl; lia|]. simpl.
        apply merge_rows_above; [by rewrite <- E|done].
      * apply N.eqb_neq in E. destruct (cy.1 <? cx.1)%N eqn:L.
        -- apply N.ltb_lt in L.
           apply wf_cons; [by apply IHs|simpl; by apply scale_range|]. simpl.
           apply merge_rows_above; [done|]. simpl.
           constructor; [done|]. by apply Forall_lt_trans with cx.1.
        -- apply N.ltb_ge in L. assert (cx.1 < cy.1)%N by lia.
           apply wf_cons; [by apply IHt|done|].
           apply merge_rows_above; [|done]. simpl.
           constructor; [done|]. by apply Forall_lt_trans with cy.1.
Qed.

Lemma coef_map_scale s r :
  wf p s ->
  coef (map (fun c => (c.1, scale c.2)) s) r = merged combine scale 0 (coef s r).
Proof.
  unfold merged. induction s as [|x s IH]; intros Hs; [done|].
  apply wf_cons_inv in Hs as (Hs & Hx & _). simpl.
  destruct (x.1 =? r)%N; [|by apply IH].
  destruct (x.2 =? 0) eqn:E; [apply Z.eqb_eq in E; lia|done].
Qed.

Lemma coef_merge s t r :
  wf p s -> wf p t ->
  coef (merge combine scale s t) r = merged combine scale (coef t r) (coef s r).
Proof.
  revert t. induction s as [|cy s IHs]; intros t Hs Ht.
  - rewrite merge_nil_l. reflexivity.
  - induction t as [|cx t IHt].
    + rewrite merge_nil_r. by apply coef_map_scale.
    + rewrite merge_cons.
      destruct (wf_cons_inv _ _ Hs) as (Hs' & Hy & Hylow).
      destruct (wf_cons_inv _ _ Ht) as (Ht' & Hx & Hxlow).
      destruct (cy.1 =? cx.1)%N eqn:E.
      * apply N.eqb_eq in E.
        destruct (cx.1 =? r)%N eqn:Er.
        -- apply N.eqb_eq in Er.
           assert (coef (merge combine scale s t) r = 0) as Hrest.
           { apply coef_above, merge_rows_above; [by rewrite <- Er, <- E|by rewrite <- Er]. }
           cbn [coef]. rewrite E, Er, N.eqb_refl. unfold merged.
           destruct (cy.2 =? 0) eqn:Ey; [apply Z.eqb_eq in Ey; lia|].
           destruct (cx.2 =? 0) eqn:Ex; [apply Z.eqb_eq in Ex; lia|].
           destruct (combine cx.2 cy.2 =? 0) eqn:Ev.
           ++ apply Z.eqb_eq in Ev. by rewrite Hrest.
           ++ cbn [coef fst snd]. by rewrite N.eqb_refl.
        -- transitivity (coef (merge combine scale s t) r).
           { destruct (_ =? 0); [done|]. cbn [coef fst snd]. by rewrite Er. }
           rewrite IHs by done. cbn [coef]. by rewrite E, Er.
      * apply N.eqb_neq in E. destruct (cy.1 <? cx.1)%N eqn:L.
        -- apply N.ltb_lt in L.
           rewrite (coef_cons (cy.1, scale cy.2)), (coef_cons cy). cbn [fst snd].
           destruct (cy.1 =? r)%N eqn:Er.
           ++ apply N.eqb_eq in Er.
              assert (coef (cx :: t) r = 0) as ->.
              { apply coef_above. simpl. constructor; [lia|].
                apply Forall_lt_trans with cx.1; [lia|done]. }
              unfold merged.
              destruct (cy.2 =? 0) eqn:Ey; [apply Z.eqb_eq in Ey; lia|done].
           ++ by rewrite IHs.
        -- apply N.ltb_ge in L. assert (cx.1 < cy.1)%N as L' by lia.
           rewrite (coef_cons cx (merge _ _ _ _)), (coef_cons cx t).
           destruct (cx.1 =? r)%N eqn:Er.
           ++ apply N.eqb_eq in Er.
              assert (coef (cy :: s) r = 0) as ->.
              { apply coef_above. simpl. constructor; [lia|].
                apply Forall_lt_trans with cy.1; [lia|done]. }
              reflexivity.
           ++ by rewrite IHt.
Qed.

(** A well-formed column is determined by its coefficients. *)
Lemma coef_ext c1 c2 :
  wf p c1 -> wf p c2 -> (forall r, coef c1 r = coef c2 r) -> c1 = c2.
Proof.
  revert c2. induction c1 as [|x c1 IH]; intros [|y c2] H1 H2 Hext.
  - done.
  - exfalso. apply wf_cons_inv in H2 as (_ & Hy & _).
    specialize (Hext y.1). simpl in Hext. rewrite N.eqb_refl in Hext. lia.
  - exfalso. apply wf_cons_inv in H1 as (_ & Hx & _).
    specialize (Hext x.1). simpl in Hext. rewrite N.eqb_refl in Hext. lia.
  - destruct (wf_cons_inv _ _ H1) as (H1' & Hx & Hxlow).
    destruct (wf_cons_inv _ _ H2) as (H2' & Hy & Hylow).
    assert (x.1 = y.1) as Hrow.
    { pose proof (Hext x.1) as Ex. pose proof (Hext y.1) as Ey.
      simpl in Ex, Ey. rewrite N.eqb_refl in Ex, Ey.
      destruct (y.1 =? x.1)%N eqn:E; [by apply N.eqb_eq in E|].
      apply N.eqb_neq in E.
      destruct (x.1 =? y.1)%N eqn:E'; [by apply N.eqb_eq in E'|].
      destruct (N.lt_total x.1 y.1) as [L|[L|L]]; [|done|].
      + rewrite (coef_above x.1 c2) in Ex; [lia|].
        by apply Forall_lt_trans with y.1.
      + rewrite (coef_above y.1 c1) in Ey; [lia|].
        by apply Forall_lt_trans with x.1. }
    assert (x.2 = y.2) as Hval.
    { specialize (Hext x.1). simpl in Hext.
      by rewrite N.eqb_refl, <- Hrow, N.eqb_refl in Hext. }
    assert (x = y) as -> by (destruct x, y; simpl in *; congruence).
    f_equal. apply IH; [done..|]. intros r. specialize (Hext r). simpl in Hext.
    destruct (y.1 =? r)%N eqn:E; [|done]. apply N.eqb_eq in E. subst r.
    by rewrite !coef_above.
Qed.

End FpColumnProperties.

Section FpColumnUndo.
Import FpColumn.

Lemma sub_add_assign p t s :
  1 < p -> wf p t -> wf p s -> sub_assign p (add_assign p t s) s = t.
Proof.
  intros Hp Ht Hs.
  assert (wf p (add_assign p t s)) as Hadd.
  { apply merge_wf; [done| |intros; lia|done..].
    intros a b. apply Z.mod_pos_bound. lia. }
  assert (forall a b, 0 <= (a - b) mod p < p) as Hsub.
  { intros a b. apply Z.mod_pos_bound. lia. }
  assert (forall b, 0 < b < p -> 0 < - b mod p < p) as Hneg.
  { intros b Hb. rewrite (mod_shift p 1) by lia. lia. }
  apply (coef_ext p); [by apply merge_wf|done|].
  intros r. unfold sub_assign.
  rewrite (coef_merge p) by done.
  unfold add_assign. rewrite (coef_merge p) by done.
  pose proof (coef_range p Hp t r Ht) as Ha.
  pose proof (coef_range p Hp s r Hs) as Hb.
  generalize dependent (coef t r). generalize dependent (coef s r).
  intros b Hb a Ha. unfold merged.
  destruct (b =? 0) eqn:Eb; [done|]. apply Z.eqb_neq in Eb.
  destruct (a =? 0) eqn:Ea.
  - apply Z.eqb_eq in Ea. subst a.
    destruct (b =? 0) eqn:Eb'; [apply Z.eqb_eq in Eb'; lia|].
    rewrite Z.sub_diag. apply Z.mod_0_l. lia.
  - apply Z.eqb_neq in Ea.
    destruct ((a + b) mod p =? 0) eqn:Es.
    + apply Z.eqb_eq in Es.
      destruct (Z_lt_le_dec (a + b) p) as [L|L].
      * rewrite (mod_shift p 0) in Es by lia. lia.
      * rewrite (mod_shift p (-1)) in Es by lia.
        rewrite (mod_shift p 1) by lia. lia.
    + destruct (Z_lt_le_dec (a + b) p) as [L|L].
      * rewrite (mod_shift p 0 (a + b)) by lia.
        rewrite (mod_shift p 0) by lia. lia.
      * rewrite (mod_shift p (-1) (a + b)) by lia.
        rewrite (mod_shift p 1) by lia. lia.
Qed.

End FpColumnUndo.

Section AdditionUndone.

(** C8. Over Z2, [target += source] executed twice, the source left as it
    is, gives back the target, cell for cell; over Z/pZ ([p] any modulus
    above 1, a prime in particular), [target -= source] after
    [target += source] gives back the target. Columns are sorted by
    strictly increasing row index, as the invariant of a column has it, and
    hold no zero value. *)
Theorem addition_is_undone
    (target : Z2Vec.Z2_vector_column) (source : list index)
    (p : Z) (t s : FpColumn.column) :
  increasing (Z2Vec.column_ target) -> increasing source ->
  1 < p -> FpColumn.wf p t -> FpColumn.wf p s ->
  Z2Vec.add_assign (Z2Vec.add_assign target source) source = target /\
  FpColumn.sub_assign p (FpColumn.add_assign p t s) s = t.
Proof.
  intros Ht Hs Hp Hwt Hws. split.
  - by apply add_assign_twice.
  - by apply sub_add_assign.
Qed.

Lemma addition_is_undone_witness :
  let target := Z2Vec.mk_column 1 [0; 2; 5]%N in
  let source := [2; 3]%N in
  let t := [(0%N, 1); (2%N, 4)] in
  let s := [(2%N, 1); (3%N, 3)] in
  Z2Vec.add_assign (Z2Vec.add_assign target source) source = target /\
  FpColumn.sub_assign 5 (FpColumn.add_assign 5 t s) s = t.
Proof.
  apply addition_is_undone; unfold FpColumn.wf; simpl;
    repeat (constructor; try (simpl; lia)).
Defined.

End AdditionUndone.

Section ChainColumnInvariant.
Import ChainSet.

Context {Column F : Type} `{Set_column_base Column F}.

Implicit Types m : chain_matrix Column.
Implicit Types a : addition F.

(** What [swap_pivots] leaves behind, column by column: the [pivot_] fields
    of the two operands are exchanged, or nothing moves. *)
Lemma swap_pivots_columns m t s ct cs :
  t <> s -> columns m !! t = Some ct -> columns m !! s = Some cs ->
  (forall i c', columns (state_of (swap_pivots m t s ct cs)) !! i = Some c' ->
     exists c, columns m !! i = Some c /\ get_pivot c' = get_pivot c) \/
  (forall i c', columns (state_of (swap_pivots m t s ct cs)) !! i = Some c' ->
     (i = t /\ get_pivot c' = get_pivot cs) \/
     (i = s /\ get_pivot c' = get_pivot ct) \/
     (i <> t /\ i <> s /\ exists c, columns m !! i = Some c /\ get_pivot c' = get_pivot c)).
Proof.
  intros Hts Ht Hs. unfold swap_pivots.
  destruct (base_is_non_zero _ _); [left; simpl; eauto|].
  destruct (pivotToColumnIndex m !! pivot_ ct) as [at_t|]; [|left; simpl; eauto].
  destruct (pivotToColumnIndex m !! get_pivot cs) as [at_s|]; [|left; simpl; eauto].
  right. simpl. intros i c' Hi.
  destruct (decide (i = s)) as [->|His].
  { rewrite lookup_insert_eq in Hi. injection Hi as <-. right. left. done. }
  rewrite lookup_insert_ne in Hi by done.
  destruct (decide (i = t)) as [->|Hit].
  { rewrite lookup_insert_eq in Hi. injection Hi as <-. left. done. }
  rewrite lookup_insert_ne in Hi by done.
  right. right. eauto.
Qed.

Lemma swap_pivots_unique m t s ct cs :
  t <> s -> columns m !! t = Some ct -> columns m !! s = Some cs ->
  unique_pivots m -> unique_pivots (state_of (swap_pivots m t s ct cs)).
Proof.
  intros Hts Ht Hs Huniq.
  destruct (swap_pivots_columns m t s ct cs Hts Ht Hs) as [Hsame|Hswap].
  - intros i j ci cj Hi Hj Hp.
    destruct (Hsame _ _ Hi) as (ci' & Hi' & Hpi).
    destruct (Hsame _ _ Hj) as (cj' & Hj' & Hpj).
    apply (Huniq i j ci' cj'); congruence.
  - intros i j ci cj Hi Hj Hp.
    destruct (Hswap _ _ Hi) as [[-> Hpi]|[[-> Hpi]|(Hit & His & ci' & Hi' & Hpi)]];
    destruct (Hswap _ _ Hj) as [[-> Hpj]|[[-> Hpj]|(Hjt & Hjs & cj' & Hj' & Hpj)]];
      try done.
    + symmetry. apply (Huniq s t cs ct); congruence.
    + exfalso. apply Hjs. apply (Huniq j s cj' cs); congruence.
    + apply (Huniq s t cs ct); congruence.
    + exfalso. apply Hjt. apply (Huniq j t cj' ct); congruence.
    + exfalso. apply His. apply (Huniq i s ci' cs); congruence.
    + exfalso. apply Hit. apply (Huniq i t ci' ct); congruence.
    + apply (Huniq i j ci' cj'); congruence.
Qed.

Lemma swap_pivots_consistent m t s ct cs :
  t <> s -> columns m !! t = Some ct -> columns m !! s = Some cs ->
  dictionary_consistent m ->
  dictionary_consistent (state_of (swap_pivots m t s ct cs)) /\
  has_thrown (swap_pivots m t s ct cs) = false.
Proof.
  intros Hts Ht Hs Hcons. unfold swap_pivots.
  destruct (base_is_non_zero _ _); [done|].
  pose proof (Hcons _ _ Ht) as Hdt. pose proof (Hcons _ _ Hs) as Hds.
  unfold get_pivot in Hdt. rewrite Hdt, Hds. simpl. split; [|done].
  assert (pivot_ ct <> get_pivot cs) as Hne.
  { intros Heq. rewrite Heq in Hdt. congruence. }
  intros i c' Hi. simpl in *.
  destruct (decide (i = s)) as [->|His].
  { rewrite lookup_insert_eq in Hi. injection Hi as <-. simpl.
    rewrite lookup_insert_ne by done. by rewrite lookup_insert_eq. }
  rewrite lookup_insert_ne in Hi by done.
  destruct (decide (i = t)) as [->|Hit].
  { rewrite lookup_insert_eq in Hi. injection Hi as <-. simpl.
    by rewrite lookup_insert_eq. }
  rewrite lookup_insert_ne in Hi by done.
  pose proof (Hcons _ _ Hi) as Hdi.
  rewrite !lookup_insert_ne; [done|..].
  - intros Heq. unfold get_pivot in *. rewrite <- Heq in Hdi. congruence.
  - intros Heq. unfold get_pivot in *. rewrite <- Heq in Hdi. congruence.
Qed.

(** The call of the base class changes no [pivot_]. *)
Lemma set_base_unique m t ct b :
  columns m !! t = Some ct -> unique_pivots m ->
  unique_pivots {| columns := <[t := set_base ct b]> (columns m);
                   pivotToColumnIndex := pivotToColumnIndex m |}.
Proof.
  intros Ht Huniq i j ci cj. simpl. intros Hi Hj Hp.
  assert (forall k c', <[t := set_base ct b]> (columns m) !! k = Some c' ->
            exists c, columns m !! k = Some c /\ get_pivot c' = get_pivot c) as Hold.
  { intros k c' Hk. destruct (decide (k = t)) as [->|Hkt].
    - rewrite lookup_insert_eq in Hk. injection Hk as <-. eauto.
    - rewrite lookup_insert_ne in Hk by done. eauto. }
  destruct (Hold _ _ Hi) as (ci' & Hi' & Hpi).
  destruct (Hold _ _ Hj) as (cj' & Hj' & Hpj).
  apply (Huniq i j ci' cj'); congruence.
Qed.

Lemma set_base_consistent m t ct b :
  columns m !! t = Some ct -> dictionary_consistent m ->
  dictionary_consistent {| columns := <[t := set_base ct b]> (columns m);
                           pivotToColumnIndex := pivotToColumnIndex m |}.
Proof.
  intros Ht Hcons i c'. simpl. intros Hi.
  destruct (decide (i = t)) as [->|Hit].
  - rewrite lookup_insert_eq in Hi. injection Hi as <-. by apply (Hcons t ct).
  - rewrite lookup_insert_ne in Hi by done. by apply Hcons.
Qed.

Lemma add_columns_returns a m :
  between_live_columns m a -> exists r, add_columns a m = Some r.
Proof.
  intros ([ct Ht] & [cs Hs] & Hne). unfold add_columns.
  rewrite Ht, Hs. destruct (decide _); [done|]. eauto.
Qed.

Lemma add_columns_invariants a m r :
  add_columns a m = Some r ->
  (unique_pivots m -> unique_pivots (state_of r)) /\
  (dictionary_consistent m ->
     dictionary_consistent (state_of r) /\ has_thrown r = false) /\
  (forall i, is_Some (columns (state_of r) !! i) <-> is_Some (columns m !! i)).
Proof.
  unfold add_columns.
  destruct (columns m !! target_of a) as [ct|] eqn:Ht; [|done].
  destruct (columns m !! source_of a) as [cs|] eqn:Hs; [|done].
  destruct (decide _) as [|Hne]; [done|]. intros [= <-].
  set (ct' := set_base ct _).
  set (m' := {| columns := <[target_of a := ct']> (columns m);
                pivotToColumnIndex := pivotToColumnIndex m |}).
  assert (columns m' !! target_of a = Some ct') as Ht'
    by (simpl; apply lookup_insert_eq).
  assert (columns m' !! source_of a = Some cs) as Hs'
    by (simpl; by rewrite lookup_insert_ne).
  split; [|split].
  - intros Huniq. apply swap_pivots_unique; [done..|].
    by apply set_base_unique.
  - intros Hcons. apply swap_pivots_consistent; [done..|].
    by apply set_base_consistent.
  - intros i. transitivity (is_Some (columns m' !! i)).
    + unfold swap_pivots.
      destruct (base_is_non_zero _ _); [done|].
      destruct (pivotToColumnIndex m' !! pivot_ ct') as [at_t|]; [|done].
      destruct (pivotToColumnIndex m' !! get_pivot cs) as [at_s|]; [|done].
      cbn [state_of columns].
      rewrite !lookup_insert_is_Some'. split; [|tauto].
      intros [<-|[<-|?]]; [by exists cs|by exists ct'|done].
    + simpl. rewrite lookup_insert_is_Some'. split; [|tauto].
      intros [<-|?]; [by exists ct|done].
Qed.

Lemma add_sequence_invariants (l : list (addition F)) m :
  Forall (between_live_columns m) l ->
  exists r, add_sequence l m = Some r /\
    (unique_pivots m -> unique_pivots (state_of r)) /\
    (dictionary_consistent m ->
       dictionary_consistent (state_of r) /\ has_thrown r = false).
Proof.
  revert m. induction l as [|a l IH]; intros m Hl.
  - exists (returned m). simpl. by repeat split.
  - apply Forall_cons in Hl as [Ha Hl].
    destruct (add_columns_returns a m Ha) as [r Hr].
    destruct (add_columns_invariants a m r Hr) as (Huniq & Hcons & Hlive).
    simpl. rewrite Hr. destruct r as [m'|m'].
    + destruct (IH m') as (r' & Hr' & Huniq' & Hcons').
      { eapply Forall_impl; [exact Hl|]. intros b (Hbt & Hbs & Hne).
        repeat split; [by apply Hlive..|done]. }
      exists r'. split; [done|]. split; [tauto|].
      intros Hc. destruct (Hcons Hc) as [Hc' _]. by apply Hcons'.
    + exists (out_of_range m'). split; [done|]. split; [done|].
      intros Hc. by destruct (Hcons Hc).
Qed.

End ChainColumnInvariant.

Section ChainColumnClaims.
Import ChainSet.

(** C1. In a matrix of chain columns sharing one pivot-to-column
    dictionary, after any finite sequence of additions ([operator+=] or
    [multiply_and_add]) between two live chain columns, no two distinct live
    columns report the same pivot, given that none did before; and when the
    dictionary sends the pivot of every live column to that column, it
    still does afterwards and no lookup in it has thrown. *)
Theorem pivot_uniqueness_preserved {Column F : Type} `{Set_column_base Column F}
    (m : chain_matrix Column) (l : list (addition F)) :
  unique_pivots m -> Forall (between_live_columns m) l ->
  exists r, add_sequence l m = Some r /\
    unique_pivots (state_of r) /\
    (dictionary_consistent m ->
       dictionary_consistent (state_of r) /\ has_thrown r = false).
Proof.
  intros Huniq Hl.
  destruct (add_sequence_invariants l m Hl) as (r & Hr & Hu & Hc).
  exists r. split; [done|]. split; [by apply Hu|done].
Qed.

End ChainColumnClaims.

Section ChainColumnExample.
Import ChainSet.

(** Two chain columns over Z2, {0, 1} of pivot 1 and {1, 2} of pivot 2:
    adding the second to the first removes row 1, the pivots are swapped;
    the first is then added to the second. *)
Lemma pivot_uniqueness_preserved_witness :
  let m := {| columns :=
                <[0%nat := mk_chain [0; 1]%N 1 (-1)]>
                  (<[1%nat := mk_chain [1; 2]%N 2 (-1)]> ∅);
              pivotToColumnIndex := <[1 := 0%nat]> (<[2 := 1%nat]> ∅) |} in
  let l := [plus_assign 0 1; multiply_source_and_add 1 0 3%N] in
  exists r, add_sequence l m = Some r /\
    unique_pivots (state_of r) /\
    (dictionary_consistent m ->
       dictionary_consistent (state_of r) /\ has_thrown r = false).
Proof.
  intros m l. apply (pivot_uniqueness_preserved m l).
  - intros i j ci cj Hi Hj. simpl in Hi, Hj.
    apply lookup_insert_Some in Hi as [[<- <-]|[_ Hi]];
      [|apply lookup_insert_Some in Hi as [[<- <-]|[_ Hi]];
         [|by rewrite lookup_empty in Hi]];
    (apply lookup_insert_Some in Hj as [[<- <-]|[_ Hj]];
      [|apply lookup_insert_Some in Hj as [[<- <-]|[_ Hj]];
         [|by rewrite lookup_empty in Hj]]);
    simpl; intros Hp; (reflexivity || discriminate Hp).
  - repeat constructor; simpl; (by eexists) || lia.
Defined.

Example pivots_swapped :
  let m := {| columns :=
                <[0%nat := mk_chain [0; 1]%N 1 (-1)]>
                  (<[1%nat := mk_chain [1; 2]%N 2 (-1)]> ∅);
              pivotToColumnIndex := <[1 := 0%nat]> (<[2 := 1%nat]> ∅) |} in
  exists m', add_columns (plus_assign 0 1) m = Some (returned m') /\
    get_pivot <$> columns m' !! 0%nat = Some 2 /\
    get_pivot <$> columns m' !! 1%nat = Some 1 /\
    pivotToColumnIndex m' !! 2 = Some 0%nat /\
    pivotToColumnIndex m' !! 1 = Some 1%nat.
Proof. eexists. split; [reflexivity|]. by vm_compute. Qed.

End ChainColumnExample.

Section Dictionaries.
Import BoundaryMatrix.

Implicit Types d : gmap index index.

Lemma seqN_nil first : seqN first 0 = [].
Proof. reflexivity. Qed.

Lemma seqN_succ first len :
  seqN first (N.succ len) = first :: seqN (N.succ first) len.
Proof.
  unfold seqN. rewrite !N2Nat.inj_succ. simpl. by rewrite N2Nat.id.
Qed.

Lemma elem_of_seqN first len k :
  k ∈ seqN first len <-> (first <= k < first + len)%N.
Proof.
  unfold seqN. rewrite list_elem_of_fmap. split.
  - intros (i & -> & Hi). apply elem_of_seq in Hi. lia.
  - intros Hk. exists (N.to_nat k). split; [by rewrite N2Nat.id|].
    apply elem_of_seq. lia.
Qed.

Lemma size_of_prefix_map {A} (m : gmap index A) (n : index) :
  (forall k, is_Some (m !! k) <-> (k < n)%N) -> N.of_nat (size m) = n.
Proof.
  intros Hkeys. rewrite <- size_dom.
  assert (dom m = list_to_set (seqN 0 n)) as ->.
  { apply set_eq. intros k.
    rewrite elem_of_dom, elem_of_list_to_set, elem_of_seqN, Hkeys. lia. }
  rewrite size_list_to_set.
  - unfold seqN. rewrite length_fmap, length_seq. lia.
  - unfold seqN. apply NoDup_fmap; [|apply NoDup_seq].
    intros x y Hxy. lia.
Qed.

Lemma dictionary_size_dom d d' :
  dom d = dom d' -> dictionary_size d = dictionary_size d'.
Proof.
  intros Hdom. unfold dictionary_size. by rewrite <- !size_dom, Hdom.
Qed.

Lemma lookup_identity_on d k : identity_on d !! k = (fun _ => k) <$> d !! k.
Proof. unfold identity_on. rewrite map_lookup_imap. by destruct (d !! k). Qed.

Lemma dom_identity_on d : dom (identity_on d) = dom d.
Proof.
  apply set_eq. intros k. rewrite !elem_of_dom, lookup_identity_on.
  by rewrite fmap_is_Some.
Qed.

Lemma dom_insert_present {A} (d : gmap index A) k v :
  is_Some (d !! k) -> dom (<[k := v]> d) = dom d.
Proof.
  intros Hk. rewrite dom_insert_L. apply elem_of_dom in Hk.
  apply set_eq. intros x. rewrite elem_of_union, elem_of_singleton.
  split; [intros [->|?]; done|by right].
Qed.

Lemma prefix_keys_empty : prefix_keys ∅.
Proof.
  intros k. rewrite lookup_empty. unfold dictionary_size.
  rewrite map_size_empty. split; [by intros []|lia].
Qed.

Lemma prefix_keys_dom d d' : dom d = dom d' -> prefix_keys d -> prefix_keys d'.
Proof.
  intros Hdom Hd k. rewrite <- (dictionary_size_dom d d' Hdom).
  rewrite <- (Hd k). by rewrite <- !elem_of_dom, Hdom.
Qed.

Lemma push_back_size v d :
  prefix_keys d -> dictionary_size (push_back v d) = N.succ (dictionary_size d).
Proof.
  intros Hd. unfold push_back, dictionary_size at 1.
  rewrite map_size_insert_None.
  - unfold dictionary_size. lia.
  - destruct (d !! dictionary_size d) eqn:E; [|done].
    assert (dictionary_size d < dictionary_size d)%N; [|lia].
    apply Hd. by rewrite E.
Qed.

Lemma push_back_prefix v d : prefix_keys d -> prefix_keys (push_back v d).
Proof.
  intros Hd k. rewrite push_back_size by done. unfold push_back.
  rewrite lookup_insert_is_Some', (Hd k). lia.
Qed.

Lemma extend_dictionaries_prefix faceIndex (d : gmap index index * gmap index index) :
  prefix_keys d.1 ->
  prefix_keys (extend_dictionaries faceIndex d).1 /\
  (faceIndex < dictionary_size (extend_dictionaries faceIndex d).1)%N.
Proof.
  unfold extend_dictionaries.
  remember (N.succ faceIndex - dictionary_size d.1)%N as len eqn:Hlen.
  assert (dictionary_size d.1 + len = N.max (dictionary_size d.1) (N.succ faceIndex))%N
    as Hend by lia.
  clear Hlen. revert d Hend. induction len as [|len IH] using N.peano_ind;
    intros d Hend Hd.
  - rewrite seqN_nil. simpl. split; [done|lia].
  - rewrite seqN_succ. simpl.
    set (d' := (push_back (dictionary_size d.1) d.1,
                push_back (dictionary_size d.1) d.2)).
    assert (dictionary_size d'.1 = N.succ (dictionary_size d.1)) as Hsize
      by (by apply push_back_size).
    rewrite <- Hsize. apply IH.
    + rewrite Hsize. lia.
    + by apply push_back_prefix.
Qed.

End Dictionaries.

Section BoundaryMatrixContainers.
Import BoundaryMatrix.

Context {Dimension_option Pairing_option : Type}.
Variable update_up : Z -> Dimension_option -> Dimension_option.
Variable update_down : Z -> Dimension_option -> Dimension_option.
Variable pairing_remove_last : index -> Pairing_option -> Pairing_option.
Variable opts : Options.

Local Abbreviation matrix := (@Boundary_matrix Dimension_option Pairing_option).
Local Abbreviation wf := (@container_wf Dimension_option Pairing_option opts).
Local Abbreviation serve_request :=
  (serve update_up update_down pairing_remove_last opts).

Implicit Types s : matrix.

Lemma column_at_map_columns f c i :
  column_at (map_columns f c) i = f <$> column_at c i.
Proof. destruct c; simpl; [apply list_lookup_fmap|apply lookup_fmap]. Qed.

Lemma column_at_set_column c i col j :
  is_Some (column_at c i) ->
  column_at (set_column c i col) j =
  if decide (i = j) then Some col else column_at c j.
Proof.
  intros Hi. destruct c as [v|m]; simpl in *.
  - destruct (decide (i = j)) as [->|Hne].
    + apply list_lookup_insert_eq. by apply lookup_lt_is_Some.
    + apply list_lookup_insert_ne. lia.
  - apply lookup_insert.
Qed.

Lemma wf_same_containers s s' :
  nextInsertIndex_ s' = nextInsertIndex_ s ->
  dom (indexToRow_ s') = dom (indexToRow_ s) ->
  match matrix_ s, matrix_ s' with
  | vector_of v, vector_of v' => length v' = length v
  | map_of m, map_of m' => dom m' = dom m
  | _, _ => False
  end ->
  wf s -> wf s'.
Proof.
  unfold container_wf. intros Hn Hdom Hm.
  destruct (matrix_ s) as [v|m], (matrix_ s') as [v'|m']; try done.
  - rewrite Hm, Hn. intros (Hlen & Hra & Hpre). split; [done|]. split; [done|].
    by apply (prefix_keys_dom (indexToRow_ s)).
  - rewrite Hn. intros Hkeys k Hk. apply Hkeys.
    by rewrite <- elem_of_dom, <- Hm, elem_of_dom.
Qed.

Lemma wf_orderRows s : wf s -> wf (_orderRows s).
Proof.
  apply wf_same_containers; [done|apply dom_identity_on|].
  simpl. destruct (matrix_ s); simpl; [by rewrite length_fmap|by rewrite dom_fmap_L].
Qed.

Lemma wf_order_rows_if_swapped s : wf s -> wf (order_rows_if_swapped opts s).
Proof.
  unfold order_rows_if_swapped. destruct (_ && _); [apply wf_orderRows|done].
Qed.

Lemma wf_set_column s i col :
  is_Some (column_at (matrix_ s) i) ->
  wf s -> wf (with_matrix s (set_column (matrix_ s) i col)).
Proof.
  intros Hi. apply wf_same_containers; [done..|]. simpl.
  destruct (matrix_ s) as [v|m]; simpl in *.
  - by rewrite length_insert.
  - by apply dom_insert_present.
Qed.

Lemma wf_empty dim0 pair0 with_map : wf (empty_matrix dim0 pair0 with_map).
Proof.
  unfold container_wf. destruct with_map; simpl.
  - intros k. rewrite lookup_empty. by intros [].
  - split; [lia|]. split; [done|]. apply prefix_keys_empty.
Qed.

Lemma wf_insert_boundary boundary dim s s' i :
  wf s -> insert_boundary update_up opts boundary dim s = Some (s', i) -> wf s'.
Proof.
  intros Hs. unfold insert_boundary, insert_boundary_at.
  pose proof (wf_order_rows_if_swapped s Hs) as Hs0.
  replace (nextInsertIndex_ s) with (nextInsertIndex_ (order_rows_if_swapped opts s))
    by (unfold order_rows_if_swapped; by destruct (_ && _)).
  generalize dependent (order_rows_if_swapped opts s). clear s Hs. intros s Hs.
  destruct (negb (insertable opts boundary)); [done|].
  unfold container_wf in *.
  destruct (matrix_ s) as [v|m] eqn:Hm.
  - destruct Hs as (Hlen & Hra & Hpre).
    set (dictionaries := if activeSwapOption opts then _ else _).
    assert (prefix_keys dictionaries.1) as Hpre'.
    { unfold dictionaries. destruct (activeSwapOption opts); [|exact Hpre].
      by apply extend_dictionaries_prefix. }
    destruct (has_row_access opts) eqn:Hopt.
    + intros [= <- <-]. simpl. rewrite length_app. simpl.
      specialize (Hra eq_refl). split; [lia|]. split; [lia|]. apply Hpre'.
    + destruct (N.of_nat (length v) <=? nextInsertIndex_ s)%N eqn:E.
      * apply N.leb_le in E. intros [= <- <-]. simpl. rewrite length_app. simpl.
        split; [lia|]. split; [done|]. apply Hpre'.
      * apply N.leb_gt in E. intros [= <- <-]. simpl. rewrite length_insert.
        split; [lia|]. split; [done|]. apply Hpre'.
  - intros [= <- <-]. simpl. intros k Hk. unfold emplace in Hk.
    destruct (m !! nextInsertIndex_ s) eqn:E.
    + specialize (Hs k Hk). lia.
    + apply lookup_insert_is_Some' in Hk as [<-|Hk]; [lia|].
      specialize (Hs k Hk). lia.
Qed.

Lemma wf_erase_row rowIndex s s' :
  wf s -> erase_row opts rowIndex s = Some s' -> wf s'.
Proof.
  unfold erase_row. destruct (activeSwapOption opts); [|by intros ? [= <-]].
  unfold container_wf. destruct (matrix_ s) as [v|m] eqn:Hm.
  - destruct (indexToRow_ s !! rowIndex); [|done]. simpl. intros ? [= <-].
    by rewrite Hm.
  - destruct (indexToRow_ s !! rowIndex); [|done]. simpl. intros ? [= <-].
    simpl. by rewrite ?Hm.
Qed.

Lemma wf_remove_last s s' p :
  wf s -> remove_last update_down pairing_remove_last opts s = Some (s', p) -> wf s'.
Proof.
  intros Hs. unfold remove_last.
  destruct (nextInsertIndex_ s =? 0)%N eqn:E0; [by intros [= <- <-]|].
  apply N.eqb_neq in E0.
  destruct (column_at (matrix_ s) (N.pred (nextInsertIndex_ s))) as [removed|];
    [|done].
  simpl.
  match goal with
  | |- context [if ?c then _orderRows ?a else ?b] =>
      set (s2 := if c then _orderRows a else b)
  end.
  destruct (column_at (matrix_ s2) (N.pred (nextInsertIndex_ s))) as [removed'|];
    [|done].
  simpl.
  assert (nextInsertIndex_ s2 = N.pred (nextInsertIndex_ s)) as Hn2
    by (unfold s2; by destruct (_ && _)).
  assert (match matrix_ s2 with
          | vector_of v =>
              (nextInsertIndex_ s <= N.of_nat (length v))%N /\
              (has_row_access opts = true ->
               N.of_nat (length v) = nextInsertIndex_ s) /\
              prefix_keys (indexToRow_ s2)
          | map_of m => forall k, is_Some (m !! k) -> (k < nextInsertIndex_ s)%N
          end) as Hs2.
  { unfold s2. destruct (_ && _); simpl.
    - unfold container_wf in Hs. destruct (matrix_ s) as [v|m]; simpl.
      + rewrite length_fmap. destruct Hs as (? & ? & Hpre).
        split; [done|]. split; [done|].
        by apply (prefix_keys_dom (indexToRow_ s)); [rewrite dom_identity_on|].
      + intros k Hk. apply Hs. by rewrite lookup_fmap, fmap_is_Some in Hk.
    - exact Hs. }
  destruct (matrix_ s2) as [v|m] eqn:Hm2.
  - destruct Hs2 as (Hlen & Hra & Hpre).
    destruct (has_row_access opts) eqn:Hopt.
    + destruct (N.succ (N.pred (nextInsertIndex_ s)) =? N.of_nat (length v))%N eqn:E;
        [|done].
      simpl. destruct (erase_row _ _ _) as [s3|] eqn:He; [|done].
      simpl. intros [= <- <-]. apply wf_erase_row in He; [exact He|].
      unfold container_wf. simpl. rewrite length_take, Hn2.
      split; [lia|]. split; [lia|]. apply Hpre.
    + simpl. destruct (erase_row _ _ _) as [s3|] eqn:He; [|done].
      simpl. intros [= <- <-]. apply wf_erase_row in He; [exact He|].
      unfold container_wf. simpl. rewrite length_insert, Hn2.
      split; [lia|]. split; [congruence|]. apply Hpre.
  - simpl. destruct (erase_row _ _ _) as [s3|] eqn:He; [|done].
    simpl. intros [= <- <-]. apply wf_erase_row in He; [exact He|].
    unfold container_wf. simpl. rewrite Hn2. intros k Hk.
    apply lookup_delete_is_Some in Hk as [Hne Hk]. specialize (Hs2 k Hk). lia.
Qed.

Lemma wf_swap_rows i j s s' : wf s -> swap_rows i j s = Some s' -> wf s'.
Proof.
  intros Hs. unfold swap_rows.
  destruct (indexToRow_ s !! i) as [r1|] eqn:E1; simpl; [|done].
  destruct (indexToRow_ s !! j) as [r2|] eqn:E2; simpl; [|done].
  destruct (rowToIndex_ s !! r1) as [i1|]; simpl; [|done].
  destruct (rowToIndex_ s !! r2) as [i2|]; simpl; [|done].
  intros [= <-]. revert Hs. apply wf_same_containers; simpl; [done| |].
  - rewrite dom_insert_present.
    + apply dom_insert_present. by rewrite E1.
    + rewrite lookup_insert_is_Some'. right. by rewrite E2.
  - by destruct (matrix_ s).
Qed.

Lemma wf_serve r s s' o : wf s -> serve_request r s = Some (s', o) -> wf s'.
Proof.
  intros Hs. destruct r; simpl.
  - destruct (insert_boundary _ _ _ _ _) as [[s1 i]|] eqn:E; [|done].
    simpl. intros [= <- <-]. by eapply wf_insert_boundary.
  - destruct (activeSwapOption opts); [|done].
    destruct (swap_rows _ _ _) as [s1|] eqn:E; [|done].
    simpl. intros [= <- <-]. by eapply wf_swap_rows.
  - unfold add_to.
    destruct (column_at (matrix_ s) targetColumnIndex) as [t|] eqn:Et; simpl; [|done].
    destruct (column_at (matrix_ s) sourceColumnIndex) as [c|]; simpl; [|done].
    intros [= <- <-]. apply wf_set_column; [by rewrite Et|done].
  - destruct (remove_last _ _ _ _) as [[s1 p]|] eqn:E; [|done].
    simpl. intros [= <- <-]. by eapply wf_remove_last.
  - unfold get_column.
    destruct (column_at _ _); [|done]. simpl. intros [= <- <-].
    by apply wf_order_rows_if_swapped.
  - unfold get_row. destruct (has_row_access opts); [|done].
    simpl. intros [= <- <-]. by apply wf_order_rows_if_swapped.
  - unfold get_pivot.
    destruct (column_at _ _); [|done]. simpl. intros [= <- <-].
    by apply wf_order_rows_if_swapped.
  - destruct (is_zero_cell _ _ _ _); [|done]. simpl. by intros [= <- <-].
Qed.

Lemma reachable_wf s :
  reachable update_up update_down pairing_remove_last opts s -> wf s.
Proof.
  induction 1 as [dim0 pair0 with_map|r s s' o _ IH Hserve|c s s' _ IH Hzero].
  - apply wf_empty.
  - by eapply wf_serve.
  - unfold zero_column in Hzero.
    destruct (column_at (matrix_ s) c) as [col|] eqn:E; [|done].
    simpl in Hzero. injection Hzero as <-.
    apply wf_set_column; [by rewrite E|done].
Qed.

End BoundaryMatrixContainers.

Section InsertThenRemove.
Import BoundaryMatrix.

Context {Dimension_option Pairing_option : Type}.
Variable update_up : Z -> Dimension_option -> Dimension_option.
Variable update_down : Z -> Dimension_option -> Dimension_option.
Variable pairing_remove_last : index -> Pairing_option -> Pairing_option.
Variable opts : Options.

(** What the matrix asks of the dimension option: [update_down] undoes
    [update_up] of the same dimension. *)
Hypothesis update_down_up :
  forall d st, update_down d (update_up d st) = st.

Local Abbreviation matrix := (@Boundary_matrix Dimension_option Pairing_option).
Local Abbreviation wf := (@container_wf Dimension_option Pairing_option opts).

Implicit Types s : matrix.

Lemma order_rows_if_swapped_idem s :
  order_rows_if_swapped opts (order_rows_if_swapped opts s) =
  order_rows_if_swapped opts s.
Proof.
  unfold order_rows_if_swapped.
  destruct (activeSwapOption opts && rowSwapped_ s) eqn:E; [|by rewrite E].
  simpl. by rewrite andb_false_r.
Qed.

Lemma order_rows_if_swapped_settled s :
  activeSwapOption opts && rowSwapped_ (order_rows_if_swapped opts s) = false.
Proof.
  unfold order_rows_if_swapped.
  destruct (activeSwapOption opts && rowSwapped_ s) eqn:E; [|done].
  simpl. apply andb_false_r.
Qed.

Lemma row_of_ext s s' r :
  nextInsertIndex_ s' = nextInsertIndex_ s ->
  (forall c, (c < nextInsertIndex_ s)%N ->
     column_at (matrix_ s') c = column_at (matrix_ s) c) ->
  row_of s' r = row_of s r.
Proof.
  intros Hn Hcol. unfold row_of. rewrite Hn. apply filter_ext_in.
  intros c Hc. apply list_elem_of_In, elem_of_seqN in Hc.
  rewrite Hcol by lia. reflexivity.
Qed.

(** Insertion then removal on a matrix with no permutation of the rows
    pending. *)
Lemma insert_then_remove_settled s boundary :
  wf s -> activeSwapOption opts && rowSwapped_ s = false ->
  insertable opts boundary = true ->
  match insert_boundary update_up opts boundary (-1) s with
  | Some (s1, i) =>
      i = nextInsertIndex_ s /\
      match remove_last update_down pairing_remove_last opts s1 with
      | Some (s2, p) =>
          get_number_of_columns s2 = get_number_of_columns s /\
          dim_opt s2 = dim_opt s /\
          rowSwapped_ s2 = rowSwapped_ s /\
          forall r, row_of s2 r = row_of s r
      | None => False
      end
  | None => False
  end.
Proof.
  intros Hwf Hflag Hins.
  unfold insert_boundary, insert_boundary_at, order_rows_if_swapped.
  rewrite Hflag, Hins. cbn [negb].
  change (-1 =? -1) with true. cbv iota.
  set (column := {| dim_ := dimension_of_size boundary; column_ := boundary |}).
  set (n := nextInsertIndex_ s).
  set (dim1 := if activeDimOption opts
               then update_up (dimension_of_size boundary) (dim_opt s)
               else dim_opt s).
  assert ((if activeDimOption opts
           then update_down (get_dimension column) dim1 else dim1) = dim_opt s)
    as Hdim.
  { unfold dim1. destruct (activeDimOption opts); [|done].
    apply update_down_up. }
  unfold container_wf in Hwf. fold n in Hwf.
  destruct (matrix_ s) as [v|m] eqn:Hm.
  - (* a vector of columns *)
    destruct Hwf as (Hlen & Hra & Hpre).
    set (dictionaries := if activeSwapOption opts
                         then extend_dictionaries n (indexToRow_ s, rowToIndex_ s)
                         else (indexToRow_ s, rowToIndex_ s)).
    assert (activeSwapOption opts = true -> is_Some (dictionaries.1 !! n)) as Hkey.
    { intros Hswap. unfold dictionaries. rewrite Hswap.
      destruct (extend_dictionaries_prefix n (indexToRow_ s, rowToIndex_ s) Hpre)
        as [Hpre' Hlt].
      by apply Hpre'. }
    set (v1 := if has_row_access opts then vector_of (v ++ [column])
               else if (N.of_nat (length v) <=? n)%N then vector_of (v ++ [column])
                    else vector_of (<[N.to_nat n := column]> v)).
    assert (exists w, v1 = vector_of w /\ w !! N.to_nat n = Some column /\
              (N.succ n <= N.of_nat (length w))%N /\
              (has_row_access opts = true -> N.succ n = N.of_nat (length w)) /\
              forall c, (c < n)%N -> w !! N.to_nat c = v !! N.to_nat c)
      as (w & -> & Hw & Hwlen & Hwra & Hwold).
    { unfold v1. destruct (has_row_access opts) eqn:Hopt.
      - specialize (Hra eq_refl). exists (v ++ [column]).
        rewrite length_app. simpl. repeat split; [|lia|lia|].
        + rewrite list_lookup_middle; [done|lia].
        + intros c Hc. apply lookup_app_l. lia.
      - destruct (N.of_nat (length v) <=? n)%N eqn:E.
        + apply N.leb_le in E. exists (v ++ [column]).
          rewrite length_app. simpl. repeat split; [|lia|done|].
          * rewrite list_lookup_middle; [done|lia].
          * intros c Hc. apply lookup_app_l. lia.
        + apply N.leb_gt in E. exists (<[N.to_nat n := column]> v).
          rewrite length_insert. repeat split; [|lia|done|].
          * apply list_lookup_insert_eq. lia.
          * intros c Hc. apply list_lookup_insert_ne. lia. }
    split; [reflexivity|].
    unfold remove_last. cbn [nextInsertIndex_ matrix_ dim_opt rowSwapped_
      indexToRow_ rowToIndex_ pair_opt].
    destruct (N.succ n =? 0)%N eqn:E0; [apply N.eqb_eq in E0; lia|].
    rewrite N.pred_succ. cbn [column_at]. rewrite Hw. cbn [mbind option_bind].
    cbn [nextInsertIndex_ matrix_ dim_opt rowSwapped_ indexToRow_ rowToIndex_
      pair_opt].
    rewrite Hflag. cbn [andb]. cbv iota. cbn [column_at matrix_].
    rewrite Hw. cbn [mbind option_bind]. rewrite Hdim.
    set (w' := if has_row_access opts
               then (if (N.succ n =? N.of_nat (length w))%N
                     then Some (vector_of (take (N.to_nat n) w)) else None)
               else Some (vector_of (<[N.to_nat n := clear column]> w))).
    assert (exists u, w' = Some (vector_of u) /\
              forall c, (c < n)%N -> u !! N.to_nat c = v !! N.to_nat c)
      as (u & Hu & Huold).
    { unfold w'. destruct (has_row_access opts) eqn:Hopt.
      - rewrite (proj2 (N.eqb_eq _ _) (Hwra eq_refl)). eexists. split; [done|].
        intros c Hc. rewrite lookup_take_lt by lia. by apply Hwold.
      - eexists. split; [done|]. intros c Hc.
        rewrite list_lookup_insert_ne by lia. by apply Hwold. }
    fold w'. rewrite Hu. cbn [mbind option_bind].
    unfold erase_row, with_matrix.
    cbn [nextInsertIndex_ matrix_ dim_opt rowSwapped_ indexToRow_ rowToIndex_
      pair_opt].
    destruct (activeSwapOption opts) eqn:Hswap.
    + destruct (Hkey eq_refl) as [rowID Hrow]. rewrite Hrow.
      cbn [mbind option_bind].
      cbn [nextInsertIndex_ matrix_ dim_opt rowSwapped_]. unfold get_number_of_columns.
      rewrite Hm. cbn [matrix_ nextInsertIndex_]. repeat split; try done.
      intros r. apply row_of_ext; [done|]. fold n. rewrite Hm.
      cbn [matrix_ column_at]. exact Huold.
    + cbn [mbind option_bind].
      cbn [nextInsertIndex_ matrix_ dim_opt rowSwapped_]. unfold get_number_of_columns.
      rewrite Hm. cbn [matrix_ nextInsertIndex_]. repeat split; try done.
      intros r. apply row_of_ext; [done|]. fold n. rewrite Hm.
      cbn [matrix_ column_at]. exact Huold.
  - (* a map of columns *)
    assert (m !! n = None) as Hfresh.
    { destruct (m !! n) eqn:E; [|done].
      assert (n < n)%N; [|lia]. apply Hwf. by rewrite E. }
    replace (emplace n column m) with (<[n := column]> m)
      by (unfold emplace; by rewrite Hfresh).
    set (dictionaries := if activeSwapOption opts
                         then (emplace n n (indexToRow_ s), emplace n n (rowToIndex_ s))
                         else (indexToRow_ s, rowToIndex_ s)).
    assert (activeSwapOption opts = true -> is_Some (dictionaries.1 !! n)) as Hkey.
    { intros Hswap. unfold dictionaries. rewrite Hswap. simpl. unfold emplace.
      destruct (indexToRow_ s !! n) eqn:E; [by rewrite E|].
      by rewrite lookup_insert_eq. }
    split; [reflexivity|].
    unfold remove_last. cbn [nextInsertIndex_ matrix_ dim_opt rowSwapped_
      indexToRow_ rowToIndex_ pair_opt].
    destruct (N.succ n =? 0)%N eqn:E0; [apply N.eqb_eq in E0; lia|].
    rewrite N.pred_succ. cbn [column_at]. rewrite lookup_insert_eq.
    cbn [mbind option_bind].
    cbn [nextInsertIndex_ matrix_ dim_opt rowSwapped_ indexToRow_ rowToIndex_
      pair_opt].
    rewrite Hflag. cbn [andb]. cbv iota. cbn [column_at matrix_].
    rewrite lookup_insert_eq. cbn [mbind option_bind]. rewrite Hdim.
    rewrite delete_insert_id by done.
    unfold erase_row, with_matrix.
    cbn [nextInsertIndex_ matrix_ dim_opt rowSwapped_ indexToRow_ rowToIndex_
      pair_opt].
    destruct (activeSwapOption opts) eqn:Hswap.
    + destruct (Hkey eq_refl) as [rowID Hrow]. rewrite Hrow.
      cbn [mbind option_bind].
      cbn [nextInsertIndex_ matrix_ dim_opt rowSwapped_]. unfold get_number_of_columns.
      rewrite Hm. cbn [matrix_ nextInsertIndex_]. repeat split; try done.
      intros r. apply row_of_ext; [done|]. fold n. by rewrite Hm.
    + cbn [mbind option_bind].
      cbn [nextInsertIndex_ matrix_ dim_opt rowSwapped_]. unfold get_number_of_columns.
      rewrite Hm. cbn [matrix_ nextInsertIndex_]. repeat split; try done.
      intros r. apply row_of_ext; [done|]. fold n. by rewrite Hm.
Qed.

End InsertThenRemove.

Section BoundaryMatrixClaims.
Import BoundaryMatrix.

Context {Dimension_option Pairing_option : Type}.
Variable update_up : Z -> Dimension_option -> Dimension_option.
Variable update_down : Z -> Dimension_option -> Dimension_option.
Variable pairing_remove_last : index -> Pairing_option -> Pairing_option.
Variable opts : Options.

Local Abbreviation matrix := (@Boundary_matrix Dimension_option Pairing_option).

Lemma get_number_of_columns_order_rows (s : matrix) :
  get_number_of_columns (order_rows_if_swapped opts s) = get_number_of_columns s.
Proof.
  unfold order_rows_if_swapped. destruct (_ && _); [|done].
  unfold get_number_of_columns. simpl. destruct (matrix_ s); simpl; [done|].
  by rewrite map_size_fmap.
Qed.

Lemma insert_boundary_order_rows boundary dim (s : matrix) :
  insert_boundary update_up opts boundary dim (order_rows_if_swapped opts s) =
  insert_boundary update_up opts boundary dim s.
Proof.
  unfold insert_boundary, insert_boundary_at.
  rewrite order_rows_if_swapped_idem.
  replace (nextInsertIndex_ (order_rows_if_swapped opts s))
    with (nextInsertIndex_ s); [done|].
  unfold order_rows_if_swapped. by destruct (_ && _).
Qed.

(** Removal undoes insertion. With removable columns, [insert_boundary(b)]
    followed at once by [remove_last()] gives back the count of columns,
    the state of the dimension option and the emptiness of every row. The
    dimension option is a parameter of the matrix: its [update_down] is
    taken to undo its [update_up]. The boundary is one that
    [insert_boundary] can read (not empty when rows are accessed and cannot
    be removed). *)
Theorem insert_boundary_then_remove_last (s : matrix) (boundary : list index) :
  (forall d st, update_down d (update_up d st) = st) ->
  reachable update_up update_down pairing_remove_last opts s ->
  insertable opts boundary = true ->
  exists s1 i s2 p,
    insert_boundary update_up opts boundary (-1) s = Some (s1, i) /\
    remove_last update_down pairing_remove_last opts s1 = Some (s2, p) /\
    get_number_of_columns s2 = get_number_of_columns s /\
    dim_opt s2 = dim_opt s /\
    forall r, row_is_empty opts r s2 = row_is_empty opts r s.
Proof.
  intros Hlaw Hreach Hins. apply reachable_wf in Hreach.
  pose proof (insert_then_remove_settled update_up update_down pairing_remove_last
                opts Hlaw (order_rows_if_swapped opts s) boundary
                (wf_order_rows_if_swapped opts s Hreach)
                (order_rows_if_swapped_settled opts s) Hins) as Hcore.
  rewrite insert_boundary_order_rows in Hcore.
  destruct (insert_boundary update_up opts boundary (-1) s) as [[s1 i]|] eqn:E1;
    [|done].
  destruct Hcore as [_ Hcore].
  destruct (remove_last update_down pairing_remove_last opts s1) as [[s2 p]|] eqn:E2;
    [|done].
  destruct Hcore as (Hcount & Hdim & Hflag & Hrows).
  exists s1, i, s2, p. split; [done|]. split; [done|].
  split; [by rewrite Hcount, get_number_of_columns_order_rows|].
  split. { rewrite Hdim. unfold order_rows_if_swapped. by destruct (_ && _). }
  intros r. unfold row_is_empty.
  replace (order_rows_if_swapped opts s2) with s2.
  - by rewrite Hrows.
  - unfold order_rows_if_swapped at 1. rewrite Hflag.
    by rewrite order_rows_if_swapped_settled.
Qed.

(** C9. On a matrix with no column ([nextInsertIndex_ == 0]),
    [remove_last()] returns the sentinel [-1] and the matrix is left as it
    was, in every part. *)
Theorem remove_last_of_empty_matrix (s : matrix) :
  nextInsertIndex_ s = 0%N ->
  remove_last update_down pairing_remove_last opts s = Some (s, -1).
Proof. intros Hn. unfold remove_last. by rewrite Hn. Qed.

Lemma reachable_serve_all l (s s' : matrix) os :
  reachable update_up update_down pairing_remove_last opts s ->
  serve_all update_up update_down pairing_remove_last opts l s = Some (s', os) ->
  reachable update_up update_down pairing_remove_last opts s'.
Proof.
  revert s os. induction l as [|r l IH]; intros s os Hs; simpl.
  - by intros [= <- <-].
  - destruct (serve _ _ _ _ r s) as [[s1 o]|] eqn:E; simpl; [|done].
    destruct (serve_all _ _ _ _ l s1) as [[s2 os']|] eqn:E'; simpl; [|done].
    intros [= <- <-]. eapply IH; [|exact E']. by eapply reachable_serve.
Qed.

Lemma reachable_after l (s : matrix) :
  reachable update_up update_down pairing_remove_last opts s ->
  reachable update_up update_down pairing_remove_last opts
    (after update_up update_down pairing_remove_last opts l s).
Proof.
  intros Hs. unfold after.
  destruct (serve_all _ _ _ _ l s) as [[s' os]|] eqn:E; [|done].
  by eapply reachable_serve_all.
Qed.

End BoundaryMatrixClaims.

Section BoundaryMatrixExamples.
Import BoundaryMatrix.

Lemma holder_update_down_up d (h : DimensionHolder.holder) :
  DimensionHolder.update_down d (DimensionHolder.update_up d h) = h.
Proof.
  unfold DimensionHolder.update_down, DimensionHolder.update_up. multiset_solver.
Qed.

(** A vertex, a vertex and an edge are in the matrix; the rows 0 and 1 have
    been swapped, lazily; a second edge is inserted, then removed. *)
Lemma insert_boundary_then_remove_last_witness :
  let opts := mk_options true true true true false in
  let up := DimensionHolder.update_up in
  let down := DimensionHolder.update_down in
  let pairs := fun (_ : index) (p : unit) => p in
  let s := after up down pairs opts
             [call_insert_boundary [] (-1); call_insert_boundary [] (-1);
              call_insert_boundary [0; 1]%N (-1); call_swap_rows 0 1]
             (empty_matrix ∅ tt true) in
  exists s1 i s2 p,
    insert_boundary up opts [0; 1]%N (-1) s = Some (s1, i) /\
    remove_last down pairs opts s1 = Some (s2, p) /\
    get_number_of_columns s2 = get_number_of_columns s /\
    dim_opt s2 = dim_opt s /\
    forall r, row_is_empty opts r s2 = row_is_empty opts r s.
Proof.
  intros opts up down pairs s.
  apply (insert_boundary_then_remove_last up down pairs opts s [0; 1]%N).
  - apply holder_update_down_up.
  - apply reachable_after, reachable_empty.
  - reflexivity.
Defined.

(** C3. [insert_boundary(b)] followed by [remove_last()] does not give
    back the matrix for every boundary [b]. With row access and rows that
    cannot be removed, [insert_boundary] reads [*std::prev(boundary.end())]
    without looking whether the boundary is empty; for the boundary of a
    vertex this is the element before the end of an empty container, which
    has no defined behaviour: the insertion has no result, in whatever
    matrix, and nothing is left for [remove_last] to restore. *)
Theorem insert_boundary_of_vertex_undefined
    (activeDim activeSwap activePairing : bool) (dim : Z)
    (s : Boundary_matrix (Dimension_option := DimensionHolder.holder)
           (Pairing_option := unit)) :
  insert_boundary DimensionHolder.update_up
    (mk_options true false activeDim activeSwap activePairing) [] dim s = None.
Proof. reflexivity. Qed.

Lemma remove_last_of_empty_matrix_witness :
  let opts := mk_options true true true true false in
  let s := empty_matrix (∅ : DimensionHolder.holder) tt false in
  remove_last DimensionHolder.update_down (fun (_ : index) (p : unit) => p) opts s =
    Some (s, -1).
Proof.
  intros opts s. apply remove_last_of_empty_matrix. reflexivity.
Defined.

End BoundaryMatrixExamples.

Section Sorting.
Import Z2Vec.

Lemma elem_of_insert_sorted r l x :
  x ∈ insert_sorted r l <-> x = r \/ x ∈ l.
Proof.
  induction l as [|y l IH]; simpl.
  - rewrite elem_of_cons. split; [intros [->|H]; [by left|by right]|].
    intros [->|H]; [by left|by right].
  - destruct (r <=? y)%N.
    + by rewrite elem_of_cons.
    + rewrite !elem_of_cons, IH. tauto.
Qed.

Lemma elem_of_sort_rows l x : x ∈ sort_rows l <-> x ∈ l.
Proof.
  induction l as [|y l IH]; simpl; [done|].
  rewrite elem_of_insert_sorted, elem_of_cons, IH. tauto.
Qed.

Lemma insert_sorted_increasing r l :
  increasing l -> r ∉ l -> increasing (insert_sorted r l).
Proof.
  induction l as [|y l IH]; intros Hl Hr; simpl.
  - repeat constructor.
  - apply increasing_cons_inv in Hl as [Hl Hy].
    assert (r <> y) by (intros ->; apply Hr; left).
    assert (r ∉ l) by (intros ?; apply Hr; by right).
    destruct (r <=? y)%N eqn:E.
    + apply N.leb_le in E. apply increasing_cons.
      * by apply increasing_cons.
      * constructor; [lia|]. apply Forall_lt_trans with y; [lia|done].
    + apply N.leb_gt in E. apply increasing_cons; [by apply IH|].
      apply Forall_forall. intros x Hx.
      apply elem_of_insert_sorted in Hx as [->|Hx]; [done|].
      rewrite Forall_forall in Hy. by apply Hy.
Qed.

Lemma sort_rows_increasing l : NoDup l -> increasing (sort_rows l).
Proof.
  induction 1 as [|x l Hx Hl IH]; simpl; [constructor|].
  apply insert_sorted_increasing; [done|]. by rewrite elem_of_sort_rows.
Qed.

Lemma sort_rows_of_increasing l : increasing l -> sort_rows l = l.
Proof.
  intros Hl. apply increasing_ext; [|done|apply elem_of_sort_rows].
  by apply sort_rows_increasing, increasing_NoDup.
Qed.

Lemma is_non_zero_elem_of (c : Z2_vector_column) r :
  is_non_zero c r = true <-> r ∈ column_ c.
Proof.
  unfold is_non_zero. rewrite existsb_exists. split.
  - intros (x & Hx & Heq). apply N.eqb_eq in Heq. subst.
    by apply list_elem_of_In.
  - intros Hr. exists r. split; [by apply list_elem_of_In|apply N.eqb_refl].
Qed.

Lemma has_row_elem_of r (col : Z * list index) :
  Reference.has_row r col = true <-> r ∈ col.2.
Proof.
  unfold Reference.has_row. rewrite existsb_exists. split.
  - intros (x & Hx & Heq). apply N.eqb_eq in Heq. subst.
    by apply list_elem_of_In.
  - intros Hr. exists r. split; [by apply list_elem_of_In|apply N.eqb_refl].
Qed.

Lemma increasingb_increasing l : Reference.increasingb l = true -> increasing l.
Proof.
  induction l as [|x l IH]; [constructor|].
  destruct l as [|y l']; [repeat constructor|].
  change (Reference.increasingb (x :: y :: l'))
    with ((x <? y)%N && Reference.increasingb (y :: l')).
  rewrite andb_true_iff, N.ltb_lt. intros [Hxy Hl].
  specialize (IH Hl). apply increasing_cons; [done|].
  constructor; [done|]. apply increasing_cons_inv in IH as [_ Hy].
  by apply Forall_lt_trans with y.
Qed.

End Sorting.

Section ExtendDictionaries.
Import BoundaryMatrix.

Lemma extend_dictionaries_lookup faceIndex (d : gmap index index * gmap index index) :
  prefix_keys d.1 -> prefix_keys d.2 ->
  dictionary_size d.1 = dictionary_size d.2 ->
  forall k,
    (extend_dictionaries faceIndex d).1 !! k = extended faceIndex d.1 k /\
    (extend_dictionaries faceIndex d).2 !! k = extended faceIndex d.2 k.
Proof.
  unfold extend_dictionaries.
  remember (N.succ faceIndex - dictionary_size d.1)%N as len eqn:Hlen.
  revert d Hlen. induction len as [|len IH] using N.peano_ind;
    intros d Hlen Hp1 Hp2 Hsize k.
  - rewrite seqN_nil. simpl. unfold extended. rewrite <- Hsize.
    destruct (k <? dictionary_size d.1)%N eqn:E; [done|].
    apply N.ltb_ge in E.
    destruct (k <=? faceIndex)%N eqn:E'; [apply N.leb_le in E'; lia|].
    split.
    + destruct (d.1 !! k) eqn:Hk; [|done].
      assert (k < dictionary_size d.1)%N; [|lia]. apply Hp1. by rewrite Hk.
    + destruct (d.2 !! k) eqn:Hk; [|done].
      assert (k < dictionary_size d.2)%N; [|lia]. apply Hp2. by rewrite Hk.
  - rewrite seqN_succ. simpl.
    set (m := dictionary_size d.1).
    set (d' := (push_back m d.1, push_back m d.2)).
    assert (dictionary_size d'.1 = N.succ m) as Hsize1 by (by apply push_back_size).
    assert (dictionary_size d'.2 = N.succ m) as Hsize2.
    { unfold d'. simpl. rewrite push_back_size by done. by rewrite <- Hsize. }
    specialize (IH d'). rewrite Hsize1 in IH.
    destruct (IH ltac:(lia) ltac:(by apply push_back_prefix)
                 ltac:(by apply push_back_prefix) ltac:(congruence) k)
      as [IH1 IH2].
    rewrite IH1, IH2. unfold extended. rewrite Hsize1, Hsize2, <- Hsize.
    fold m. unfold d', push_back. simpl. rewrite <- Hsize. fold m.
    destruct (k <? N.succ m)%N eqn:E.
    + apply N.ltb_lt in E. destruct (decide (k = m)) as [->|Hne].
      * rewrite !lookup_insert_eq, N.ltb_irrefl.
        assert ((m <=? faceIndex)%N = true) as -> by (apply N.leb_le; lia). done.
      * rewrite !lookup_insert_ne by done.
        assert ((k <? m)%N = true) as -> by (apply N.ltb_lt; lia). done.
    + apply N.ltb_ge in E.
      assert ((k <? m)%N = false) as -> by (apply N.ltb_ge; lia). done.
Qed.

End ExtendDictionaries.

Section Simulation.
Import BoundaryMatrix Agreement.

Context {Dimension_option Pairing_option : Type}.
Variable update_up : Z -> Dimension_option -> Dimension_option.
Variable update_down : Z -> Dimension_option -> Dimension_option.
Variable pairing_remove_last : index -> Pairing_option -> Pairing_option.
Variable opts : Options.
Hypothesis swap_active : activeSwapOption opts = true.

Local Abbreviation matrix := (@Boundary_matrix Dimension_option Pairing_option).

Implicit Types s : matrix.
Implicit Types e : Reference.matrix.

Lemma row_to_index_injective s e x y r :
  agrees opts s e ->
  rowToIndex_ s !! x = Some r -> rowToIndex_ s !! y = Some r -> x = y.
Proof.
  intros Hag Hx Hy. apply (agrees_inverse _ _ _ Hag) in Hx, Hy. congruence.
Qed.

Lemma settled_identity s e x :
  agrees opts s e -> rowSwapped_ s = false ->
  is_Some (rowToIndex_ s !! x) -> rowToIndex_ s !! x = Some x.
Proof.
  intros Hag Hflag [r Hr]. pose proof Hr as Hr'.
  apply (agrees_inverse _ _ _ Hag) in Hr'.
  apply (agrees_settled _ _ _ Hag Hflag) in Hr'. by subst.
Qed.

(** With no permutation pending, a column of the matrix is the column of
    the reference. *)
Lemma settled_column s e col ecol :
  agrees opts s e -> rowSwapped_ s = false ->
  column_agrees s col ecol -> column_ col = ecol.2.
Proof.
  intros Hag Hflag (Hdim & Hinc & Heinc & Hdict & Hmem & Hbound).
  apply increasing_ext; [done..|]. intros x. rewrite Hmem. split.
  - intros Hx. exists x. split; [done|].
    apply (settled_identity s e); [done..|]. by apply Hdict.
  - intros (y & Hy & Hyx).
    assert (rowToIndex_ s !! y = Some y) as Hyy.
    { apply (settled_identity s e); [done..|]. by rewrite Hyx. }
    assert (x = y) as -> by congruence. done.
Qed.

Lemma reorder_column s e col ecol :
  agrees opts s e -> column_agrees s col ecol ->
  column_ (reorder col (rowToIndex_ s)) = ecol.2.
Proof.
  intros Hag (Hdim & Hinc & Heinc & Hdict & Hmem & Hbound).
  assert (forall r, r ∈ map (fun x => default 0%N (rowToIndex_ s !! x)) (column_ col)
                    <-> r ∈ ecol.2) as Himage.
  { intros r. rewrite Hmem, list_elem_of_In, in_map_iff. split.
    - intros (x & Hx & Hin). apply list_elem_of_In in Hin. exists x. split; [done|].
      destruct (Hdict x Hin) as [r' Hr']. rewrite Hr' in Hx. simpl in Hx. congruence.
    - intros (x & Hin & Hx). exists x. rewrite Hx. split; [done|].
      by apply list_elem_of_In. }
  simpl. apply increasing_ext; [|done|].
  - apply sort_rows_increasing. apply NoDup_fmap_2_strong.
    + intros x y Hx Hy Heq.
      destruct (Hdict x Hx) as [rx Hrx]. destruct (Hdict y Hy) as [ry Hry].
      rewrite Hrx, Hry in Heq. simpl in Heq. subst ry.
      by apply (row_to_index_injective s e x y rx).
    + by apply increasing_NoDup.
  - intros r. by rewrite elem_of_sort_rows.
Qed.

Lemma agrees_orderRows s e : agrees opts s e -> agrees opts (_orderRows s) e.
Proof.
  intros Hag. constructor.
  - apply (agrees_count _ _ _ Hag).
  - intros c ecol Hc.
    destruct (agrees_columns _ _ _ Hag c ecol Hc) as (col & Hcol & Hca).
    exists (reorder col (rowToIndex_ s)). simpl.
    rewrite column_at_map_columns, Hcol. split; [done|].
    pose proof (reorder_column s e col ecol Hag Hca) as Hre.
    destruct Hca as (Hdim & Hinc & Heinc & Hdict & Hmem & Hbound).
    assert (forall r, r ∈ ecol.2 -> identity_on (indexToRow_ s) !! r = Some r) as Hid.
    { intros r Hr. rewrite lookup_identity_on.
      destruct (agrees_indices _ _ _ Hag r (Hbound r Hr)) as [x Hx]. by rewrite Hx. }
    unfold column_agrees. simpl in *. rewrite Hre.
    split; [done|]. split; [done|]. split; [done|]. split; [|split; [|done]].
    + intros x Hx. rewrite Hid by done. done.
    + intros r. split.
      * intros Hr. exists r. split; [done|by apply Hid].
      * intros (x & Hx & Hxr). rewrite Hid in Hxr by done.
        injection Hxr as <-. done.
  - intros i x. simpl. rewrite !lookup_identity_on. split.
    + destruct (indexToRow_ s !! i) eqn:E; simpl; [|done].
      intros [= <-]. by rewrite E.
    + destruct (indexToRow_ s !! x) eqn:E; simpl; [|done].
      intros [= <-]. by rewrite E.
  - intros i Hi. simpl in *. rewrite lookup_identity_on, fmap_is_Some.
    by apply (agrees_indices _ _ _ Hag).
  - intros _ i x. simpl. rewrite lookup_identity_on.
    destruct (indexToRow_ s !! i); simpl; [|done]. by intros [= <-].
  - pose proof (agrees_keys _ _ _ Hag) as Hkeys. simpl.
    destruct (matrix_ s); simpl; [done|].
    intros i. rewrite lookup_identity_on, fmap_is_Some. apply Hkeys.
  - apply wf_orderRows, (agrees_containers _ _ _ Hag).
Qed.

Lemma agrees_order_rows_if_swapped s e :
  agrees opts s e ->
  agrees opts (order_rows_if_swapped opts s) e /\
  rowSwapped_ (order_rows_if_swapped opts s) = false.
Proof.
  intros Hag. unfold order_rows_if_swapped. rewrite swap_active. simpl.
  destruct (rowSwapped_ s) eqn:E; [|done].
  split; [by apply agrees_orderRows|done].
Qed.

(** The column a read returns, once the rows are in order. *)
Lemma ordered_column s e c ecol :
  agrees opts s e -> e !! N.to_nat c = Some ecol ->
  exists col,
    column_at (matrix_ (order_rows_if_swapped opts s)) c = Some col /\
    dim_ col = ecol.1 /\ column_ col = ecol.2.
Proof.
  intros Hag Hc. destruct (agrees_order_rows_if_swapped s e Hag) as [Hag' Hflag].
  destruct (agrees_columns _ _ _ Hag' c ecol Hc) as (col & Hcol & Hca).
  exists col. split; [done|]. split; [apply Hca|].
  by apply (settled_column (order_rows_if_swapped opts s) e).
Qed.

Local Abbreviation serve_request :=
  (serve update_up update_down pairing_remove_last opts).

Lemma sim_get_column s e c e' o :
  agrees opts s e ->
  Reference.serve opts (call_get_column c) e = Some (e', o) ->
  exists s', serve_request (call_get_column c) s = Some (s', o) /\ agrees opts s' e'.
Proof.
  intros Hag. simpl.
  destruct (e !! N.to_nat c) as [ecol|] eqn:Hc; simpl; [|done]. intros [= <- <-].
  destruct (ordered_column s e c ecol Hag Hc) as (col & Hcol & Hdim & Hcells).
  unfold get_column. rewrite Hcol. simpl. eexists. split.
  - unfold get_dimension. by rewrite Hdim, Hcells.
  - by apply agrees_order_rows_if_swapped.
Qed.

Lemma sim_get_pivot s e c e' o :
  agrees opts s e ->
  Reference.serve opts (call_get_pivot c) e = Some (e', o) ->
  exists s', serve_request (call_get_pivot c) s = Some (s', o) /\ agrees opts s' e'.
Proof.
  intros Hag. simpl.
  destruct (e !! N.to_nat c) as [ecol|] eqn:Hc; simpl; [|done]. intros [= <- <-].
  destruct (ordered_column s e c ecol Hag Hc) as (col & Hcol & Hdim & Hcells).
  unfold get_pivot. rewrite Hcol. simpl. eexists. split.
  - unfold column_pivot, Reference.pivot_of. by rewrite Hcells.
  - by apply agrees_order_rows_if_swapped.
Qed.

Lemma sim_get_row s e r e' o :
  agrees opts s e ->
  Reference.serve opts (call_get_row r) e = Some (e', o) ->
  exists s', serve_request (call_get_row r) s = Some (s', o) /\ agrees opts s' e'.
Proof.
  intros Hag. simpl. unfold get_row.
  destruct (has_row_access opts); simpl; [|done].
  destruct (r <? N.of_nat (length e))%N; [|done]. intros [= <- <-].
  destruct (agrees_order_rows_if_swapped s e Hag) as [Hag' Hflag].
  eexists. split; [|exact Hag']. do 3 f_equal.
  unfold row_of. rewrite (agrees_count _ _ _ Hag').
  apply filter_ext_in. intros c Hc.
  apply list_elem_of_In, elem_of_seqN in Hc.
  match goal with
  | |- _ = match ?t with _ => _ end => destruct t as [ecol|] eqn:Hecol
  end.
  - destruct (ordered_column s e c ecol Hag Hecol) as (col & Hcol & Hdim & Hcells).
    rewrite Hcol. unfold is_non_zero, Reference.has_row. by rewrite Hcells.
  - apply lookup_ge_None in Hecol. lia.
Qed.

Lemma sim_is_zero_cell s e c r e' o :
  agrees opts s e ->
  Reference.serve opts (call_is_zero_cell c r) e = Some (e', o) ->
  exists s', serve_request (call_is_zero_cell c r) s = Some (s', o) /\
             agrees opts s' e'.
Proof.
  intros Hag. simpl.
  destruct (e !! N.to_nat c) as [ecol|] eqn:Hc; simpl; [|done].
  destruct (r <? N.of_nat (length e))%N eqn:Hr; [|done]. intros [= <- <-].
  apply N.ltb_lt in Hr. rewrite <- (agrees_count _ _ _ Hag) in Hr.
  destruct (agrees_columns _ _ _ Hag c ecol Hc) as (col & Hcol & Hca).
  destruct (agrees_indices _ _ _ Hag r Hr) as [x Hx].
  unfold is_zero_cell. rewrite Hcol, swap_active. simpl. rewrite Hx. simpl.
  exists s. split; [|done]. do 4 f_equal.
  destruct Hca as (Hdim & Hinc & Heinc & Hdict & Hmem & Hbound).
  apply eq_true_iff_eq. rewrite is_non_zero_elem_of, has_row_elem_of, Hmem.
  pose proof Hx as Hx'. apply (agrees_inverse _ _ _ Hag) in Hx'. split.
  - intros Hin. by exists x.
  - intros (y & Hy & Hyr). apply (agrees_inverse _ _ _ Hag) in Hyr.
    assert (x = y) as -> by congruence. done.
Qed.

Lemma transposition_involutive i j r :
  Reference.transposition i j (Reference.transposition i j r) = r.
Proof.
  unfold Reference.transposition.
  destruct (r =? i)%N eqn:E1; [apply N.eqb_eq in E1; subst|].
  - destruct (j =? i)%N eqn:E2; [by apply N.eqb_eq in E2|].
    by rewrite N.eqb_refl.
  - destruct (r =? j)%N eqn:E2; [apply N.eqb_eq in E2; subst|].
    + by rewrite N.eqb_refl.
    + by rewrite E1, E2.
Qed.

Lemma transposition_lt i j r n :
  (i < n)%N -> (j < n)%N -> (r < n)%N -> (Reference.transposition i j r < n)%N.
Proof.
  intros Hi Hj Hr. unfold Reference.transposition.
  destruct (r =? i)%N; [done|]. by destruct (r =? j)%N.
Qed.

Lemma transposition_injective i j r r' :
  Reference.transposition i j r = Reference.transposition i j r' -> r = r'.
Proof.
  intros Heq. rewrite <- (transposition_involutive i j r), Heq.
  apply transposition_involutive.
Qed.

(** The dictionaries after a swap of two rows: the former ones, composed
    with the transposition. *)
Lemma swapped_index_to_row s e i j row1 row2 a :
  agrees opts s e ->
  indexToRow_ s !! i = Some row1 -> indexToRow_ s !! j = Some row2 ->
  <[j := row1]> (<[i := row2]> (indexToRow_ s)) !! a =
  indexToRow_ s !! Reference.transposition i j a.
Proof.
  intros Hag Hi Hj. unfold Reference.transposition.
  destruct (a =? i)%N eqn:E1; [apply N.eqb_eq in E1; subst a|apply N.eqb_neq in E1].
  - destruct (decide (j = i)) as [->|Hne].
    + rewrite lookup_insert_eq. congruence.
    + rewrite lookup_insert_ne by done. rewrite lookup_insert_eq. congruence.
  - destruct (a =? j)%N eqn:E2; [apply N.eqb_eq in E2; subst a|apply N.eqb_neq in E2].
    + rewrite lookup_insert_eq. congruence.
    + by rewrite !lookup_insert_ne.
Qed.

Lemma swapped_row_to_index s e i j row1 row2 x :
  agrees opts s e ->
  indexToRow_ s !! i = Some row1 -> indexToRow_ s !! j = Some row2 ->
  <[row2 := i]> (<[row1 := j]> (rowToIndex_ s)) !! x =
  Reference.transposition i j <$> rowToIndex_ s !! x.
Proof.
  intros Hag Hi Hj.
  pose proof Hi as Hi'. apply (agrees_inverse _ _ _ Hag) in Hi'.
  pose proof Hj as Hj'. apply (agrees_inverse _ _ _ Hag) in Hj'.
  unfold Reference.transposition.
  destruct (decide (x = row2)) as [->|Hx2].
  - rewrite lookup_insert_eq, Hj'. simpl. rewrite N.eqb_refl.
    by destruct (j =? i)%N eqn:E; [apply N.eqb_eq in E; subst|].
  - rewrite lookup_insert_ne by done.
    destruct (decide (x = row1)) as [->|Hx1].
    + rewrite lookup_insert_eq, Hi'. simpl. by rewrite N.eqb_refl.
    + rewrite lookup_insert_ne by done.
      destruct (rowToIndex_ s !! x) as [r|] eqn:Hr; simpl; [|done].
      apply (agrees_inverse _ _ _ Hag) in Hr.
      destruct (r =? i)%N eqn:E1; [apply N.eqb_eq in E1; congruence|].
      destruct (r =? j)%N eqn:E2; [apply N.eqb_eq in E2; congruence|done].
Qed.

Lemma sim_swap_rows s e i j e' o :
  agrees opts s e ->
  Reference.serve opts (call_swap_rows i j) e = Some (e', o) ->
  exists s', serve_request (call_swap_rows i j) s = Some (s', o) /\
             agrees opts s' e'.
Proof.
  intros Hag. simpl. rewrite swap_active. simpl.
  destruct (i <? N.of_nat (length e))%N eqn:Hi; simpl; [|done].
  destruct (j <? N.of_nat (length e))%N eqn:Hj; simpl; [|done].
  intros [= <- <-]. apply N.ltb_lt in Hi, Hj.
  rewrite <- (agrees_count _ _ _ Hag) in Hi, Hj.
  destruct (agrees_indices _ _ _ Hag i Hi) as [row1 Hrow1].
  destruct (agrees_indices _ _ _ Hag j Hj) as [row2 Hrow2].
  pose proof Hrow1 as Hindex1. apply (agrees_inverse _ _ _ Hag) in Hindex1.
  pose proof Hrow2 as Hindex2. apply (agrees_inverse _ _ _ Hag) in Hindex2.
  assert (swap_rows i j s =
          Some {| dim_opt := dim_opt s;
                  indexToRow_ := <[j := row1]> (<[i := row2]> (indexToRow_ s));
                  rowToIndex_ := <[row2 := i]> (<[row1 := j]> (rowToIndex_ s));
                  rowSwapped_ := true; pair_opt := pair_opt s;
                  matrix_ := matrix_ s;
                  nextInsertIndex_ := nextInsertIndex_ s |}) as Hswap.
  { unfold swap_rows. rewrite Hrow1. simpl. rewrite Hrow2. simpl.
    rewrite Hindex1. simpl. rewrite Hindex2. reflexivity. }
  rewrite Hswap. simpl. eexists. split; [reflexivity|].
  pose proof (swapped_index_to_row s e i j row1 row2) as Hi2r.
  pose proof (swapped_row_to_index s e i j row1 row2) as Hr2i.
  constructor;
    cbn [nextInsertIndex_ matrix_ indexToRow_ rowToIndex_ rowSwapped_ dim_opt pair_opt].
  - rewrite length_fmap. apply (agrees_count _ _ _ Hag).
  - intros c ecol'. rewrite list_lookup_fmap, fmap_Some.
    intros (ecol & Hc & ->).
    destruct (agrees_columns _ _ _ Hag c ecol Hc) as (col & Hcol & Hca).
    exists col. split; [done|].
    destruct Hca as (Hdim & Hinc & Heinc & Hdict & Hmem & Hbound).
    unfold column_agrees.
    cbn [nextInsertIndex_ matrix_ indexToRow_ rowToIndex_ rowSwapped_ fst snd].
    split; [done|]. split; [done|]. split; [|split; [|split]].
    + apply sort_rows_increasing. apply NoDup_fmap_2_strong.
      * intros x y _ _. apply transposition_injective.
      * by apply increasing_NoDup.
    + intros x Hx. rewrite Hr2i by done. rewrite fmap_is_Some. by apply Hdict.
    + intros r'. rewrite elem_of_sort_rows, list_elem_of_In, in_map_iff. split.
      * intros (r & <- & Hr). apply list_elem_of_In, Hmem in Hr as (x & Hx & Hxr).
        exists x. split; [done|]. rewrite Hr2i by done. by rewrite Hxr.
      * intros (x & Hx & Hxr'). rewrite Hr2i in Hxr' by done.
        apply fmap_Some in Hxr' as (r & Hxr & ->). exists r. split; [done|].
        apply list_elem_of_In, Hmem. by exists x.
    + intros r'. rewrite elem_of_sort_rows, list_elem_of_In, in_map_iff.
      intros (r & <- & Hr). apply list_elem_of_In in Hr.
      apply transposition_lt; [done..|]. by apply Hbound.
  - intros a x. rewrite Hi2r, Hr2i by done.
    rewrite (agrees_inverse _ _ _ Hag), fmap_Some. split.
    + intros Hx. eexists. split; [exact Hx|]. by rewrite transposition_involutive.
    + intros (r & Hx & ->). by rewrite transposition_involutive.
  - intros a Ha. rewrite Hi2r by done. apply (agrees_indices _ _ _ Hag).
    by apply transposition_lt.
  - done.
  - pose proof (agrees_keys _ _ _ Hag) as Hkeys.
    destruct (matrix_ s); [done|]. intros a. rewrite Hi2r by done.
    intros Ha. apply Hkeys in Ha.
    rewrite <- (transposition_involutive i j a). by apply transposition_lt.
  - apply (wf_swap_rows opts i j s); [apply (agrees_containers _ _ _ Hag)|done].
Qed.

Lemma column_agrees_ext s s' col ecol :
  rowToIndex_ s' = rowToIndex_ s -> nextInsertIndex_ s' = nextInsertIndex_ s ->
  column_agrees s col ecol -> column_agrees s' col ecol.
Proof. unfold column_agrees. by intros -> ->. Qed.

Lemma sim_add_to s e source target e' o :
  agrees opts s e ->
  Reference.serve opts (call_add_to source target) e = Some (e', o) ->
  exists s', serve_request (call_add_to source target) s = Some (s', o) /\
             agrees opts s' e'.
Proof.
  intros Hag. simpl.
  destruct (e !! N.to_nat source) as [es|] eqn:Hes; simpl; [|done].
  destruct (e !! N.to_nat target) as [et|] eqn:Het; simpl; [|done].
  intros [= <- <-].
  destruct (agrees_columns _ _ _ Hag source es Hes) as (cs & Hcs & Hcas).
  destruct (agrees_columns _ _ _ Hag target et Het) as (ct & Hct & Hcat).
  unfold add_to. rewrite Hct. simpl. rewrite Hcs. simpl.
  eexists. split; [reflexivity|].
  constructor;
    cbn [with_matrix nextInsertIndex_ matrix_ indexToRow_ rowToIndex_ rowSwapped_
         dim_opt pair_opt].
  - rewrite length_insert. apply (agrees_count _ _ _ Hag).
  - intros c ecol' Hc'.
    rewrite column_at_set_column by (by rewrite Hct).
    destruct (decide (target = c)) as [<-|Hne].
    + rewrite list_lookup_insert_eq in Hc' by (by apply lookup_lt_Some in Het).
      injection Hc' as <-. eexists. split; [reflexivity|].
      destruct Hcas as (Hdims & Hincs & Heincs & Hdicts & Hmems & Hbounds).
      destruct Hcat as (Hdimt & Hinct & Heinct & Hdictt & Hmemt & Hboundt).
      unfold column_agrees. cbn [rowToIndex_ nextInsertIndex_ with_matrix fst snd].
      rewrite add_assign_dim, add_assign_sym_merge.
      split; [done|]. split; [by apply sym_merge_increasing|].
      split; [by apply sym_merge_increasing|]. split; [|split].
      * intros x Hx. apply sym_merge_elem_of in Hx; [|done..].
        destruct Hx as [[Hx _]|[Hx _]].
        -- by apply Hdictt.
        -- by apply Hdicts.
      * intros r. rewrite sym_merge_elem_of by done. split.
        -- intros [[Hr Hn]|[Hr Hn]].
           ++ apply Hmemt in Hr as (x & Hx & Hxr). exists x. split; [|done].
              apply sym_merge_elem_of; [done..|]. left. split; [done|].
              intros Hxs. apply Hn, Hmems. by exists x.
           ++ apply Hmems in Hr as (x & Hx & Hxr). exists x. split; [|done].
              apply sym_merge_elem_of; [done..|]. right. split; [done|].
              intros Hxt. apply Hn, Hmemt. by exists x.
        -- intros (x & Hx & Hxr).
           apply sym_merge_elem_of in Hx; [|done..].
           destruct Hx as [[Hx Hn]|[Hx Hn]].
           ++ left. split; [apply Hmemt; by exists x|].
              intros Hr. apply Hmems in Hr as (y & Hy & Hyr).
              assert (x = y) as -> by (by apply (row_to_index_injective s e x y r)).
              done.
           ++ right. split; [apply Hmems; by exists x|].
              intros Hr. apply Hmemt in Hr as (y & Hy & Hyr).
              assert (x = y) as -> by (by apply (row_to_index_injective s e x y r)).
              done.
      * intros r Hr. apply sym_merge_elem_of in Hr; [|done..].
        destruct Hr as [[Hr _]|[Hr _]].
        -- by apply Hboundt.
        -- by apply Hbounds.
    + rewrite list_lookup_insert_ne in Hc' by lia.
      destruct (agrees_columns _ _ _ Hag c ecol' Hc') as (col & Hcol & Hca).
      exists col. split; [done|]. revert Hca. by apply column_agrees_ext.
  - apply (agrees_inverse _ _ _ Hag).
  - apply (agrees_indices _ _ _ Hag).
  - apply (agrees_settled _ _ _ Hag).
  - pose proof (agrees_keys _ _ _ Hag) as Hkeys. by destruct (matrix_ s).
  - apply (wf_set_column opts); [by rewrite Hct|apply (agrees_containers _ _ _ Hag)].
Qed.

Lemma settled_dictionaries s e :
  agrees opts s e -> rowSwapped_ s = false ->
  (forall k x, indexToRow_ s !! k = Some x -> x = k) /\
  (forall k x, rowToIndex_ s !! k = Some x -> x = k) /\
  (forall k, is_Some (indexToRow_ s !! k) <-> is_Some (rowToIndex_ s !! k)) /\
  (forall k, (k < nextInsertIndex_ s)%N ->
     indexToRow_ s !! k = Some k /\ rowToIndex_ s !! k = Some k).
Proof.
  intros Hag Hflag.
  pose proof (agrees_settled _ _ _ Hag Hflag) as Hid.
  assert (forall k x, rowToIndex_ s !! k = Some x -> x = k) as Hid'.
  { intros k x Hk. apply (agrees_inverse _ _ _ Hag) in Hk.
    symmetry. by apply (Hid x k). }
  split; [done|]. split; [done|]. split.
  - intros k. split; intros [x Hx].
    + pose proof (Hid _ _ Hx) as ->. apply (agrees_inverse _ _ _ Hag) in Hx.
      by rewrite Hx.
    + pose proof (Hid' _ _ Hx) as ->. apply (agrees_inverse _ _ _ Hag) in Hx.
      by rewrite Hx.
  - intros k Hk. destruct (agrees_indices _ _ _ Hag k Hk) as [x Hx].
    pose proof (Hid _ _ Hx) as ->. split; [done|].
    by apply (agrees_inverse _ _ _ Hag).
Qed.

Lemma inserted_dictionaries s e (d' : gmap index index * gmap index index) :
  agrees opts s e -> rowSwapped_ s = false ->
  d' = match matrix_ s with
       | map_of _ =>
           (emplace (nextInsertIndex_ s) (nextInsertIndex_ s) (indexToRow_ s),
            emplace (nextInsertIndex_ s) (nextInsertIndex_ s) (rowToIndex_ s))
       | vector_of _ =>
           extend_dictionaries (nextInsertIndex_ s) (indexToRow_ s, rowToIndex_ s)
       end ->
  (forall k, (k <= nextInsertIndex_ s)%N -> d'.1 !! k = Some k /\ d'.2 !! k = Some k) /\
  (forall k x, d'.1 !! k = Some x -> x = k) /\
  (forall k x, d'.2 !! k = Some x -> x = k) /\
  (forall k, is_Some (d'.1 !! k) <-> is_Some (d'.2 !! k)) /\
  (forall k, is_Some (rowToIndex_ s !! k) -> d'.2 !! k = rowToIndex_ s !! k) /\
  match matrix_ s with
  | map_of _ => forall k, is_Some (d'.1 !! k) -> (k < N.succ (nextInsertIndex_ s))%N
  | vector_of _ => True
  end.
Proof.
  intros Hag Hflag Hd'.
  destruct (settled_dictionaries s e Hag Hflag) as (Hid1 & Hid2 & Hdom & Hlow).
  pose proof (agrees_keys _ _ _ Hag) as Hkeys.
  pose proof (agrees_containers _ _ _ Hag) as Hwf. unfold container_wf in Hwf.
  set (n := nextInsertIndex_ s) in *.
  destruct (matrix_ s) as [v|m].
  - (* the dictionaries are vectors *)
    destruct Hwf as (_ & _ & Hpre1).
    assert (dom (indexToRow_ s) = dom (rowToIndex_ s)) as Hdoms.
    { apply set_eq. intros k. rewrite !elem_of_dom. apply Hdom. }
    pose proof (prefix_keys_dom _ _ Hdoms Hpre1) as Hpre2.
    pose proof (dictionary_size_dom _ _ Hdoms) as Hsize.
    pose proof (extend_dictionaries_lookup n (indexToRow_ s, rowToIndex_ s)
                  Hpre1 Hpre2 Hsize) as Hlook.
    rewrite <- Hd' in Hlook. simpl in Hlook. unfold extended in Hlook.
    rewrite <- Hsize in Hlook.
    split; [|split; [|split; [|split; [|split; [|done]]]]].
    + intros k Hk. destruct (Hlook k) as [-> ->].
      destruct (k <? dictionary_size (indexToRow_ s))%N eqn:E.
      * apply N.ltb_lt, Hpre1 in E. destruct E as [x Hx].
        pose proof (Hid1 _ _ Hx) as ->. split; [done|].
        by apply (agrees_inverse _ _ _ Hag).
      * by rewrite (proj2 (N.leb_le k n) Hk).
    + intros k x. destruct (Hlook k) as [-> _].
      destruct (k <? dictionary_size (indexToRow_ s))%N; [apply Hid1|].
      destruct (k <=? n)%N; [|done]. by intros [= <-].
    + intros k x. destruct (Hlook k) as [_ ->].
      destruct (k <? dictionary_size (indexToRow_ s))%N; [apply Hid2|].
      destruct (k <=? n)%N; [|done]. by intros [= <-].
    + intros k. destruct (Hlook k) as [-> ->].
      destruct (k <? dictionary_size (indexToRow_ s))%N; [apply Hdom|done].
    + intros k Hk. destruct (Hlook k) as [_ ->].
      apply Hpre2 in Hk. rewrite <- Hsize in Hk.
      by rewrite (proj2 (N.ltb_lt _ _) Hk).
  - (* the dictionaries are maps *)
    assert (indexToRow_ s !! n = None) as Hfresh1.
    { destruct (indexToRow_ s !! n) eqn:E; [|done].
      assert (n < n)%N; [|lia]. apply Hkeys. by rewrite E. }
    assert (rowToIndex_ s !! n = None) as Hfresh2.
    { destruct (rowToIndex_ s !! n) eqn:E; [|done].
      assert (is_Some (indexToRow_ s !! n)) as [? ?]; [|congruence].
      apply Hdom. by rewrite E. }
    unfold emplace in Hd'. rewrite Hfresh1, Hfresh2 in Hd'. subst d'. simpl.
    split; [|split; [|split; [|split; [|split]]]].
    + intros k Hk. rewrite !lookup_insert. destruct (decide (n = k)) as [->|Hne]; [done|].
      apply Hlow. lia.
    + intros k x. rewrite lookup_insert. destruct (decide (n = k)) as [->|Hne].
      * by intros [= <-].
      * apply Hid1.
    + intros k x. rewrite lookup_insert. destruct (decide (n = k)) as [->|Hne].
      * by intros [= <-].
      * apply Hid2.
    + intros k. rewrite !lookup_insert_is_Some'. by rewrite Hdom.
    + intros k Hk. rewrite lookup_insert_ne; [done|].
      intros <-. rewrite Hfresh2 in Hk. by destruct Hk.
    + intros k. rewrite lookup_insert_is_Some'. intros [<-|Hk]; [lia|].
      apply Hkeys in Hk. lia.
Qed.

Lemma sim_insert_settled s e boundary dim :
  agrees opts s e -> rowSwapped_ s = false ->
  insertable opts boundary = true -> increasing boundary ->
  (forall r, r ∈ boundary -> (r < nextInsertIndex_ s)%N) ->
  exists s',
    insert_boundary update_up opts boundary dim s = Some (s', nextInsertIndex_ s) /\
    agrees opts s'
      (e ++ [(if dim =? -1 then dimension_of_size boundary else dim, boundary)]).
Proof.
  intros Hag Hflag Hins Hinc Hrows.
  destruct (insert_boundary update_up opts boundary dim s) as [[s' i]|] eqn:Hinsert.
  2:{ exfalso. revert Hinsert. unfold insert_boundary, insert_boundary_at.
      rewrite Hins. simpl. by destruct (matrix_ (order_rows_if_swapped opts s)). }
  pose proof (wf_insert_boundary update_up opts boundary dim s s' i
                (agrees_containers _ _ _ Hag) Hinsert) as Hwf'.
  revert Hinsert. unfold insert_boundary, insert_boundary_at, order_rows_if_swapped.
  rewrite swap_active, Hflag, Hins. cbn [andb negb].
  set (dim' := if dim =? -1 then dimension_of_size boundary else dim).
  set (n := nextInsertIndex_ s) in *.
  set (column := {| dim_ := dim'; column_ := boundary |}).
  pose proof (agrees_containers _ _ _ Hag) as Hwf. unfold container_wf in Hwf.
  pose proof (inserted_dictionaries s e) as Hdicts.
  fold n in Hwf, Hdicts.
  assert (forall (d' : gmap index index * gmap index index)
            (matrix' : column_container),
    d' = match matrix_ s with
         | map_of _ => (emplace n n (indexToRow_ s), emplace n n (rowToIndex_ s))
         | vector_of _ => extend_dictionaries n (indexToRow_ s, rowToIndex_ s)
         end ->
    column_at matrix' n = Some column ->
    (forall c, (c < n)%N -> column_at matrix' c = column_at (matrix_ s) c) ->
    match matrix_ s, matrix' with
    | map_of _, map_of _ | vector_of _, vector_of _ => True
    | _, _ => False
    end ->
    container_wf opts
      {| dim_opt := if activeDimOption opts
                    then update_up (dimension_of_size boundary) (dim_opt s)
                    else dim_opt s;
         indexToRow_ := d'.1; rowToIndex_ := d'.2; rowSwapped_ := rowSwapped_ s;
         pair_opt := pair_opt s; matrix_ := matrix';
         nextInsertIndex_ := N.succ n |} ->
    agrees opts
      {| dim_opt := if activeDimOption opts
                    then update_up (dimension_of_size boundary) (dim_opt s)
                    else dim_opt s;
         indexToRow_ := d'.1; rowToIndex_ := d'.2; rowSwapped_ := rowSwapped_ s;
         pair_opt := pair_opt s; matrix_ := matrix';
         nextInsertIndex_ := N.succ n |}
      (e ++ [(dim', boundary)])) as Hmain.
  { intros d' matrix' Hd' Hnew Hold Hshape Hwf1.
    destruct (Hdicts d' Hag Hflag Hd') as (D1 & D2 & D3 & D4 & D5 & D6).
    pose proof (agrees_count _ _ _ Hag) as Hcount. fold n in Hcount.
    constructor;
      cbn [nextInsertIndex_ matrix_ indexToRow_ rowToIndex_ rowSwapped_ dim_opt
           pair_opt].
    - rewrite length_app. simpl. lia.
    - intros c ecol Hc.
      destruct (decide (c = n)) as [->|Hne].
      + rewrite list_lookup_middle in Hc by lia. injection Hc as <-.
        exists column. split; [done|]. unfold column_agrees.
        cbn [rowToIndex_ nextInsertIndex_ fst snd dim_ column_ column].
        split; [done|]. split; [done|]. split; [done|]. split; [|split].
        * intros x Hx. destruct (D1 x) as [_ ->]; [|done].
          specialize (Hrows x Hx). lia.
        * intros r. split.
          -- intros Hr. exists r. split; [done|]. apply D1.
             specialize (Hrows r Hr). lia.
          -- intros (x & Hx & Hxr). by rewrite (D3 _ _ Hxr).
        * intros r Hr. specialize (Hrows r Hr). lia.
      + assert (c < n)%N as Hlt.
        { apply lookup_lt_Some in Hc. rewrite length_app in Hc. simpl in Hc. lia. }
        rewrite lookup_app_l in Hc by lia.
        destruct (agrees_columns _ _ _ Hag c ecol Hc) as (col & Hcol & Hca).
        exists col. rewrite Hold by done. split; [done|].
        destruct Hca as (Hdim & Hcinc & Heinc & Hdict & Hmem & Hbound).
        unfold column_agrees. cbn [rowToIndex_ nextInsertIndex_].
        split; [done|]. split; [done|]. split; [done|]. split; [|split].
        * intros x Hx. rewrite D5 by (by apply Hdict). by apply Hdict.
        * intros r. rewrite Hmem. split; intros (x & Hx & Hxr); exists x;
            (split; [done|]).
          -- rewrite D5; [done|]. by apply Hdict.
          -- rewrite D5 in Hxr; [done|]. by apply Hdict.
        * intros r Hr. specialize (Hbound r Hr). fold n in Hbound. lia.
    - intros k x. split; intros Hkx.
      + pose proof (D2 _ _ Hkx) as ->.
        assert (is_Some (d'.2 !! k)) as [y Hy] by (apply D4; by rewrite Hkx).
        by rewrite (D3 _ _ Hy) in Hy.
      + pose proof (D3 _ _ Hkx) as ->.
        assert (is_Some (d'.1 !! x)) as [y Hy] by (apply D4; by rewrite Hkx).
        by rewrite (D2 _ _ Hy) in Hy.
    - intros k Hk. destruct (D1 k) as [-> _]; [lia|done].
    - intros _ k x Hkx. by apply (D2 k x).
    - destruct (matrix_ s), matrix'; done.
    - exact Hwf1. }
  destruct (matrix_ s) as [v|m] eqn:Hm.
  - destruct Hwf as (Hlen & Hra & Hpre).
    destruct (has_row_access opts) eqn:Hopt.
    + intros [= <- <-]. eexists. split; [reflexivity|]. apply (Hmain _ _ eq_refl); try done.
      * cbn [column_at]. specialize (Hra eq_refl).
        rewrite list_lookup_middle; [done|lia].
      * intros c Hc. cbn [column_at]. apply lookup_app_l. lia.
    + destruct (N.of_nat (length v) <=? n)%N eqn:E.
      * apply N.leb_le in E. intros [= <- <-]. eexists. split; [reflexivity|].
        apply (Hmain _ _ eq_refl); try done.
        -- cbn [column_at]. rewrite list_lookup_middle; [done|lia].
        -- intros c Hc. cbn [column_at]. apply lookup_app_l. lia.
      * apply N.leb_gt in E. intros [= <- <-]. eexists. split; [reflexivity|].
        apply (Hmain _ _ eq_refl); try done.
        -- cbn [column_at]. apply list_lookup_insert_eq. lia.
        -- intros c Hc. cbn [column_at]. apply list_lookup_insert_ne. lia.
  - assert (m !! n = None) as Hfresh.
    { destruct (m !! n) eqn:E; [|done].
      assert (n < n)%N; [|lia]. apply Hwf. by rewrite E. }
    intros [= <- <-]. eexists. split; [reflexivity|].
    apply (Hmain _ _ eq_refl); try done.
    + cbn [column_at]. unfold emplace. rewrite Hfresh. apply lookup_insert_eq.
    + intros c Hc. cbn [column_at]. unfold emplace. rewrite Hfresh.
      apply lookup_insert_ne. lia.
Qed.

Lemma sim_insert_boundary s e boundary dim e' o :
  agrees opts s e ->
  insertable opts boundary = true ->
  Reference.serve opts (call_insert_boundary boundary dim) e = Some (e', o) ->
  exists s', serve_request (call_insert_boundary boundary dim) s = Some (s', o) /\
             agrees opts s' e'.
Proof.
  intros Hag Hins. simpl.
  destruct (Reference.increasingb boundary) eqn:Hinc; simpl; [|done].
  destruct (forallb _ boundary) eqn:Hrows; [|done]. intros [= <- <-].
  apply increasingb_increasing in Hinc. rewrite forallb_forall in Hrows.
  destruct (agrees_order_rows_if_swapped s e Hag) as [Hag' Hflag].
  destruct (sim_insert_settled (order_rows_if_swapped opts s) e boundary dim
              Hag' Hflag Hins Hinc) as (s' & Hs' & Hag'').
  { intros r Hr. rewrite (agrees_count _ _ _ Hag'). apply N.ltb_lt.
    by apply Hrows, list_elem_of_In. }
  rewrite insert_boundary_order_rows in Hs'. rewrite Hs'. simpl.
  exists s'. split; [|done]. do 3 f_equal.
  rewrite (agrees_count _ _ _ Hag'). done.
Qed.

(** The removal of the last column, from a matrix whose index is already
    decremented. *)
Lemma sim_remove_last_column s0 s1 rest re d next :
  agrees opts s0 (rest ++ [re]) ->
  forallb (fun col => negb (Reference.has_row (N.of_nat (length rest)) col)) rest = true ->
  next = N.pred (nextInsertIndex_ s0) ->
  s1 = {| dim_opt := d; indexToRow_ := indexToRow_ s0;
          rowToIndex_ := rowToIndex_ s0; rowSwapped_ := rowSwapped_ s0;
          pair_opt := pair_opt s0; matrix_ := matrix_ s0;
          nextInsertIndex_ := next |} ->
  exists removed s',
    column_at (matrix_ s1) next = Some removed /\
    column_agrees s0 removed re /\
    (forall p : Z,
     (matrix ←
       match matrix_ s1 with
       | map_of m => Some (map_of (delete next m))
       | vector_of v =>
           if has_row_access opts then
             if (N.succ next =? N.of_nat (length v))%N
             then Some (vector_of (take (N.to_nat next) v))
             else None
           else Some (vector_of (<[N.to_nat next := clear removed]> v))
       end;
     s ← erase_row opts next (with_matrix s1 matrix);
     Some ({| dim_opt := dim_opt s; indexToRow_ := indexToRow_ s;
              rowToIndex_ := rowToIndex_ s; rowSwapped_ := rowSwapped_ s;
              pair_opt := if activePairingOption opts
                          then pairing_remove_last next (pair_opt s)
                          else pair_opt s;
              matrix_ := matrix_ s; nextInsertIndex_ := nextInsertIndex_ s |},
           p)) = Some (s', p)) /\
    agrees opts s' rest.
Proof.
  intros Hag Hnone Hnext ->.
  pose proof (agrees_count _ _ _ Hag) as Hcount.
  rewrite length_app in Hcount. simpl in Hcount.
  assert (next = N.of_nat (length rest)) as Hnext' by lia.
  assert (nextInsertIndex_ s0 = N.succ next) as Hsucc by lia.
  assert ((rest ++ [re]) !! N.to_nat next = Some re) as Hlast.
  { apply list_lookup_middle. lia. }
  destruct (agrees_columns _ _ _ Hag next re Hlast) as (removed & Hcol & Hca).
  destruct (agrees_indices _ _ _ Hag next) as [rowID HrowID]; [lia|].
  pose proof HrowID as HrowID'. apply (agrees_inverse _ _ _ Hag) in HrowID'.
  assert (forall c ecol, rest !! N.to_nat c = Some ecol ->
            (c < next)%N /\ (rest ++ [re]) !! N.to_nat c = Some ecol /\
            next ∉ ecol.2) as Hrest.
  { intros c ecol Hc. pose proof (lookup_lt_Some _ _ _ Hc) as Hlt.
    split; [lia|]. split; [by apply lookup_app_l_Some|].
    rewrite forallb_forall in Hnone.
    specialize (Hnone ecol). rewrite negb_true_iff, <- Hnext' in Hnone.
    intros Hin. apply has_row_elem_of in Hin. rewrite Hnone in Hin; [done|].
    apply list_elem_of_In. by eapply list_elem_of_lookup_2. }
  pose proof (agrees_containers _ _ _ Hag) as Hwf. unfold container_wf in Hwf.
  pose proof (agrees_keys _ _ _ Hag) as Hkeys.
  exists removed. cbn [matrix_]. unfold erase_row. rewrite swap_active.
  (* what the columns left have in common in the two shapes *)
  assert (forall (s' : matrix),
    nextInsertIndex_ s' = next ->
    rowSwapped_ s' = rowSwapped_ s0 ->
    (forall c, (c < next)%N -> column_at (matrix_ s') c = column_at (matrix_ s0) c) ->
    (forall i x, indexToRow_ s' !! i = Some x <-> rowToIndex_ s' !! x = Some i) ->
    (forall i x, indexToRow_ s' !! i = Some x -> indexToRow_ s0 !! i = Some x) ->
    (forall i x, rowToIndex_ s' !! x = Some i -> rowToIndex_ s0 !! x = Some i) ->
    (forall i x, i <> next -> indexToRow_ s0 !! i = Some x ->
       indexToRow_ s' !! i = Some x /\ rowToIndex_ s' !! x = Some i) ->
    match matrix_ s' with
    | map_of _ => forall i, is_Some (indexToRow_ s' !! i) -> (i < next)%N
    | vector_of _ => True
    end ->
    container_wf opts s' ->
    agrees opts s' rest) as Hmain.
  { intros s' Hn Hflag Hcols Hinv Hsub1 Hsub2 Hkeep Hk Hwf'.
    constructor.
    - by rewrite Hn.
    - intros c ecol Hc. destruct (Hrest c ecol Hc) as (Hlt & Hc' & Hno).
      destruct (agrees_columns _ _ _ Hag c ecol Hc') as (col & Hcc & Hcca).
      exists col. rewrite Hcols by done. split; [done|].
      destruct Hcca as (Hdim & Hinc & Heinc & Hdict & Hmem & Hbound).
      assert (forall x r, x ∈ column_ col -> rowToIndex_ s0 !! x = Some r ->
                rowToIndex_ s' !! x = Some r) as Hsame.
      { intros x r Hx Hxr. pose proof Hxr as Hxr'.
        apply (agrees_inverse _ _ _ Hag) in Hxr'.
        apply (Hkeep r x); [|done]. intros ->. apply Hno, Hmem. by exists x. }
      split; [done|]. split; [done|]. split; [done|]. split; [|split].
      + intros x Hx. destruct (Hdict x Hx) as [r Hr].
        by rewrite (Hsame x r Hx Hr).
      + intros r. rewrite Hmem. split; intros (x & Hx & Hxr); exists x;
          (split; [done|]).
        * by apply Hsame.
        * by apply Hsub2.
      + intros r Hr. rewrite Hn. specialize (Hbound r Hr).
        assert (r <> next) by (by intros ->). lia.
    - done.
    - intros i Hi. rewrite Hn in Hi.
      destruct (agrees_indices _ _ _ Hag i) as [x Hx]; [lia|].
      destruct (Hkeep i x) as [-> _]; [lia|done..].
    - rewrite Hflag. intros Hf i x Hix. apply Hsub1 in Hix.
      by apply (agrees_settled _ _ _ Hag Hf i x).
    - destruct (matrix_ s'); [done|]. by rewrite Hn.
    - done. }
  destruct (matrix_ s0) as [v|m] eqn:Hshape.
  - (* the columns are in a vector: the dictionaries stay *)
    destruct Hwf as (Hlen & Hra & Hpre).
    assert (forall v', length v' = (if has_row_access opts then N.to_nat next
                                    else length v) ->
              (forall c, (c < next)%N -> v' !! N.to_nat c = v !! N.to_nat c) ->
              agrees opts
                {| dim_opt := d; indexToRow_ := indexToRow_ s0;
                   rowToIndex_ := rowToIndex_ s0; rowSwapped_ := rowSwapped_ s0;
                   pair_opt := if activePairingOption opts
                               then pairing_remove_last next (pair_opt s0)
                               else pair_opt s0;
                   matrix_ := vector_of v'; nextInsertIndex_ := next |} rest)
      as Hvec.
    { intros v' Hlen' Hsame. apply Hmain; cbn; try done.
      - apply (agrees_inverse _ _ _ Hag).
      - intros i x _ Hix. split; [done|]. by apply (agrees_inverse _ _ _ Hag).
      - unfold container_wf. cbn. rewrite Hlen'. split; [|split; [|done]].
        + destruct (has_row_access opts); lia.
        + intros ->. lia. }
    destruct (has_row_access opts) eqn:Hopt.
    + specialize (Hra eq_refl).
      rewrite (proj2 (N.eqb_eq _ _)) by lia. cbn. rewrite HrowID. cbn.
      eexists. split; [done|]. split; [done|]. split; [intros p; reflexivity|].
      apply Hvec.
      * rewrite length_take. lia.
      * intros c Hc. apply lookup_take_lt. lia.
    + cbn. rewrite HrowID. cbn.
      eexists. split; [done|]. split; [done|]. split; [intros p; reflexivity|].
      apply Hvec.
      * by rewrite length_insert.
      * intros c Hc. apply list_lookup_insert_ne. lia.
  - (* the columns are in a map: the pair of the face leaves the dictionaries *)
    cbn. rewrite HrowID. cbn.
    eexists. split; [done|]. split; [done|]. split; [intros p; reflexivity|].
    apply Hmain; cbn; try done.
    + intros c Hc. apply lookup_delete_ne. lia.
    + intros i x. rewrite !lookup_delete_Some. split.
      * intros [Hne Hix]. pose proof Hix as Hxi.
        apply (agrees_inverse _ _ _ Hag) in Hxi. split; [|done].
        intros <-. congruence.
      * intros [Hne Hxi]. pose proof Hxi as Hix.
        apply (agrees_inverse _ _ _ Hag) in Hix. split; [|done].
        intros <-. congruence.
    + intros i x. rewrite lookup_delete_Some. by intros [_ ?].
    + intros i x. rewrite lookup_delete_Some. by intros [_ ?].
    + intros i x Hne Hix. rewrite !lookup_delete_Some.
      split; [done|]. pose proof Hix as Hxi.
      apply (agrees_inverse _ _ _ Hag) in Hxi. split; [|done].
      intros <-. congruence.
    + intros i [x Hx]. apply lookup_delete_Some in Hx as [Hne Hx].
      assert (i < nextInsertIndex_ s0)%N; [|lia].
      apply Hkeys. by rewrite Hx.
    + unfold container_wf. cbn. intros k [x Hx].
      apply lookup_delete_Some in Hx as [Hne Hx].
      assert (k < nextInsertIndex_ s0)%N; [|lia].
      apply Hwf. by rewrite Hx.
Qed.

Lemma column_pivot_agrees (col : Z2_vector_column) (ecol : Z * list index) :
  column_ col = ecol.2 -> column_pivot col = Reference.pivot_of ecol.
Proof. unfold column_pivot, Reference.pivot_of. by intros ->. Qed.

Lemma empty_column_agrees s col ecol :
  column_agrees s col ecol -> column_ col = [] -> column_ col = ecol.2.
Proof.
  destruct ecol as [dm rows]. intros (_ & _ & _ & _ & Hmem & _) Hnil.
  rewrite Hnil in *. simpl in *. destruct rows as [|r l]; [done|].
  destruct (proj1 (Hmem r)) as (x & Hx & _); [left|].
  by apply not_elem_of_nil in Hx.
Qed.

Lemma bind_Some_eq {A B} (m : option A) (f : A -> option B) a r :
  m = Some a -> f a = r -> m ≫= f = r.
Proof. by intros -> <-. Qed.

Lemma sim_remove_last s e e' o :
  agrees opts s e ->
  Reference.serve opts call_remove_last e = Some (e', o) ->
  exists s', serve_request call_remove_last s = Some (s', o) /\ agrees opts s' e'.
Proof.
  intros Hag. cbn [Reference.serve serve].
  pose proof (agrees_count _ _ _ Hag) as Hcount.
  destruct (last e) as [re|] eqn:Hlast.
  - apply last_Some in Hlast as [rest ->].
    rewrite length_app in *. cbn [length] in *. rewrite Nat.add_1_r in *.
    cbn [Nat.pred]. rewrite take_app_length.
    replace (N.pred (N.of_nat (S (length rest)))) with (N.of_nat (length rest)) by lia.
    destruct (forallb _ rest) eqn:Hnone; [|done]. intros [= <- <-].
    destruct (agrees_columns _ _ _ Hag (N.pred (nextInsertIndex_ s)) re)
      as (removed0 & Hcol0 & Hca0).
    { apply list_lookup_middle. lia. }
    unfold remove_last. rewrite (proj2 (N.eqb_neq _ _)) by lia.
    rewrite Hcol0. cbn [mbind option_bind]. rewrite swap_active.
    cbn [andb rowSwapped_].
    set (d := if activeDimOption opts then _ else _).
    destruct (rowSwapped_ s && negb (column_pivot removed0 =? -1)) eqn:Hcond.
    + (* a permutation is pending and the column is not empty *)
      destruct (sim_remove_last_column (_orderRows s) _ rest re d
                  (N.pred (nextInsertIndex_ s)) (agrees_orderRows s _ Hag)
                  Hnone eq_refl eq_refl)
        as (removed & s' & Hcol & Hca & Htail & Hag').
      exists s'. split; [|done].
      eapply bind_Some_eq;
        [eapply bind_Some_eq; [exact Hcol|exact (Htail _)]|].
      cbn. rewrite (column_pivot_agrees removed re); [done|].
      by apply (settled_column (_orderRows s) (rest ++ [re]));
        [apply agrees_orderRows| |].
    + destruct (sim_remove_last_column s _ rest re d
                  (N.pred (nextInsertIndex_ s)) Hag Hnone eq_refl eq_refl)
        as (removed & s' & Hcol & Hca & Htail & Hag').
      exists s'. split; [|done].
      eapply bind_Some_eq;
        [eapply bind_Some_eq; [exact Hcol|exact (Htail _)]|].
      cbn. rewrite (column_pivot_agrees removed re); [done|].
      cbn in Hcol. rewrite Hcol0 in Hcol. injection Hcol as <-.
      destruct (rowSwapped_ s) eqn:Hflag.
      * (* the column removed is empty *)
        simpl in Hcond. apply negb_false_iff, Z.eqb_eq in Hcond.
        apply (empty_column_agrees s); [done|].
        unfold column_pivot in Hcond.
        destruct (last (column_ removed0)) eqn:El; [lia|].
        by apply last_None in El.
      * by apply (settled_column s (rest ++ [re])).
  - apply last_None in Hlast. subst e. intros [= <- <-].
    unfold remove_last. simpl in Hcount. rewrite Hcount. cbn.
    by exists s.
Qed.

(** Every request the reference serves, the matrix serves with the same
    result, and the two still agree. *)
Lemma sim_serve r s e e' o :
  agrees opts s e ->
  defined_request opts r = true ->
  Reference.serve opts r e = Some (e', o) ->
  exists s', serve_request r s = Some (s', o) /\ agrees opts s' e'.
Proof.
  destruct r; intros Hag Hdefined; revert Hag.
  - intros Hag. by apply sim_insert_boundary.
  - apply sim_swap_rows.
  - apply sim_add_to.
  - apply sim_remove_last.
  - apply sim_get_column.
  - apply sim_get_row.
  - apply sim_get_pivot.
  - apply sim_is_zero_cell.
Qed.

Lemma sim_serve_all reqs s e e' obs :
  agrees opts s e ->
  forallb (defined_request opts) reqs = true ->
  Reference.serve_all opts reqs e = Some (e', obs) ->
  exists s', serve_all update_up update_down pairing_remove_last opts reqs s
               = Some (s', obs) /\
             agrees opts s' e'.
Proof.
  revert s e e' obs. induction reqs as [|r reqs IH]; intros s e e' obs Hag Hdef.
  - intros [= <- <-]. by exists s.
  - cbn [forallb] in Hdef. apply andb_true_iff in Hdef as [Hr0 Hdef].
    cbn [Reference.serve_all serve_all].
    destruct (Reference.serve opts r e) as [[e1 o]|] eqn:Hr; [|done].
    destruct (sim_serve r s e e1 o Hag Hr0 Hr) as (s1 & Hs1 & Hag1).
    rewrite Hs1. cbn [mbind option_bind].
    destruct (Reference.serve_all opts reqs e1) as [[e2 os]|] eqn:Hrs; [|done].
    destruct (IH s1 e1 e2 os Hag1 Hdef Hrs) as (s2 & Hs2 & Hag2).
    rewrite Hs2. cbn. intros [= <- <-]. by exists s2.
Qed.

Lemma agrees_empty (dim0 : Dimension_option) (pair0 : Pairing_option) with_map :
  agrees opts (empty_matrix dim0 pair0 with_map) [].
Proof.
  constructor; cbn.
  - done.
  - intros c ecol Hc. by rewrite lookup_nil in Hc.
  - intros i x. by rewrite !lookup_empty.
  - intros i Hi. lia.
  - intros _ i x. by rewrite lookup_empty.
  - destruct with_map; [|done]. intros i. rewrite lookup_empty. by intros [].
  - apply wf_empty.
Qed.


End Simulation.

(** ** The matrix built from a list of boundaries *)

Section OrderedBoundaries.
Import BoundaryMatrix Agreement.

Context {Dimension_option Pairing_option : Type}.
Variable update_up : Z -> Dimension_option -> Dimension_option.
Variable opts : Options.
Hypothesis swap_active : activeSwapOption opts = true.

Lemma lookup_identity_below n k :
  identity_below n !! k = if (k <? n)%N then Some k else None.
Proof.
  unfold identity_below.
  assert (forall l : list index,
            foldr (fun k d => <[k := k]> d) (∅ : gmap index index) l !! k
            = if bool_decide (k ∈ l) then Some k else None) as ->.
  { induction l as [|x l IH]; cbn [foldr].
    - rewrite lookup_empty. case_bool_decide as Hk; [|done].
      by apply elem_of_nil in Hk.
    - destruct (decide (x = k)) as [->|Hne].
      + rewrite lookup_insert_eq, bool_decide_eq_true_2; [done|left].
      + rewrite lookup_insert_ne, IH by done.
        destruct (decide (k ∈ l)) as [Hk|Hk].
        * rewrite !bool_decide_eq_true_2; [done|by right|done].
        * rewrite !bool_decide_eq_false_2; [done| |done].
          intros [Hx|Hx]%elem_of_cons; done. }
  case_bool_decide as Hk; rewrite elem_of_seqN in Hk;
    destruct (N.ltb_spec k n); (done || lia).
Qed.

Lemma identity_below_size n : dictionary_size (identity_below n) = n.
Proof.
  apply size_of_prefix_map. intros k. rewrite lookup_identity_below.
  destruct (N.ltb_spec k n); split; (done || lia || by intros []).
Qed.

Lemma identity_below_prefix_keys n : prefix_keys (identity_below n).
Proof.
  intros k. rewrite identity_below_size, lookup_identity_below.
  destruct (N.ltb_spec k n); split; (done || lia || by intros []).
Qed.

Lemma lookup_emplace_columns columns i (m : gmap index Z2_vector_column) k :
  (forall j, is_Some (m !! j) -> (j < i)%N) ->
  emplace_columns i columns m !! k =
    if (k <? i)%N then m !! k else columns !! N.to_nat (k - i).
Proof.
  revert i m. induction columns as [|c columns IH]; intros i m Hm; simpl.
  - destruct (N.ltb_spec k i); [done|].
    destruct (m !! k) eqn:E; [|done].
    assert (k < i)%N by (apply Hm; by rewrite E). lia.
  - assert (m !! i = None) as Hfresh.
    { destruct (m !! i) eqn:E; [|done].
      assert (i < i)%N by (apply Hm; by rewrite E). lia. }
    rewrite IH.
    + unfold emplace. rewrite Hfresh.
      destruct (N.ltb_spec k (N.succ i)), (N.ltb_spec k i); try lia.
      * by rewrite lookup_insert_ne by lia.
      * assert (k = i) as -> by lia. rewrite lookup_insert_eq.
        by replace (N.to_nat (i - i)) with 0%nat by lia.
      * by replace (N.to_nat (k - i)) with (S (N.to_nat (k - N.succ i))) by lia.
    + intros j. unfold emplace. rewrite Hfresh, lookup_insert_is_Some.
      intros [<-|[_ Hj]]; [lia|]. apply Hm in Hj. lia.
Qed.

Lemma column_at_of_ordered_boundaries (dim0 : Dimension_option)
    (pair0 : Pairing_option) with_map orderedBoundaries c :
  column_at
    (matrix_ (of_ordered_boundaries update_up opts dim0 pair0 with_map
                orderedBoundaries)) c
  = (fun boundary => {| dim_ := dimension_of_size boundary; column_ := boundary |})
      <$> orderedBoundaries !! N.to_nat c.
Proof.
  unfold of_ordered_boundaries. cbn [matrix_].
  destruct with_map; cbn [column_at].
  - rewrite lookup_emplace_columns.
    + destruct (N.ltb_spec c 0); [lia|].
      replace (c - 0)%N with c by lia. apply list_lookup_fmap.
    + intros j. rewrite lookup_empty. by intros [].
  - apply list_lookup_fmap.
Qed.

Lemma of_ordered_boundaries_wf (dim0 : Dimension_option) (pair0 : Pairing_option)
    with_map orderedBoundaries :
  container_wf opts
    (of_ordered_boundaries update_up opts dim0 pair0 with_map orderedBoundaries).
Proof.
  unfold container_wf, of_ordered_boundaries.
  cbn [matrix_ nextInsertIndex_ indexToRow_]. rewrite swap_active.
  destruct with_map.
  - intros k. rewrite lookup_emplace_columns.
    + destruct (N.ltb_spec k 0); [lia|]. intros Hk.
      apply lookup_lt_is_Some in Hk. rewrite length_fmap in Hk. lia.
    + intros j. rewrite lookup_empty. by intros [].
  - rewrite length_fmap. split; [lia|]. split; [done|].
    apply identity_below_prefix_keys.
Qed.

Lemma agrees_of_ordered_boundaries (dim0 : Dimension_option) (pair0 : Pairing_option)
    with_map orderedBoundaries :
  Reference.ordered orderedBoundaries = true ->
  agrees opts
    (of_ordered_boundaries update_up opts dim0 pair0 with_map orderedBoundaries)
    (Reference.of_boundaries orderedBoundaries).
Proof.
  intros Hordered. unfold Reference.ordered in Hordered.
  rewrite forallb_forall in Hordered.
  constructor.
  - unfold Reference.of_boundaries. by rewrite length_fmap.
  - intros c ecol. unfold Reference.of_boundaries.
    rewrite list_lookup_fmap, fmap_Some. intros (boundary & Hc & ->).
    exists {| dim_ := dimension_of_size boundary; column_ := boundary |}.
    split; [by rewrite column_at_of_ordered_boundaries, Hc|].
    assert (In boundary orderedBoundaries) as Hin.
    { apply list_elem_of_In. by eapply list_elem_of_lookup_2. }
    apply Hordered in Hin. apply andb_true_iff in Hin as [Hinc Hrows].
    rewrite forallb_forall in Hrows.
    assert (forall r, r ∈ boundary ->
              (r < N.of_nat (length orderedBoundaries))%N) as Hbelow.
    { intros r Hr. apply N.ltb_lt, Hrows. by apply list_elem_of_In. }
    pose proof (increasingb_increasing boundary Hinc) as Hinc'.
    unfold column_agrees, of_ordered_boundaries.
    cbn [dim_ column_ fst snd rowToIndex_ nextInsertIndex_].
    rewrite swap_active.
    split; [done|]. split; [done|]. split; [done|]. split; [|split].
    + intros x Hx. rewrite lookup_identity_below.
      apply Hbelow, N.ltb_lt in Hx. by rewrite Hx.
    + intros r. split.
      * intros Hr. exists r. split; [done|]. rewrite lookup_identity_below.
        apply Hbelow, N.ltb_lt in Hr. by rewrite Hr.
      * intros (x & Hx & Hxr). rewrite lookup_identity_below in Hxr.
        destruct (x <? N.of_nat (length orderedBoundaries))%N; [|done].
        by injection Hxr as <-.
    + exact Hbelow.
  - intros i x. unfold of_ordered_boundaries.
    cbn [indexToRow_ rowToIndex_]. rewrite swap_active, !lookup_identity_below.
    destruct (N.ltb_spec i (N.of_nat (length orderedBoundaries))),
             (N.ltb_spec x (N.of_nat (length orderedBoundaries)));
      split; intros [= ->]; (done || lia).
  - intros i. unfold of_ordered_boundaries.
    cbn [indexToRow_ nextInsertIndex_]. rewrite swap_active, lookup_identity_below.
    intros Hi. apply N.ltb_lt in Hi. by rewrite Hi.
  - intros _ i x. unfold of_ordered_boundaries.
    cbn [indexToRow_]. rewrite swap_active, lookup_identity_below.
    destruct (i <? _)%N; [|done]. by intros [= ->].
  - unfold of_ordered_boundaries. cbn [matrix_ indexToRow_ nextInsertIndex_].
    rewrite swap_active. destruct with_map; [|done].
    intros i. rewrite lookup_identity_below.
    destruct (N.ltb_spec i (N.of_nat (length orderedBoundaries))); [done|].
    by intros [].
  - apply of_ordered_boundaries_wf.
Qed.

End OrderedBoundaries.

(** ** Reads after swaps *)

Section ReadsAfterSwaps.
Import BoundaryMatrix Agreement.

Context {Dimension_option Pairing_option : Type}.
Variable update_up : Z -> Dimension_option -> Dimension_option.
Variable update_down : Z -> Dimension_option -> Dimension_option.
Variable pairing_remove_last : index -> Pairing_option -> Pairing_option.

(** C4. With the swap option active, what a client reads is consistent
    with every swap requested before. The matrix is built from any list of
    sorted boundaries that name faces of the list, in any configuration
    of the options. Whatever the requests that follow (insertions, swaps
    of rows, additions, removals, reads), as long as the language defines
    each call and the reference matrix accepts them, the matrix serves
    them and returns at each one what the reference returns, the reference
    being the matrix whose rows are swapped in every column as soon as the
    swap is requested; and every defined request after them, so every
    [get_column], [get_row], [get_pivot] and [is_zero_cell], returns what
    the reference returns: the row indices read are never those of before
    a swap. *)
Theorem reads_consistent_with_swaps (opts : Options) (dim0 : Dimension_option)
    (pair0 : Pairing_option) (with_map : bool)
    (orderedBoundaries : list (list index)) (reqs : list request)
    (e : Reference.matrix) (obs : list observation) :
  activeSwapOption opts = true ->
  Reference.ordered orderedBoundaries = true ->
  forallb (defined_request opts) reqs = true ->
  Reference.serve_all opts reqs (Reference.of_boundaries orderedBoundaries)
    = Some (e, obs) ->
  exists s,
    serve_all update_up update_down pairing_remove_last opts reqs
      (of_ordered_boundaries update_up opts dim0 pair0 with_map orderedBoundaries)
      = Some (s, obs) /\
    forall r e' o,
      defined_request opts r = true ->
      Reference.serve opts r e = Some (e', o) ->
      exists s', serve update_up update_down pairing_remove_last opts r s
                   = Some (s', o).
Proof.
  intros Hswap Hordered Hdefined Hreqs.
  destruct (sim_serve_all update_up update_down pairing_remove_last opts Hswap
              reqs
              (of_ordered_boundaries update_up opts dim0 pair0 with_map
                 orderedBoundaries)
              (Reference.of_boundaries orderedBoundaries) e obs
              (agrees_of_ordered_boundaries update_up opts Hswap dim0 pair0
                 with_map orderedBoundaries Hordered)
              Hdefined Hreqs)
    as (s & Hs & Hag).
  exists s. split; [done|]. intros r e' o Hr0 Hr.
  destruct (sim_serve update_up update_down pairing_remove_last opts Hswap
              r s e e' o Hag Hr0 Hr) as (s' & Hs' & _).
  by exists s'.
Qed.

End ReadsAfterSwaps.

Section ReadsAfterSwapsExample.
Import BoundaryMatrix.

(** Rows accessed and not removable: the matrix is built from three
    vertices and the edges 0-1 and 1-2; the rows 0 and 2 are swapped, which
    is only recorded; the pivot of the first edge is then 2, the cell of
    row 0 in the second edge is not zero and row 2 is that of the first
    edge; the insertion of a column over the two edges applies the swap
    to the columns, and the second edge still reads 0 and 1. *)
Lemma reads_consistent_with_swaps_witness :
  let opts := mk_options true false true true false in
  let orderedBoundaries := [[]; []; []; [0; 1]%N; [1; 2]%N] in
  let reqs :=
    [call_swap_rows 0 2; call_get_pivot 3; call_is_zero_cell 4 0;
     call_get_column 3; call_get_row 2; call_insert_boundary [3; 4]%N (-1);
     call_get_column 4] in
  let e := [(0, []); (0, []); (0, []); (1, [1; 2]%N); (1, [0; 1]%N);
            (1, [3; 4]%N)] in
  let obs :=
    [nothing; pivot_value 2; truth false; column_content 1 [1; 2]%N;
     row_content [3%N]; mat_index 5; column_content 1 [0; 1]%N] in
  exists s,
    serve_all DimensionHolder.update_up DimensionHolder.update_down
      (fun (_ : index) (p : unit) => p) opts reqs
      (of_ordered_boundaries DimensionHolder.update_up opts ∅ tt false
         orderedBoundaries)
      = Some (s, obs) /\
    forall r e' o,
      defined_request opts r = true ->
      Reference.serve opts r e = Some (e', o) ->
      exists s', serve DimensionHolder.update_up DimensionHolder.update_down
                   (fun (_ : index) (p : unit) => p) opts r s = Some (s', o).
Proof.
  intros opts orderedBoundaries reqs e obs.
  apply (reads_consistent_with_swaps DimensionHolder.update_up
           DimensionHolder.update_down (fun (_ : index) (p : unit) => p) opts
           ∅ tt false orderedBoundaries reqs e obs).
  - reflexivity.
  - reflexivity.
  - reflexivity.
  - vm_compute. reflexivity.
Defined.

End ReadsAfterSwapsExample.


(** * Part III. More of the code *)

(** ** The field elements and [unsigned int] operands *)

Section MultiFieldScalars.
Import MultiField.

Variable N : Z.
Hypothesis N_pos : 0 < N.
Hypothesis N_fits : N <= UINT_MAX.

Lemma unsigned_minus_spec v e :
  0 <= v <= UINT_MAX -> 0 <= e < N -> unsigned_minus N v e = (v - e) mod N.
Proof using N_pos N_fits.
  unfold UINT_MAX in *. intros Hv He. unfold unsigned_minus.
  assert (0 <= v mod N < N) as Hr by (apply Z.mod_pos_bound; lia).
  assert (exists r, 0 <= r < N /\ r mod N = v mod N /\
                    (if N <=? v then v mod N else v) = r) as (r & Hr' & Hrv & ->).
  { destruct (N <=? v) eqn:E.
    - exists (v mod N). by rewrite Z.mod_mod by lia.
    - apply Z.leb_gt in E. exists v. repeat split; lia. }
  rewrite Zminus_mod, <- Hrv, <- Zminus_mod.
  destruct (r <? e) eqn:E.
  - apply Z.ltb_lt in E.
    destruct (Z_lt_le_dec (r + N) 4294967296) as [Hs|Hs].
    + rewrite (wrap_small (r + N)) by lia. rewrite wrap_small by lia.
      rewrite (mod_shift N 1) by lia. lia.
    + rewrite (wrap_shift (-1) (r + N)) by lia.
      rewrite (wrap_shift 1) by lia.
      rewrite (mod_shift N 1) by lia. lia.
  - apply Z.ltb_ge in E. rewrite wrap_small by lia.
    rewrite (mod_shift N 0) by lia. lia.
Qed.

Lemma unsigned_times_spec v e :
  0 <= v -> 0 <= e < N -> unsigned_times N v e = (v * e) mod N.
Proof using N_pos N_fits.
  intros Hv He. unfold unsigned_times. destruct v as [|a|a]; [|
    |lia].
  - by rewrite Z.mod_0_l by lia.
  - rewrite (multiply_loop_spec N N_fits) by lia. f_equal.
Qed.

Lemma unsigned_plus_spec v e :
  0 <= v <= UINT_MAX -> 0 <= e < N ->
  unsigned_plus N v e =
  if v + e <=? UINT_MAX then (v + e) mod N else (v + e - 4294967296) mod N.
Proof using N_pos N_fits.
  unfold UINT_MAX in *. intros Hv He. unfold unsigned_plus.
  destruct (v + e <=? 4294967295) eqn:E.
  - apply Z.leb_le in E. by rewrite wrap_small by lia.
  - apply Z.leb_gt in E. by rewrite (wrap_shift (-1)) by lia.
Qed.

End MultiFieldScalars.

Section MultiFieldScalarClaims.
Import MultiField.

(** X1. [v - f] and [v * f], with [v] any [unsigned int] on the left and
    [f] a field element, are the difference and the product modulo the
    characteristic [N], whatever the size of [v]: the subtraction reduces
    [v] first, the multiplication reads [v] digit by digit and keeps the
    running sum below [N]. *)
Theorem unsigned_minus_times_modular (N v e : Z) :
  0 < N <= UINT_MAX -> 0 <= v <= UINT_MAX -> 0 <= e < N ->
  unsigned_minus N v e = (v - e) mod N /\
  unsigned_times N v e = (v * e) mod N.
Proof.
  intros [HN HN'] Hv He. split.
  - by apply unsigned_minus_spec.
  - apply unsigned_times_spec; [done..|lia|done].
Qed.

Lemma unsigned_minus_times_modular_witness :
  unsigned_minus 4294967291 4294967295 4294967290 =
    (4294967295 - 4294967290) mod 4294967291 /\
  unsigned_times 4294967291 4294967295 4294967290 =
    (4294967295 * 4294967290) mod 4294967291.
Proof.
  apply unsigned_minus_times_modular; unfold UINT_MAX; lia.
Defined.

(** X2. [v + f] with an [unsigned int] on the left adds before it
    reduces: the result is the sum modulo [N] as long as [v + f.element_]
    fits in an [unsigned int]; when it does not, 2^32 is lost before the
    reduction, and the result is the sum modulo [N] only if [N] divides
    2^32. *)
Theorem unsigned_plus_modular_unless_overflow (N v e : Z) :
  0 < N <= UINT_MAX -> 0 <= v <= UINT_MAX -> 0 <= e < N ->
  0 <= unsigned_plus N v e < N /\
  (v + e <= UINT_MAX -> unsigned_plus N v e = (v + e) mod N) /\
  (UINT_MAX < v + e ->
   (unsigned_plus N v e = (v + e) mod N <-> (N | 4294967296))).
Proof.
  intros [HN HN'] Hv He. rewrite unsigned_plus_spec by done.
  split; [|split].
  - destruct (v + e <=? UINT_MAX); apply Z.mod_pos_bound; lia.
  - intros H. by rewrite (proj2 (Z.leb_le _ _) H).
  - intros H. rewrite (proj2 (Z.leb_gt _ _) H).
    rewrite Z.cong_iff_0 by lia.
    replace (v + e - 4294967296 - (v + e)) with (- (4294967296)) by lia.
    rewrite Z.mod_divide by lia. split.
    + intros [k Hk]. exists (- k). lia.
    + intros [k Hk]. exists (- k). lia.
Qed.

Lemma unsigned_plus_modular_unless_overflow_witness :
  0 <= unsigned_plus 3 4294967295 2 < 3 /\
  (4294967295 + 2 <= UINT_MAX ->
   unsigned_plus 3 4294967295 2 = (4294967295 + 2) mod 3) /\
  (UINT_MAX < 4294967295 + 2 ->
   (unsigned_plus 3 4294967295 2 = (4294967295 + 2) mod 3 <-> (3 | 4294967296))).
Proof.
  apply unsigned_plus_modular_unless_overflow; unfold UINT_MAX; lia.
Defined.

(** X3. [f += v], [f -= v] and [f *= v] with an [unsigned int] [v] of any
    size store the sum, the difference and the product modulo [N]: [v] is
    reduced before the operation. *)
Theorem compound_unsigned_modular (N e v : Z) :
  0 < N <= UINT_MAX -> 0 <= e < N -> 0 <= v ->
  add_assign_unsigned N e v = (e + v) mod N /\
  sub_assign_unsigned N e v = (e - v) mod N /\
  mul_assign_unsigned N e v = (e * v) mod N.
Proof.
  intros [HN HN'] He Hv.
  assert (0 <= v mod N < N) as Hr by (apply Z.mod_pos_bound; lia).
  unfold add_assign_unsigned, sub_assign_unsigned, mul_assign_unsigned.
  rewrite _add_spec, _substract_spec, _multiply_spec by done.
  rewrite Zplus_mod_idemp_r, Zminus_mod_idemp_r, Zmult_mod_idemp_r. done.
Qed.

Lemma compound_unsigned_modular_witness :
  add_assign_unsigned 15 14 4294967295 = (14 + 4294967295) mod 15 /\
  sub_assign_unsigned 15 14 4294967295 = (14 - 4294967295) mod 15 /\
  mul_assign_unsigned 15 14 4294967295 = (14 * 4294967295) mod 15.
Proof.
  apply compound_unsigned_modular; unfold UINT_MAX; lia.
Defined.

(** X4. An element built from an [int] holds the residue of the [int]
    when the [int] is not negative. A negative [int] is converted to
    [unsigned int] before the reduction: the element holds its residue
    only if [N] divides 2^32. *)
Theorem from_int_residue (N z : Z) :
  0 < N <= UINT_MAX -> INT_MIN <= z <= INT_MAX ->
  0 <= from_int N z < N /\
  (0 <= z -> from_int N z = z mod N) /\
  (z < 0 -> (from_int N z = z mod N <-> (N | 4294967296))).
Proof.
  unfold UINT_MAX, INT_MIN, INT_MAX, from_int. intros HN Hz.
  split; [apply Z.mod_pos_bound; lia|]. split.
  - intros H. by rewrite wrap_small by lia.
  - intros H. rewrite (wrap_shift 1) by lia.
    rewrite Z.cong_iff_0 by lia.
    replace (z + 1 * 4294967296 - z) with 4294967296 by lia.
    by rewrite Z.mod_divide by lia.
Qed.

Lemma from_int_residue_witness :
  0 <= from_int 3 (-1) < 3 /\
  (0 <= -1 -> from_int 3 (-1) = (-1) mod 3) /\
  (-1 < 0 -> (from_int 3 (-1) = (-1) mod 3 <-> (3 | 4294967296))).
Proof.
  apply from_int_residue; unfold UINT_MAX, INT_MIN, INT_MAX; lia.
Defined.

(** X5. The comparison of a field element with an [unsigned int] is a
    comparison modulo [N]; an element built from [v] compares equal to
    [v]. *)
Theorem equal_unsigned_modular (N v e : Z) :
  0 < N -> 0 <= v ->
  (equal_unsigned N v e = true <-> v mod N = e) /\
  equal_unsigned N v (from_unsigned N v) = true.
Proof.
  intros HN Hv.
  assert (forall e', equal_unsigned N v e' = true <-> v mod N = e') as Heq.
  { intros e'. unfold equal_unsigned. destruct (v <? N) eqn:E.
    - apply Z.ltb_lt in E. rewrite Z.mod_small by lia. apply Z.eqb_eq.
    - apply Z.eqb_eq. }
  split; [apply Heq|]. by apply Heq.
Qed.

Lemma equal_unsigned_modular_witness :
  (equal_unsigned 15 4294967295 0 = true <-> 4294967295 mod 15 = 0) /\
  equal_unsigned 15 4294967295 (from_unsigned 15 4294967295) = true.
Proof.
  apply equal_unsigned_modular; lia.
Defined.

End MultiFieldScalarClaims.

(** ** The inverse of a field element *)

Section GetInverse.
Import MultiField.

Variable A0 M0 : Z.
Hypothesis A0_pos : 0 < A0.
Hypothesis M0_gt_1 : 1 < M0.
Hypothesis M0_fits : M0 <= INT_MAX.

Lemma int_result_fits z : - M0 <= z <= M0 -> int_result z = Some z.
Proof using M0_fits.
  unfold int_result, INT_MIN, INT_MAX in *. intros Hz.
  by rewrite (proj2 (Z.leb_le _ _)), (proj2 (Z.leb_le _ _)) by lia.
Qed.

Lemma inverse_loop_coprime fuel M A y x :
  bezout_state A0 M0 M A y x -> Z.gcd A M = 1 -> M < Z.of_nat fuel ->
  exists r, inverse_loop fuel M A y x = Some r /\
            - M0 < r < M0 /\ (A0 * r) mod M0 = 1.
Proof using A0_pos M0_gt_1 M0_fits.
  revert M A y x. induction fuel as [|fuel IH]; intros M A y x Hst Hgcd Hfuel.
  { destruct Hst as (HM & _). lia. }
  destruct Hst as (HM & HA & Hx & Hy & Hbound & sign & Hsign & Hsx & Hsy & Heq).
  cbn [inverse_loop]. destruct (1 <? A) eqn:EA.
  2:{ apply Z.ltb_ge in EA. assert (A = 1) as -> by lia.
      exists x. split; [done|]. split; [done|].
      rewrite Hx. apply Z.mod_small. lia. }
  apply Z.ltb_lt in EA.
  assert (M <> 0) as HM0.
  { intros ->. rewrite Z.gcd_0_r_nonneg in Hgcd by lia. lia. }
  rewrite (proj2 (Z.eqb_neq _ _) HM0).
  rewrite Z.quot_div_nonneg, Z.rem_mod_nonneg by lia.
  pose proof (Z.div_mod A M HM0) as Hdiv.
  pose proof (Z.mod_pos_bound A M ltac:(lia)) as Hrem.
  assert (0 <= A / M) as Hq by (apply Z.div_pos; lia).
  set (q := A / M) in *. set (R := A mod M) in *.
  assert (- M0 <= q * y <= M0 /\ - M0 <= x - q * y <= M0) as [Hqy Hxy].
  { destruct Hsign as [-> | ->]; nia. }
  rewrite (int_result_fits (q * y)) by done. cbn [mbind option_bind].
  rewrite (int_result_fits (x - q * y)) by done. cbn [mbind option_bind].
  apply IH;
    [|unfold R; by rewrite Z.gcd_comm, Z.gcd_mod, (Z.gcd_comm M A) by done|lia].
  split; [lia|]. split; [lia|]. split; [done|]. split; [|split].
  - apply Z.cong_iff_ex in Hx as [k1 Hk1]. apply Z.cong_iff_ex in Hy as [k2 Hk2].
    apply Z.cong_iff_ex. exists (k1 - q * k2). nia.
  - destruct Hsign as [-> | ->]; nia.
  - exists (- sign). split; [lia|]. split; [lia|]. split; [nia|].
    destruct Hsign as [-> | ->]; nia.
Qed.

Lemma _get_inverse_coprime fuel :
  A0 <= INT_MAX -> Z.gcd A0 M0 = 1 -> M0 < Z.of_nat fuel ->
  exists r, _get_inverse fuel A0 M0 = Some r /\
            0 <= r < M0 /\ (A0 * r) mod M0 = 1.
Proof using A0_pos M0_gt_1 M0_fits.
  unfold INT_MAX in *. intros HA Hgcd Hfuel. unfold _get_inverse, to_int.
  rewrite (proj2 (Z.ltb_lt M0 _)), (proj2 (Z.ltb_lt A0 _)) by lia.
  assert (bezout_state A0 M0 M0 A0 0 1) as Hst.
  { split; [lia|]. split; [lia|]. split; [f_equal; lia|]. split.
    - rewrite Z.mul_0_r, Z.mod_0_l, Z.mod_same by lia. done.
    - split; [lia|]. exists 1. lia. }
  destruct (inverse_loop_coprime fuel M0 A0 0 1 Hst Hgcd Hfuel)
    as (r & -> & Hr & Hinv).
  cbn [mbind option_bind]. eexists. split; [reflexivity|].
  destruct (r <? 0) eqn:E.
  - apply Z.ltb_lt in E. rewrite wrap_small by lia.
    rewrite (proj2 (Z.ltb_lt (r + M0) _)) by lia. split; [lia|].
    rewrite Z.mul_add_distr_l, Z.mod_add by lia. done.
  - apply Z.ltb_ge in E. split; [lia|done].
Qed.

(** With a common divisor the loop never reaches [A <= 1]: [M] becomes 0
    and the next division is by zero. *)
Lemma inverse_loop_common_divisor fuel M A y x :
  0 <= M -> 0 < A -> 1 < Z.gcd A M -> inverse_loop fuel M A y x = None.
Proof.
  revert M A y x. induction fuel as [|fuel IH]; intros M A y x HM HA Hgcd; [done|].
  cbn [inverse_loop].
  assert (1 < A) as HA1.
  { pose proof (Z.gcd_divide_l A M) as Hdiv.
    apply Z.divide_pos_le in Hdiv; lia. }
  rewrite (proj2 (Z.ltb_lt _ _) HA1).
  destruct (M =? 0) eqn:EM; [done|]. apply Z.eqb_neq in EM.
  rewrite Z.quot_div_nonneg, Z.rem_mod_nonneg by lia.
  destruct (int_result (A / M * y)) as [product|]; [|done]. cbn [mbind option_bind].
  destruct (int_result (x - product)) as [y'|]; [|done]. cbn [mbind option_bind].
  apply IH; [apply Z.mod_pos_bound; lia|lia|].
  by rewrite Z.gcd_comm, Z.gcd_mod, (Z.gcd_comm M A).
Qed.

End GetInverse.

Section GetInverseClaims.
Import MultiField.

(** X6. [_get_inverse(mod)], the extended Euclidean division on [int]s:
    for an element [A0] prime to [mod], both within the range of an
    [int] and [mod] above 1, it returns the inverse of [A0] modulo [mod],
    in [0, mod); no intermediate value leaves the range of an [int] and
    no division is by zero. *)
Theorem _get_inverse_is_inverse (fuel : nat) (A0 M0 : Z) :
  0 < A0 <= INT_MAX -> 1 < M0 <= INT_MAX -> Z.gcd A0 M0 = 1 ->
  M0 < Z.of_nat fuel ->
  exists r, _get_inverse fuel A0 M0 = Some r /\
            0 <= r < M0 /\ (A0 * r) mod M0 = 1.
Proof.
  intros [HA HA'] [HM HM'] Hgcd Hfuel. by apply _get_inverse_coprime.
Qed.

Lemma _get_inverse_is_inverse_witness :
  exists r, _get_inverse 20 7 15 = Some r /\ 0 <= r < 15 /\ (7 * r) mod 15 = 1.
Proof.
  apply _get_inverse_is_inverse; unfold INT_MAX; try lia. reflexivity.
Defined.

(** X7. [_get_inverse(mod)] of an element that has a divisor in common
    with [mod] returns nothing: the loop goes on until [M] is 0 and then
    divides by it. *)
Theorem _get_inverse_common_divisor (fuel : nat) (A0 M0 : Z) :
  0 < A0 <= INT_MAX -> 0 <= M0 <= INT_MAX -> 1 < Z.gcd A0 M0 ->
  _get_inverse fuel A0 M0 = None.
Proof.
  unfold INT_MAX. intros HA HM Hgcd. unfold _get_inverse, to_int.
  rewrite (proj2 (Z.ltb_lt M0 _)), (proj2 (Z.ltb_lt A0 _)) by lia.
  rewrite inverse_loop_common_divisor by (lia || done). done.
Qed.

Lemma _get_inverse_common_divisor_witness : _get_inverse 20 6 15 = None.
Proof.
  apply _get_inverse_common_divisor; unfold INT_MAX; try lia.
  vm_compute. reflexivity.
Defined.

(** X8. [get_inverse()], in a field or a product of fields of
    characteristic [N] within the range of an [int]: the inverse of 0 is
    0, and the inverse of an element prime to [N] is its inverse modulo
    [N]. The tables [primes_] and [partials_] are not read for these
    elements. *)
Theorem get_inverse_of_unit (fuel : nat) (st : field_state) (e : Z) :
  1 < productOfAllCharacteristics_ st <= INT_MAX ->
  productOfAllCharacteristics_ st < Z.of_nat fuel ->
  0 < e < productOfAllCharacteristics_ st ->
  Z.gcd e (productOfAllCharacteristics_ st) = 1 ->
  get_inverse fuel st 0 = Some 0 /\
  exists r, get_inverse fuel st e = Some r /\
            0 <= r < productOfAllCharacteristics_ st /\
            (e * r) mod productOfAllCharacteristics_ st = 1.
Proof.
  set (N := productOfAllCharacteristics_ st). unfold INT_MAX.
  intros HN Hfuel He Hgcd. unfold get_inverse, get_partial_inverse. fold N. split.
  - rewrite Z.gcd_0_l_nonneg by lia. by rewrite Z.eqb_refl.
  - rewrite Hgcd.
    rewrite (proj2 (Z.eqb_neq 1 N)) by lia. cbn [Z.eqb].
    rewrite Z.div_1_r.
    destruct (_get_inverse_coprime e N ltac:(lia) ltac:(lia)
                ltac:(unfold INT_MAX; lia) fuel ltac:(unfold INT_MAX; lia)
                Hgcd Hfuel) as (r & -> & Hr & Hinv).
    cbn [mbind option_bind]. unfold from_unsigned at 1.
    rewrite Z.mod_same by lia. unfold get_partial_multiplicative_identity.
    cbn [Z.eqb mbind option_bind fmap option_fmap option_map]. fold N.
    exists r. split; [|done]. do 2 f_equal.
    unfold mul_assign_unsigned, from_unsigned.
    rewrite _multiply_spec; unfold UINT_MAX; try lia.
    + rewrite Z.mod_1_l, Z.mul_1_l, wrap_small, Z.mod_mod, Z.mod_small by lia.
      done.
    + rewrite Z.mod_1_l by lia. lia.
    + apply Z.mod_pos_bound. lia.
Qed.

Lemma get_inverse_of_unit_witness :
  let st := {| primes_ := [3; 5]; productOfAllCharacteristics_ := 15;
               partials_ := [10; 6] |} in
  get_inverse 20 st 0 = Some 0 /\
  exists r, get_inverse 20 st 7 = Some r /\ 0 <= r < 15 /\ (7 * r) mod 15 = 1.
Proof.
  intros st.
  apply (get_inverse_of_unit 20 st 7); simpl; unfold INT_MAX; try lia.
  reflexivity.
Defined.

End GetInverseClaims.

(** ** The primality test and what [initialize] leaves *)

Section InitializeMore.
Import MultiField.

(** X9. [_is_prime(p)] returns for every [int] [p], and returns [true]
    exactly for the prime numbers; in particular [false] for 0, 1 and
    every negative [p]. *)
Theorem _is_prime_decides_primality (fuel : nat) (p : Z) :
  INT_MIN <= p <= INT_MAX -> p + 2 <= Z.of_nat fuel ->
  exists b, _is_prime fuel p = Some b /\ (b = true <-> Z.prime p) /\
            (p <= 1 -> b = false).
Proof.
  intros _ Hfuel. destruct (_is_prime_returns fuel p Hfuel) as [b Hb].
  exists b. split; [done|]. split; [by apply (_is_prime_correct fuel)|].
  intros Hp. unfold _is_prime in Hb.
  rewrite (proj2 (Z.leb_le _ _) Hp) in Hb. congruence.
Qed.

Lemma _is_prime_decides_primality_witness :
  exists b, _is_prime 100 97 = Some b /\ (b = true <-> Z.prime 97) /\
            (97 <= 1 -> b = false).
Proof.
  apply _is_prime_decides_primality; unfold INT_MIN, INT_MAX; simpl; lia.
Defined.

(** X10. What a call of [initialize(minimum, maximum)] leaves in the
    static members. On success [primes_] holds the primes of the interval
    in increasing order and [partials_] has one entry for each. A
    failure found before the search (maximum below 2, empty interval, a
    single number that is not prime) leaves the members as they were; a
    failure found after the search of a longer interval has already
    emptied [primes_] and set the characteristic to 1. *)
Theorem initialize_static_members (fuel : nat) (st : field_state)
    (minimum maximum : Z) :
  0 <= minimum <= UINT_MAX -> 0 <= maximum < 2147483648 ->
  maximum + 2 <= Z.of_nat fuel ->
  exists o, initialize fuel st minimum maximum = Some o /\
    (thrown o = false ->
       primes_ (state_of o) = primes_between minimum maximum /\
       primes_ (state_of o) <> [] /\
       length (partials_ (state_of o)) = length (primes_ (state_of o))) /\
    (thrown o = true ->
       (maximum < 2 \/ maximum <= minimum -> state_of o = st) /\
       (2 <= maximum -> minimum < maximum ->
        state_of o = {| primes_ := []; productOfAllCharacteristics_ := 1;
                        partials_ := partials_ st |})).
Proof.
  intros Hmin Hmax Hfuel. unfold initialize, UINT_MAX in *.
  destruct (maximum <? 2) eqn:E2.
  { apply Z.ltb_lt in E2. eexists. split; [done|]. simpl. split; [done|].
    intros _. split; [done|lia]. }
  apply Z.ltb_ge in E2.
  destruct (maximum <? minimum) eqn:Elt.
  { apply Z.ltb_lt in Elt. eexists. split; [done|]. simpl. split; [done|].
    intros _. split; [done|lia]. }
  apply Z.ltb_ge in Elt.
  pose proof (collect_primes_spec fuel fuel minimum maximum [] 1) as Hcollect.
  rewrite Hcollect by lia. clear Hcollect. rewrite app_nil_l, Z.mul_1_l.
  destruct (minimum =? maximum) eqn:Eeq.
  - apply Z.eqb_eq in Eeq. subst maximum.
    rewrite to_int_small by lia.
    destruct (_is_prime_returns fuel minimum) as [b Hb]; [lia|].
    rewrite Hb. apply _is_prime_correct in Hb. destruct b; simpl.
    + assert (minimum ∈ primes_between minimum minimum) as Hin.
      { apply elem_of_primes_between. split; [lia|]. by apply Hb. }
      destruct (primes_between minimum minimum) as [|q l] eqn:Epb;
        [by apply not_elem_of_nil in Hin|].
      eexists. split; [done|]. simpl. split; [|done].
      intros _. split; [done|]. split; [done|]. by rewrite length_map.
    + eexists. split; [done|]. simpl. split; [done|].
      intros _. split; [done|lia].
  - apply Z.eqb_neq in Eeq.
    destruct (primes_between minimum maximum) as [|q l] eqn:Epb.
    + eexists. split; [done|]. simpl. split; [done|].
      intros _. split; [lia|]. intros _ _. f_equal.
    + eexists. split; [done|]. simpl. split; [|done].
      intros _. split; [done|]. split; [done|]. by rewrite length_map.
Qed.

Lemma initialize_static_members_witness :
  let st := {| primes_ := [7]; productOfAllCharacteristics_ := 7;
               partials_ := [1] |} in
  exists o, initialize 20 st 8 10 = Some o /\
    (thrown o = false ->
       primes_ (state_of o) = primes_between 8 10 /\
       primes_ (state_of o) <> [] /\
       length (partials_ (state_of o)) = length (primes_ (state_of o))) /\
    (thrown o = true ->
       (10 < 2 \/ 10 <= 8 -> state_of o = st) /\
       (2 <= 10 -> 8 < 10 ->
        state_of o = {| primes_ := []; productOfAllCharacteristics_ := 1;
                        partials_ := partials_ st |})).
Proof.
  intros st. apply initialize_static_members; unfold UINT_MAX; simpl; lia.
Defined.

End InitializeMore.

(** ** More of [Z2_vector_column] *)

Section Z2VecContent.
Import Z2Vec.

Lemma content_loop_length it n container :
  length (content_loop it n container) = length container.
Proof.
  revert container. induction it as [|row it IH]; intros container; simpl; [done|].
  destruct (row <? n)%N; [|done]. by rewrite IH, length_insert.
Qed.

Lemma content_loop_lookup it n container i :
  increasing it -> length container = N.to_nat n -> (i < n)%N ->
  content_loop it n container !! N.to_nat i =
  if decide (i ∈ it) then Some true else container !! N.to_nat i.
Proof.
  revert container. induction it as [|row it IH]; intros container Hinc Hlen Hi.
  { simpl. destruct (decide (i ∈ [])) as [Hin|_]; [|done].
    by apply not_elem_of_nil in Hin. }
  apply increasing_cons_inv in Hinc as [Hinc Hrow]. simpl.
  destruct (row <? n)%N eqn:E.
  - apply N.ltb_lt in E. rewrite IH; [|done|by rewrite length_insert|done].
    destruct (decide (i ∈ it)) as [Hin|Hnin].
    + rewrite decide_True; [done|by right].
    + destruct (decide (i = row)) as [->|Hne].
      * rewrite decide_True by left. apply list_lookup_insert_eq. lia.
      * rewrite decide_False.
        -- apply list_lookup_insert_ne. lia.
        -- rewrite elem_of_cons. tauto.
  - apply N.ltb_ge in E. rewrite decide_False; [done|].
    rewrite elem_of_cons. intros [->|Hin]; [lia|].
    rewrite Forall_forall in Hrow. specialize (Hrow i Hin). lia.
Qed.

(** X11. [get_content(columnLength)] of a column sorted by increasing
    row index, for a length that is not negative: a vector of that
    length whose entry [i] tells whether row [i] is in the column; the
    cells at or beyond the length are left out. *)
Theorem get_content_of_increasing_column (c : Z2_vector_column)
    (columnLength : Z) :
  increasing (column_ c) -> 0 <= columnLength ->
  exists container,
    get_content c columnLength = Some container /\
    length container = Z.to_nat columnLength /\
    forall i, Z.of_N i < columnLength ->
      container !! N.to_nat i = Some (is_non_zero c i).
Proof.
  intros Hinc Hlen. unfold get_content.
  rewrite (proj2 (Z.ltb_ge _ _) Hlen). cbn [mbind option_bind].
  rewrite (proj2 (Z.ltb_ge _ _) Hlen).
  eexists. split; [reflexivity|]. split.
  - by rewrite content_loop_length, length_replicate.
  - intros i Hi. rewrite content_loop_lookup; [|done|rewrite length_replicate; lia|lia].
    destruct (decide (i ∈ column_ c)) as [Hin|Hnin].
    + by rewrite (proj2 (is_non_zero_elem_of c i) Hin).
    + rewrite lookup_replicate_2 by lia.
      destruct (is_non_zero c i) eqn:E; [|done].
      by apply is_non_zero_elem_of in E.
Qed.

Lemma get_content_of_increasing_column_witness :
  let c := {| dim_ := 2; column_ := [1; 3; 6]%N |} in
  exists container,
    get_content c 5 = Some container /\
    length container = Z.to_nat 5 /\
    forall i, Z.of_N i < 5 -> container !! N.to_nat i = Some (is_non_zero c i).
Proof.
  intros c. apply get_content_of_increasing_column; [|lia].
  simpl. repeat (constructor; try lia).
Defined.

(** X12. [get_content()] with the default length: on a column with no
    cell the last cell is read all the same and there is no result; on a
    sorted column with last row [pivot] the vector has length
    [pivot + 1], and its last entry is set. *)
Theorem get_content_default_length (c : Z2_vector_column) (pivot : index) :
  increasing (column_ c) ->
  last (column_ c) = Some pivot -> Z.of_N pivot < 2147483647 ->
  get_content (clear c) (-1) = None /\
  exists container,
    get_content c (-1) = Some container /\
    length container = S (N.to_nat pivot) /\
    container !! N.to_nat pivot = Some true /\
    forall i, (i < pivot)%N ->
      container !! N.to_nat i = Some (is_non_zero c i).
Proof.
  intros Hinc Hlast Hfit. split; [done|].
  destruct (get_content_of_increasing_column c (Z.of_N pivot + 1) Hinc)
    as (container & Hc & Hlen & Hbits); [lia|].
  exists container. split; [|split; [|split]].
  - rewrite <- Hc. unfold get_content.
    rewrite (proj2 (Z.ltb_ge (Z.of_N pivot + 1) 0)) by lia.
    cbn [Z.ltb Z.compare]. rewrite Hlast.
    cbn [mbind option_bind]. rewrite Z.mod_small by lia.
    by rewrite (proj2 (Z.ltb_lt (Z.of_N pivot + 1) 2147483648)) by lia.
  - rewrite Hlen. lia.
  - rewrite Hbits by lia. f_equal. apply is_non_zero_elem_of.
    by apply last_Some_elem_of.
  - intros i Hi. apply Hbits. lia.
Qed.

Lemma get_content_default_length_witness :
  let c := {| dim_ := 2; column_ := [1; 3; 6]%N |} in
  get_content (clear c) (-1) = None /\
  exists container,
    get_content c (-1) = Some container /\
    length container = S (N.to_nat 6) /\
    container !! N.to_nat 6 = Some true /\
    forall i, (i < 6)%N -> container !! N.to_nat i = Some (is_non_zero c i).
Proof.
  intros c. apply get_content_default_length; [|reflexivity|simpl; lia].
  simpl. repeat (constructor; try lia).
Defined.

End Z2VecContent.

Section Z2VecOrder.
Import Z2Vec.

Lemma less_cells_irreflexive l : less_cells l l = false.
Proof.
  induction l as [|r l IH]; [done|]. simpl. by rewrite N.eqb_refl.
Qed.

Lemma less_cells_transitive l1 l2 l3 :
  less_cells l1 l2 = true -> less_cells l2 l3 = true -> less_cells l1 l3 = true.
Proof.
  revert l2 l3. induction l1 as [|r1 l1 IH]; intros [|r2 l2] [|r3 l3];
    cbn [less_cells]; try done.
  destruct (N.eqb_spec r1 r2) as [->|H12]; destruct (N.eqb_spec r2 r3) as [->|H23];
    cbn [negb].
  - apply IH.
  - by intros _.
  - rewrite (proj2 (N.eqb_neq _ _) H12). cbn [negb]. by intros ? _.
  - rewrite !N.ltb_lt. intros Hlt12 Hlt23.
    rewrite (proj2 (N.eqb_neq r1 r3)) by lia. cbn [negb]. apply N.ltb_lt. lia.
Qed.

Lemma less_cells_total l1 l2 :
  less_cells l1 l2 = true \/ l1 = l2 \/ less_cells l2 l1 = true.
Proof.
  revert l2. induction l1 as [|r1 l1 IH]; intros [|r2 l2]; cbn [less_cells]; auto.
  rewrite (N.eqb_sym r2 r1). destruct (N.eqb_spec r1 r2) as [->|Hne]; cbn [negb].
  - destruct (IH l2) as [?|[->|?]]; auto.
  - rewrite !N.ltb_lt. lia.
Qed.

Lemma equal_cells_eq l1 l2 :
  length l1 = length l2 -> equal_cells l1 l2 = true <-> l1 = l2.
Proof.
  revert l2. induction l1 as [|r1 l1 IH]; intros [|r2 l2] Hlen; simpl in Hlen;
    cbn [equal_cells]; try done.
  destruct (N.eqb_spec r1 r2) as [->|Hne]; cbn [negb].
  - rewrite IH by lia. split; [by intros ->|]. by intros [= ->].
  - split; [done|]. by intros [= ? _].
Qed.

(** X13. [operator<] on columns is a strict total order on their lists of
    row indices, and [operator==] is the equality of these lists: no
    column is less than itself, the relation is transitive, and of two
    columns either one is less than the other or they are [==] (never
    two of these at once). The dimension takes no part in either
    comparison. *)
Theorem less_is_strict_total_order (c1 c2 c3 : Z2_vector_column) :
  less c1 c1 = false /\
  (less c1 c2 = true -> less c2 c3 = true -> less c1 c3 = true) /\
  (equal c1 c2 = true <-> column_ c1 = column_ c2) /\
  (less c1 c2 = true \/ equal c1 c2 = true \/ less c2 c1 = true) /\
  (less c1 c2 = true -> equal c1 c2 = false /\ less c2 c1 = false).
Proof.
  assert (equal c1 c2 = true <-> column_ c1 = column_ c2) as Heq.
  { unfold equal. destruct (length (column_ c1) =? length (column_ c2))%nat eqn:E;
      simpl.
    - apply Nat.eqb_eq in E. by apply equal_cells_eq.
    - apply Nat.eqb_neq in E. split; [done|]. intros H. by rewrite H in E. }
  unfold less. split; [apply less_cells_irreflexive|].
  split; [apply less_cells_transitive|]. split; [done|]. split.
  - rewrite Heq. apply less_cells_total.
  - intros H12. split.
    + destruct (equal c1 c2); [|done]. destruct Heq as [Heq _].
      rewrite (Heq eq_refl), less_cells_irreflexive in H12. done.
    + destruct (less_cells (column_ c2) (column_ c1)) eqn:H21; [|done].
      pose proof (less_cells_transitive _ _ _ H12 H21) as H11.
      by rewrite less_cells_irreflexive in H11.
Qed.

End Z2VecOrder.

Section Z2VecReorder.
Import Z2Vec.

Lemma insert_sorted_Permutation r l : Permutation (insert_sorted r l) (r :: l).
Proof.
  induction l as [|x l IH]; simpl; [done|].
  destruct (r <=? x)%N; [done|]. rewrite IH. apply perm_swap.
Qed.

Lemma sort_rows_Permutation l : Permutation (sort_rows l) l.
Proof.
  induction l as [|x l IH]; simpl; [done|].
  by rewrite insert_sorted_Permutation, IH.
Qed.

Lemma insert_sorted_sorted r l :
  StronglySorted N.le l -> StronglySorted N.le (insert_sorted r l).
Proof.
  induction l as [|x l IH]; intros Hl; simpl.
  - repeat constructor.
  - apply StronglySorted_inv in Hl as [Hl Hx].
    destruct (r <=? x)%N eqn:E.
    + apply N.leb_le in E. constructor; [by constructor|].
      constructor; [done|]. eapply Forall_impl; [exact Hx|].
      intros y Hy. simpl in Hy. lia.
    + apply N.leb_gt in E. constructor; [by apply IH|].
      rewrite Forall_forall. intros y Hy.
      apply elem_of_insert_sorted in Hy as [->|Hy]; [lia|].
      rewrite Forall_forall in Hx. by apply Hx.
Qed.

Lemma sort_rows_sorted l : StronglySorted N.le (sort_rows l).
Proof.
  induction l as [|x l IH]; simpl; [constructor|]. by apply insert_sorted_sorted.
Qed.

(** X14. [reorder(valueMap)] keeps the dimension and the number of cells:
    the new cells are the images of the old ones through the map, each
    as many times as it is reached, in non-decreasing order. When the map
    sends the rows of the column to distinct values, the column is again
    strictly increasing. *)
Theorem reorder_sorts_the_images (c : Z2_vector_column)
    (valueMap : gmap index index) :
  let image := fun r => default 0%N (valueMap !! r) in
  dim_ (reorder c valueMap) = dim_ c /\
  Permutation (column_ (reorder c valueMap)) (map image (column_ c)) /\
  StronglySorted N.le (column_ (reorder c valueMap)) /\
  (NoDup (column_ c) ->
   (forall x y, x ∈ column_ c -> y ∈ column_ c -> image x = image y -> x = y) ->
   increasing (column_ (reorder c valueMap))).
Proof.
  intros image. unfold reorder. cbn [dim_ column_].
  split; [done|]. split; [apply sort_rows_Permutation|].
  split; [apply sort_rows_sorted|]. intros Hnodup Hinj.
  apply sort_rows_increasing.
  by apply (NoDup_fmap_2_strong image).
Qed.

End Z2VecReorder.

Section Z2VecAddition.
Import Z2Vec.

Lemma sym_merge_comm s t :
  increasing s -> increasing t -> sym_merge s t = sym_merge t s.
Proof.
  intros Hs Ht. apply increasing_ext; [by apply sym_merge_increasing..|].
  intros z. rewrite !sym_merge_elem_of by done. tauto.
Qed.

Lemma sym_merge_assoc s t u :
  increasing s -> increasing t -> increasing u ->
  sym_merge u (sym_merge s t) = sym_merge (sym_merge u s) t.
Proof.
  intros Hs Ht Hu.
  apply increasing_ext; [by repeat apply sym_merge_increasing..|].
  intros z. rewrite !sym_merge_elem_of by (by repeat apply sym_merge_increasing).
  destruct (decide (z ∈ s)), (decide (z ∈ t)), (decide (z ∈ u)); tauto.
Qed.

Lemma sym_merge_diag s : increasing s -> sym_merge s s = [].
Proof.
  intros Hs. apply increasing_ext; [by apply sym_merge_increasing|constructor|].
  intros z. rewrite sym_merge_elem_of by done. rewrite elem_of_nil. tauto.
Qed.

(** X15. On columns sorted by increasing row index, [operator+=] is the
    addition of a commutative group in which every column is its own
    opposite: the cells of [a += b] are those of [b += a]; adding [b]
    then [c] gives the cells of adding [b += c]; adding a column without
    cells changes nothing; adding a column with the same cells leaves no
    cell. The target keeps its dimension. *)
Theorem add_assign_group_laws (a b c : Z2_vector_column) :
  increasing (column_ a) -> increasing (column_ b) -> increasing (column_ c) ->
  column_ (add_assign a (column_ b)) = column_ (add_assign b (column_ a)) /\
  add_assign (add_assign a (column_ b)) (column_ c) =
    add_assign a (column_ (add_assign b (column_ c))) /\
  add_assign a [] = a /\
  add_assign a (column_ a) = clear a.
Proof.
  intros Ha Hb Hc. split; [|split; [|split]].
  - rewrite !add_assign_sym_merge. by apply sym_merge_comm.
  - assert (forall x y : Z2_vector_column,
              dim_ x = dim_ y -> column_ x = column_ y -> x = y) as Hext.
    { intros [d1 c1] [d2 c2]. simpl. by intros -> ->. }
    apply Hext.
    + by rewrite !add_assign_dim.
    + rewrite !add_assign_sym_merge. by apply sym_merge_assoc.
  - done.
  - assert (forall x y : Z2_vector_column,
              dim_ x = dim_ y -> column_ x = column_ y -> x = y) as Hext.
    { intros [d1 c1] [d2 c2]. simpl. by intros -> ->. }
    apply Hext; [by rewrite add_assign_dim|].
    rewrite add_assign_sym_merge. by apply sym_merge_diag.
Qed.

Lemma add_assign_group_laws_witness :
  let a := {| dim_ := 2; column_ := [0; 2; 5]%N |} in
  let b := {| dim_ := 1; column_ := [2; 3]%N |} in
  let c := {| dim_ := 1; column_ := [3; 5]%N |} in
  column_ (add_assign a (column_ b)) = column_ (add_assign b (column_ a)) /\
  add_assign (add_assign a (column_ b)) (column_ c) =
    add_assign a (column_ (add_assign b (column_ c))) /\
  add_assign a [] = a /\
  add_assign a (column_ a) = clear a.
Proof.
  intros a b c.
  apply add_assign_group_laws; simpl; repeat (constructor; try lia).
Defined.

End Z2VecAddition.

(** ** [Z2_intrusive_list_boundary_column::clear(rowIndex)] *)

Section Z2IListClear.
Import Z2IList.

Lemma delete_row_absent r l : r ∉ l -> delete_row r l = l.
Proof.
  induction l as [|x l IH]; intros Hr; simpl; [done|].
  rewrite not_elem_of_cons in Hr. destruct Hr as [Hne Hr].
  rewrite (proj2 (N.eqb_neq x r)) by done. by rewrite IH.
Qed.

Lemma delete_row_elem_of r l x :
  increasing l -> x ∈ delete_row r l <-> x ∈ l /\ x <> r.
Proof.
  induction l as [|y l IH]; intros Hl; simpl.
  - rewrite elem_of_nil. tauto.
  - pose proof (increasing_head_notin _ _ Hl) as Hy.
    apply increasing_cons_inv in Hl as [Hl _].
    destruct (N.eqb_spec y r) as [->|Hne].
    + rewrite elem_of_cons. split.
      * intros Hx. split; [by right|]. by intros ->.
      * intros [[->|Hx] Hxr]; done.
    + rewrite !elem_of_cons, IH by done. split.
      * intros [->|[Hx Hxr]]; [split; [by left|done]|split; [by right|done]].
      * intros [[->|Hx] Hxr]; [by left|by right].
Qed.

Lemma delete_row_increasing r l : increasing l -> increasing (delete_row r l).
Proof.
  induction l as [|y l IH]; intros Hl; simpl; [done|].
  pose proof Hl as Hl'. apply increasing_cons_inv in Hl as [Hl Hy].
  destruct (y =? r)%N; [done|].
  apply increasing_cons; [by apply IH|].
  rewrite Forall_forall in *. intros x Hx.
  apply delete_row_elem_of in Hx as [Hx _]; [|done]. by apply Hy.
Qed.

(** X16. [clear(rowIndex)] on a column sorted by increasing row index
    removes the cell of that row and nothing else: the other cells stay,
    in order; a row that is not in the column leaves the column as it
    is; and, for row indices within the range of the [int] that
    [get_pivot()] returns, clearing the row of the pivot gives a strictly
    smaller pivot ([-1] when no cell is left). *)
Theorem clear_row_removes_the_row (c : Z2_intrusive_list_boundary_column)
    (rowIndex : index) :
  increasing (column_ c) ->
  increasing (column_ (clear_row c rowIndex)) /\
  (forall r, r ∈ column_ (clear_row c rowIndex) <->
             r ∈ column_ c /\ r <> rowIndex) /\
  (rowIndex ∉ column_ c -> clear_row c rowIndex = c) /\
  (Forall (fun r => Z.of_N r <= 2147483647) (column_ c) ->
   get_pivot c = Z.of_N rowIndex ->
   get_pivot (clear_row c rowIndex) < get_pivot c).
Proof.
  intros Hc. split; [by apply delete_row_increasing|].
  split; [intros r; by apply delete_row_elem_of|]. split.
  - intros Hr. destruct c as [d l]. unfold clear_row. simpl in *.
    by rewrite delete_row_absent.
  - intros Hint Hp. rewrite Forall_forall in Hint.
    destruct (last (column_ c)) as [p|] eqn:Hlast.
    2:{ unfold get_pivot in Hp. rewrite Hlast in Hp. lia. }
    assert (p ∈ column_ c) as Hin by (by apply last_Some_elem_of).
    rewrite (get_pivot_of_int_row c p Hlast (Hint p Hin)) in *.
    assert (p = rowIndex) as -> by lia.
    destruct (last (column_ (clear_row c rowIndex))) as [q|] eqn:Hq.
    + pose proof Hq as Hq'. apply last_Some_elem_of in Hq'.
      apply delete_row_elem_of in Hq' as [Hq' Hne]; [|done].
      rewrite (get_pivot_of_int_row _ q Hq (Hint q Hq')).
      pose proof (increasing_last_max _ _ Hc Hlast q Hq'). lia.
    + unfold get_pivot. rewrite Hq. lia.
Qed.

Lemma clear_row_removes_the_row_witness :
  let c := {| dim_ := 2; column_ := [1; 4; 7]%N |} in
  increasing (column_ (clear_row c 7)) /\
  (forall r, r ∈ column_ (clear_row c 7) <-> r ∈ column_ c /\ r <> 7%N) /\
  (7%N ∉ column_ c -> clear_row c 7 = c) /\
  (Forall (fun r => Z.of_N r <= 2147483647) (column_ c) ->
   get_pivot c = Z.of_N 7 -> get_pivot (clear_row c 7) < get_pivot c).
Proof.
  intros c. apply clear_row_removes_the_row.
  simpl. repeat (constructor; try lia).
Defined.

End Z2IListClear.

(** ** [operator+] of chain columns *)

Section ChainColumnPlus.
Import ChainSet.

Context {Column F : Type} `{Set_column_base Column F}.

(** X17. [column1 + column2] on chain columns of a matrix whose
    dictionary is consistent returns the sum and leaves the column passed
    as [column1] as it was, but it is not without effect: when the sum
    has no cell at the pivot of [column1], [column2] is given the pivot of
    [column1] and the two entries of the dictionary are swapped, although
    [column1] still holds that pivot. Two columns of the matrix then
    report the same pivot and the dictionary sends that pivot to
    [column2]. When the sum keeps the pivot nothing is written. *)
Theorem column_plus_moves_the_pivot (m : chain_matrix Column) (t s : nat)
    (ct cs : Set_chain_column Column) :
  columns m !! t = Some ct -> columns m !! s = Some cs -> t <> s ->
  dictionary_consistent m ->
  exists m' sum,
    column_plus t s m = Some (returned m', Some sum) /\
    base sum = base_add (base ct) (base cs) /\
    if base_is_non_zero (base_add (base ct) (base cs)) (get_pivot ct)
    then m' = m /\ get_pivot sum = get_pivot ct
    else
      get_pivot sum = get_pivot cs /\
      columns m' !! t = Some ct /\
      columns m' !! s = Some (set_pivot cs (get_pivot ct)) /\
      pivotToColumnIndex m' !! get_pivot ct = Some s /\
      ~ unique_pivots m' /\ ~ dictionary_consistent m'.
Proof.
  intros Ht Hs Hts Hdict. unfold column_plus. rewrite Ht, Hs.
  cbn [base pivot_ set_base]. unfold get_pivot.
  destruct (base_is_non_zero _ _) eqn:Hpivot.
  { eexists _, _. split; [reflexivity|]. by repeat split. }
  pose proof (Hdict t ct Ht) as Hat. pose proof (Hdict s cs Hs) as Has.
  unfold get_pivot in Hat, Has. rewrite Hat, Has.
  assert (pivot_ ct <> pivot_ cs) as Hne by congruence.
  eexists _, _. split; [reflexivity|]. cbn [base pivot_ set_pivot set_base columns
    pivotToColumnIndex].
  split; [done|]. split; [done|].
  assert (<[s := set_pivot cs (pivot_ ct)]> (columns m) !! t = Some ct) as Ht'.
  { by rewrite lookup_insert_ne. }
  assert (<[s := set_pivot cs (pivot_ ct)]> (columns m) !! s
          = Some (set_pivot cs (pivot_ ct))) as Hs'.
  { by rewrite lookup_insert_eq. }
  assert (<[pivot_ cs := t]> (<[pivot_ ct := s]> (pivotToColumnIndex m))
            !! pivot_ ct = Some s) as Hat'.
  { rewrite lookup_insert_ne by done. by rewrite lookup_insert_eq. }
  split; [done|]. split; [done|]. split; [done|]. split.
  - intros Huniq. apply Hts.
    by apply (Huniq t s ct (set_pivot cs (pivot_ ct)) Ht' Hs').
  - intros Hcons. specialize (Hcons t ct Ht'). cbn in Hcons.
    unfold get_pivot in Hcons. rewrite Hat' in Hcons. congruence.
Qed.

End ChainColumnPlus.

Section ChainColumnPlusExample.
Import ChainSet.

(** The columns {0, 1} of pivot 1 and {1, 2} of pivot 2 over Z2: their sum
    {0, 2} has no cell at row 1. *)
Lemma column_plus_moves_the_pivot_witness :
  let ct := mk_chain [0; 1]%N 1 (-1) in
  let cs := mk_chain [1; 2]%N 2 (-1) in
  let m := {| columns := <[0%nat := ct]> (<[1%nat := cs]> ∅);
              pivotToColumnIndex := <[1 := 0%nat]> (<[2 := 1%nat]> ∅) |} in
  exists m' sum,
    column_plus 0 1 m = Some (returned m', Some sum) /\
    base sum = base_add (base ct) (base cs) /\
    if base_is_non_zero (base_add (base ct) (base cs)) (get_pivot ct)
    then m' = m /\ get_pivot sum = get_pivot ct
    else
      get_pivot sum = get_pivot cs /\
      columns m' !! 0%nat = Some ct /\
      columns m' !! 1%nat = Some (set_pivot cs (get_pivot ct)) /\
      pivotToColumnIndex m' !! get_pivot ct = Some 1%nat /\
      ~ unique_pivots m' /\ ~ dictionary_consistent m'.
Proof.
  intros ct cs m.
  apply (column_plus_moves_the_pivot m 0 1 ct cs); [done|done|done|].
  intros i ci Hi. simpl in Hi.
  apply lookup_insert_Some in Hi as [[<- <-]|[_ Hi]]; [done|].
  apply lookup_insert_Some in Hi as [[<- <-]|[_ Hi]]; [done|].
  by rewrite lookup_empty in Hi.
Defined.

End ChainColumnPlusExample.

(** ** More of [Boundary_matrix] *)

Section InsertedColumn.
Import BoundaryMatrix.

Context {Dimension_option Pairing_option : Type}.
Variable update_up : Z -> Dimension_option -> Dimension_option.
Variable update_down : Z -> Dimension_option -> Dimension_option.
Variable pairing_remove_last : index -> Pairing_option -> Pairing_option.
Variable opts : Options.

Local Abbreviation matrix := (@Boundary_matrix Dimension_option Pairing_option).
Local Abbreviation wf := (@container_wf Dimension_option Pairing_option opts).

Implicit Types s : matrix.

(** What [insert_boundary] leaves, on a matrix whose containers are well
    formed. *)
Lemma insert_boundary_result s boundary dim :
  wf s -> insertable opts boundary = true ->
  exists s1,
    insert_boundary update_up opts boundary dim s = Some (s1, nextInsertIndex_ s) /\
    wf s1 /\
    nextInsertIndex_ s1 = N.succ (nextInsertIndex_ s) /\
    column_at (matrix_ s1) (nextInsertIndex_ s) =
      Some {| dim_ := if dim =? -1 then dimension_of_size boundary else dim;
              column_ := boundary |} /\
    (forall c, (c < nextInsertIndex_ s)%N ->
       column_at (matrix_ s1) c =
       column_at (matrix_ (order_rows_if_swapped opts s)) c) /\
    activeSwapOption opts && rowSwapped_ s1 = false /\
    dim_opt s1 = (if activeDimOption opts
                  then update_up (dimension_of_size boundary) (dim_opt s)
                  else dim_opt s) /\
    (activeSwapOption opts = true ->
     is_Some (indexToRow_ s1 !! nextInsertIndex_ s)).
Proof.
  intros Hwf Hins.
  destruct (insert_boundary update_up opts boundary dim s) as [[s1 i]|] eqn:Hinsert.
  2:{ exfalso. revert Hinsert. unfold insert_boundary, insert_boundary_at.
      rewrite Hins. simpl. by destruct (matrix_ (order_rows_if_swapped opts s)). }
  pose proof (wf_insert_boundary update_up opts boundary dim s s1 i Hwf Hinsert)
    as Hwf1.
  pose proof (wf_order_rows_if_swapped opts s Hwf) as Hwf0.
  pose proof (order_rows_if_swapped_settled opts s) as Hflag.
  revert Hinsert Hwf1. unfold insert_boundary, insert_boundary_at.
  rewrite Hins. cbn [negb].
  assert (nextInsertIndex_ (order_rows_if_swapped opts s) = nextInsertIndex_ s)
    as Hn by (unfold order_rows_if_swapped;
              by destruct (activeSwapOption opts && rowSwapped_ s)).
  assert (dim_opt (order_rows_if_swapped opts s) = dim_opt s)
    as Hd by (unfold order_rows_if_swapped;
              by destruct (activeSwapOption opts && rowSwapped_ s)).
  revert Hwf0 Hflag Hn Hd. generalize (order_rows_if_swapped opts s).
  intros s0 Hwf0 Hflag Hn Hd. rewrite Hn, Hd.
  set (n := nextInsertIndex_ s). set (dim' := if dim =? -1 then _ else dim).
  set (column := {| dim_ := dim'; column_ := boundary |}).
  unfold container_wf in Hwf0. rewrite Hn in Hwf0. fold n in Hwf0.
  destruct (matrix_ s0) as [v|m] eqn:Hm.
  - destruct Hwf0 as (Hlen & Hra & Hpre).
    set (dictionaries := if activeSwapOption opts then _ else _).
    assert (activeSwapOption opts = true -> is_Some (dictionaries.1 !! n)) as Hkey.
    { intros Hswap. unfold dictionaries. rewrite Hswap.
      destruct (extend_dictionaries_prefix n (indexToRow_ s0, rowToIndex_ s0) Hpre)
        as [Hpre' Hlt].
      by apply Hpre'. }
    set (v1 := if has_row_access opts then _ else _).
    assert (exists w, v1 = vector_of w /\ w !! N.to_nat n = Some column /\
              forall c, (c < n)%N -> w !! N.to_nat c = v !! N.to_nat c)
      as (w & -> & Hw & Hwold).
    { unfold v1. destruct (has_row_access opts) eqn:Hopt.
      - specialize (Hra eq_refl). exists (v ++ [column]). split; [done|]. split.
        + rewrite list_lookup_middle; [done|lia].
        + intros c Hc. apply lookup_app_l. lia.
      - destruct (N.of_nat (length v) <=? n)%N eqn:E.
        + apply N.leb_le in E. exists (v ++ [column]). split; [done|]. split.
          * rewrite list_lookup_middle; [done|lia].
          * intros c Hc. apply lookup_app_l. lia.
        + apply N.leb_gt in E. exists (<[N.to_nat n := column]> v).
          split; [done|]. split.
          * apply list_lookup_insert_eq. lia.
          * intros c Hc. apply list_lookup_insert_ne. lia. }
    intros [= <- <-] Hwf1. eexists. split; [reflexivity|].
    cbn [nextInsertIndex_ matrix_ dim_opt rowSwapped_ indexToRow_ column_at].
    split; [exact Hwf1|]. split; [done|]. split; [done|]. split; [done|].
    split; [done|]. split; [done|]. done.
  - assert (m !! n = None) as Hfresh.
    { destruct (m !! n) eqn:E; [|done].
      assert (n < n)%N; [|lia]. apply Hwf0. by rewrite E. }
    set (dictionaries := if activeSwapOption opts then _ else _).
    assert (activeSwapOption opts = true -> is_Some (dictionaries.1 !! n)) as Hkey.
    { intros Hswap. unfold dictionaries. rewrite Hswap. simpl. unfold emplace.
      destruct (indexToRow_ s0 !! n) eqn:E; [by rewrite E|].
      by rewrite lookup_insert_eq. }
    unfold emplace. rewrite Hfresh.
    intros [= <- <-] Hwf1. eexists. split; [reflexivity|].
    cbn [nextInsertIndex_ matrix_ dim_opt rowSwapped_ indexToRow_ column_at].
    split; [exact Hwf1|]. split; [done|]. split; [by rewrite lookup_insert_eq|].
    split; [|done]. intros c Hc. apply lookup_insert_ne. lia.
Qed.

(** [remove_last] after [insert_boundary]: the column read is the one
    inserted. *)
Lemma insert_then_remove_last_result s boundary dim :
  wf s -> insertable opts boundary = true ->
  exists s1 s2,
    insert_boundary update_up opts boundary dim s = Some (s1, nextInsertIndex_ s) /\
    remove_last update_down pairing_remove_last opts s1 =
      Some (s2, column_pivot {| dim_ := 0; column_ := boundary |}) /\
    nextInsertIndex_ s2 = nextInsertIndex_ s /\
    dim_opt s2 =
      (if activeDimOption opts
       then update_down (if dim =? -1 then dimension_of_size boundary else dim)
              (update_up (dimension_of_size boundary) (dim_opt s))
       else dim_opt s).
Proof.
  intros Hwf Hins.
  destruct (insert_boundary_result s boundary dim Hwf Hins)
    as (s1 & Hs1 & Hwf1 & Hn1 & Hcol & _ & Hflag & Hdim & Hkey).
  exists s1.
  destruct (remove_last update_down pairing_remove_last opts s1) as [[s2 p]|] eqn:Hrm.
  - exists s2. split; [done|]. revert Hrm. unfold remove_last.
    rewrite Hn1. destruct (N.succ _ =? 0)%N eqn:E0; [apply N.eqb_eq in E0; lia|].
    rewrite N.pred_succ, Hcol. cbn [mbind option_bind].
    cbn [rowSwapped_ matrix_ nextInsertIndex_ dim_opt indexToRow_ rowToIndex_
         pair_opt].
    rewrite Hflag. cbn [andb]. cbv iota. cbn [matrix_]. rewrite Hcol.
    cbn [mbind option_bind].
    destruct (match matrix_ s1 with map_of _ => _ | vector_of _ => _ end)
      as [matrix'|]; [|done]. cbn [mbind option_bind].
    destruct (erase_row opts _ _) as [s3|] eqn:Herase; [|done].
    cbn [mbind option_bind]. intros [= <- <-].
    cbn [nextInsertIndex_ dim_opt]. split; [done|].
    revert Herase. unfold erase_row, with_matrix. cbn [matrix_ indexToRow_].
    destruct (activeSwapOption opts).
    + destruct matrix'; (destruct (indexToRow_ s1 !! _); [|done]);
        cbn [mbind option_bind]; intros [= <-];
        cbn [nextInsertIndex_ dim_opt get_dimension dim_]; by rewrite Hdim;
        destruct (activeDimOption opts).
    + intros [= <-]. cbn [nextInsertIndex_ dim_opt]. rewrite Hdim.
      by destruct (activeDimOption opts).
  - exfalso. revert Hrm. unfold remove_last.
    rewrite Hn1. destruct (N.succ _ =? 0)%N eqn:E0; [apply N.eqb_eq in E0; lia|].
    rewrite N.pred_succ, Hcol. cbn [mbind option_bind].
    cbn [rowSwapped_ matrix_ nextInsertIndex_ dim_opt indexToRow_ rowToIndex_
         pair_opt].
    rewrite Hflag. cbn [andb]. cbv iota. cbn [matrix_]. rewrite Hcol.
    cbn [mbind option_bind].
    unfold container_wf in Hwf1. rewrite Hn1 in Hwf1.
    destruct (matrix_ s1) as [v|m] eqn:Hm.
    + destruct Hwf1 as (Hlen & Hra & Hpre).
      assert (exists matrix', (if has_row_access opts
                then if (N.succ (nextInsertIndex_ s) =? N.of_nat (length v))%N
                     then Some (vector_of (take (N.to_nat (nextInsertIndex_ s)) v))
                     else None
                else Some (vector_of (<[N.to_nat (nextInsertIndex_ s) :=
                             clear {| dim_ := if dim =? -1
                                              then dimension_of_size boundary
                                              else dim;
                                      column_ := boundary |}]> v)))
              = Some (vector_of matrix')) as [matrix' ->].
      { destruct (has_row_access opts); [|by eexists].
        rewrite (proj2 (N.eqb_eq _ _)); [by eexists|]. symmetry. by apply Hra. }
      cbn [mbind option_bind]. unfold erase_row, with_matrix.
      cbn [matrix_ indexToRow_].
      destruct (activeSwapOption opts); [|done].
      destruct (Hkey eq_refl) as [rowID ->]. done.
    + cbn [mbind option_bind]. unfold erase_row, with_matrix.
      cbn [matrix_ indexToRow_].
      destruct (activeSwapOption opts); [|done].
      destruct (Hkey eq_refl) as [rowID ->]. done.
Qed.

End InsertedColumn.

Section BoundaryMatrixMore.
Import BoundaryMatrix.

Context {Dimension_option Pairing_option : Type}.
Variable update_up : Z -> Dimension_option -> Dimension_option.
Variable update_down : Z -> Dimension_option -> Dimension_option.
Variable pairing_remove_last : index -> Pairing_option -> Pairing_option.
Variable opts : Options.

Local Abbreviation matrix := (@Boundary_matrix Dimension_option Pairing_option).

Implicit Types s : matrix.

(** X18. [remove_last()] right after [insert_boundary(boundary, dim)]
    returns the pivot of the column just inserted, the last row index of
    the boundary, or [-1] for an empty boundary, and the next insertion
    will use the same column index again. *)
Theorem remove_last_returns_inserted_pivot s (boundary : list index) (dim : Z) :
  reachable update_up update_down pairing_remove_last opts s ->
  insertable opts boundary = true ->
  exists s1 s2,
    insert_boundary update_up opts boundary dim s = Some (s1, nextInsertIndex_ s) /\
    remove_last update_down pairing_remove_last opts s1 =
      Some (s2, match last boundary with Some r => Z.of_N r | None => -1 end) /\
    nextInsertIndex_ s2 = nextInsertIndex_ s.
Proof.
  intros Hs Hins. apply reachable_wf in Hs.
  destruct (insert_then_remove_last_result update_up update_down
              pairing_remove_last opts s boundary dim Hs Hins)
    as (s1 & s2 & Hs1 & Hs2 & Hn & _).
  by exists s1, s2.
Qed.

(** X19. The dimension option is told two different things: at the
    insertion the dimension that the size of the boundary gives, whatever
    the argument [dim]; at the removal the dimension stored in the column,
    which is [dim] when it was given. After [insert_boundary(boundary,
    dim)] and [remove_last()] the state of the dimension option is
    [update_down] of the stored dimension applied to [update_up] of the
    dimension by size. *)
Theorem dimension_option_after_insert_and_remove s (boundary : list index)
    (dim : Z) :
  reachable update_up update_down pairing_remove_last opts s ->
  insertable opts boundary = true ->
  activeDimOption opts = true ->
  exists s1 i s2 p,
    insert_boundary update_up opts boundary dim s = Some (s1, i) /\
    remove_last update_down pairing_remove_last opts s1 = Some (s2, p) /\
    dim_opt s2 =
      update_down (if dim =? -1 then dimension_of_size boundary else dim)
        (update_up (dimension_of_size boundary) (dim_opt s)).
Proof.
  intros Hs Hins Hdim. apply reachable_wf in Hs.
  destruct (insert_then_remove_last_result update_up update_down
              pairing_remove_last opts s boundary dim Hs Hins)
    as (s1 & s2 & Hs1 & Hs2 & _ & Hd).
  rewrite Hdim in Hd. by eexists s1, _, s2, _.
Qed.

(** X20. A column is read back as it was inserted: after
    [insert_boundary(boundary, dim)] has returned the index [i],
    [get_column(i)] is the boundary with its dimension ([dim], or the
    size of the boundary minus one, 0 for an empty boundary, when [dim]
    is [-1]) and leaves the matrix as it is, [get_pivot(i)] is the last
    row index of the boundary, [is_zero_column(i)] tells whether the
    boundary is empty, and the number of columns is one more in a matrix
    whose columns are in a vector. *)
Theorem inserted_column_is_read_back s (boundary : list index) (dim : Z) :
  reachable update_up update_down pairing_remove_last opts s ->
  insertable opts boundary = true ->
  exists s1 i,
    insert_boundary update_up opts boundary dim s = Some (s1, i) /\
    i = nextInsertIndex_ s /\
    get_column opts i s1 =
      Some (s1, {| dim_ := if dim =? -1 then dimension_of_size boundary else dim;
                   column_ := boundary |}) /\
    get_column_dimension i s1 =
      Some (if dim =? -1 then dimension_of_size boundary else dim) /\
    get_pivot opts i s1 =
      Some (s1, match last boundary with Some r => Z.of_N r | None => -1 end) /\
    is_zero_column i s1 = Some (bool_decide (boundary = [])) /\
    nextInsertIndex_ s1 = N.succ (nextInsertIndex_ s).
Proof.
  intros Hs Hins. apply reachable_wf in Hs.
  destruct (insert_boundary_result update_up opts s boundary dim Hs Hins)
    as (s1 & Hs1 & Hwf1 & Hn1 & Hcol & _ & Hflag & _).
  exists s1, (nextInsertIndex_ s). split; [done|]. split; [done|].
  assert (order_rows_if_swapped opts s1 = s1) as Hsettled.
  { unfold order_rows_if_swapped. by rewrite Hflag. }
  unfold get_column, get_pivot, get_column_dimension, is_zero_column.
  rewrite Hsettled, Hcol. cbn. split; [done|]. split; [done|].
  split; [done|]. split; [|done]. f_equal. unfold is_empty. cbn.
  destruct boundary; [by rewrite bool_decide_true|by rewrite bool_decide_false].
Qed.

(** X21. [zero_column(columnIndex)] on a column of the matrix empties that
    column and nothing else: the column has no cell afterwards, it keeps
    its dimension, every other column and the number of columns are as
    before, and the index of the next insertion does not move. *)
Theorem zero_column_empties_one_column s (columnIndex : index)
    (col : Z2_vector_column) :
  column_at (matrix_ s) columnIndex = Some col ->
  exists s',
    zero_column columnIndex s = Some s' /\
    is_zero_column columnIndex s' = Some true /\
    get_column_dimension columnIndex s' = get_column_dimension columnIndex s /\
    (forall c, c <> columnIndex ->
       column_at (matrix_ s') c = column_at (matrix_ s) c) /\
    get_number_of_columns s' = get_number_of_columns s /\
    nextInsertIndex_ s' = nextInsertIndex_ s.
Proof.
  intros Hcol. unfold zero_column. rewrite Hcol. cbn [mbind option_bind].
  eexists. split; [reflexivity|].
  unfold is_zero_column, get_column_dimension, with_matrix. cbn [matrix_].
  rewrite !column_at_set_column by (by rewrite Hcol).
  rewrite decide_True by done. rewrite Hcol. split; [done|]. split; [done|].
  split; [|split; [|done]].
  - intros c Hc. rewrite column_at_set_column by (by rewrite Hcol).
    by rewrite decide_False.
  - unfold get_number_of_columns. cbn [matrix_ nextInsertIndex_].
    destruct (matrix_ s) as [v|m]; cbn [set_column]; [done|].
    simpl in Hcol. f_equal. rewrite <- !size_dom.
    rewrite dom_insert_present; [done|by rewrite Hcol].
Qed.

(** X22. [add_to(source, target)] between two different columns sorted by
    increasing row index changes the target only, whose cells become the
    symmetric difference of the two; a second call gives the matrix back. *)
Theorem add_to_twice_restores s (source target : index)
    (cs ct : Z2_vector_column) :
  column_at (matrix_ s) source = Some cs ->
  column_at (matrix_ s) target = Some ct ->
  source <> target ->
  increasing (column_ cs) -> increasing (column_ ct) ->
  exists s1,
    add_to source target s = Some s1 /\
    column_at (matrix_ s1) target =
      Some {| dim_ := dim_ ct; column_ := sym_merge (column_ cs) (column_ ct) |} /\
    (forall c, c <> target ->
       column_at (matrix_ s1) c = column_at (matrix_ s) c) /\
    add_to source target s1 = Some s.
Proof.
  intros Hcs Hct Hne Hics Hict. unfold add_to. rewrite Hct, Hcs.
  cbn [mbind option_bind]. eexists. split; [reflexivity|].
  unfold with_matrix. cbn [matrix_].
  assert (add_assign ct (column_ cs) =
          {| dim_ := dim_ ct; column_ := sym_merge (column_ cs) (column_ ct) |})
    as Hsum.
  { pose proof (add_assign_dim ct (column_ cs)) as Hd.
    pose proof (add_assign_sym_merge ct (column_ cs)) as Hc.
    destruct (add_assign ct (column_ cs)) as [d c]. simpl in *. by subst. }
  rewrite !column_at_set_column by (by rewrite Hct).
  rewrite decide_True, decide_False by done. rewrite Hcs.
  cbn [mbind option_bind]. split; [by rewrite Hsum|]. split.
  - intros c Hc. rewrite column_at_set_column by (by rewrite Hct).
    rewrite decide_False; [done|congruence].
  - rewrite add_assign_twice by done.
    destruct s as [d i2r r2i flag pr mat n]. cbn in *. do 2 f_equal.
    destruct mat as [v|m]; cbn in *; f_equal.
    + rewrite list_insert_insert_eq. by apply list_insert_id.
    + rewrite insert_insert_eq. by apply insert_id.
Qed.

End BoundaryMatrixMore.

Section BoundaryMatrixMoreExamples.
Import BoundaryMatrix.

Lemma remove_last_returns_inserted_pivot_witness :
  let opts := mk_options true true true true false in
  let up := DimensionHolder.update_up in
  let down := DimensionHolder.update_down in
  let pairs := fun (_ : index) (p : unit) => p in
  let s := after up down pairs opts
             [call_insert_boundary [] (-1); call_insert_boundary [] (-1);
              call_insert_boundary [0; 1]%N (-1); call_swap_rows 0 1]
             (empty_matrix ∅ tt true) in
  exists s1 s2,
    insert_boundary up opts [0; 1]%N (-1) s = Some (s1, nextInsertIndex_ s) /\
    remove_last down pairs opts s1 = Some (s2, 1) /\
    nextInsertIndex_ s2 = nextInsertIndex_ s.
Proof.
  intros opts up down pairs s.
  apply (remove_last_returns_inserted_pivot up down pairs opts s [0; 1]%N (-1)).
  - apply reachable_after, reachable_empty.
  - reflexivity.
Defined.

(** A vertex inserted with the dimension 5: the dimension option counts a
    face of dimension 0 in and a face of dimension 5 out. *)
Lemma dimension_option_after_insert_and_remove_witness :
  let opts := mk_options false true true true false in
  let up := DimensionHolder.update_up in
  let down := DimensionHolder.update_down in
  let pairs := fun (_ : index) (p : unit) => p in
  let s := empty_matrix (∅ : DimensionHolder.holder) tt false in
  exists s1 i s2 p,
    insert_boundary up opts [] 5 s = Some (s1, i) /\
    remove_last down pairs opts s1 = Some (s2, p) /\
    dim_opt s2 = down 5 (up 0 (dim_opt s)).
Proof.
  intros opts up down pairs s.
  apply (dimension_option_after_insert_and_remove up down pairs opts s [] 5).
  - apply reachable_empty.
  - reflexivity.
  - reflexivity.
Defined.

Lemma inserted_column_is_read_back_witness :
  let opts := mk_options true true true true false in
  let up := DimensionHolder.update_up in
  let down := DimensionHolder.update_down in
  let pairs := fun (_ : index) (p : unit) => p in
  let s := after up down pairs opts
             [call_insert_boundary [] (-1); call_insert_boundary [] (-1);
              call_swap_rows 0 1]
             (empty_matrix ∅ tt false) in
  exists s1 i,
    insert_boundary up opts [0; 1]%N (-1) s = Some (s1, i) /\
    i = nextInsertIndex_ s /\
    get_column opts i s1 = Some (s1, {| dim_ := 1; column_ := [0; 1]%N |}) /\
    get_column_dimension i s1 = Some 1 /\
    get_pivot opts i s1 = Some (s1, 1) /\
    is_zero_column i s1 = Some (bool_decide ([0; 1]%N = [])) /\
    nextInsertIndex_ s1 = N.succ (nextInsertIndex_ s).
Proof.
  intros opts up down pairs s.
  apply (inserted_column_is_read_back up down pairs opts s [0; 1]%N (-1)).
  - apply reachable_after, reachable_empty.
  - reflexivity.
Defined.

Lemma zero_column_empties_one_column_witness :
  let s := {| dim_opt := tt; indexToRow_ := ∅; rowToIndex_ := ∅;
              rowSwapped_ := false; pair_opt := tt;
              matrix_ := vector_of [mk_column 0 []; mk_column 1 [0; 1]%N];
              nextInsertIndex_ := 2 |} in
  exists s',
    zero_column 1 s = Some s' /\
    is_zero_column 1 s' = Some true /\
    get_column_dimension 1 s' = get_column_dimension 1 s /\
    (forall c, c <> 1%N -> column_at (matrix_ s') c = column_at (matrix_ s) c) /\
    get_number_of_columns s' = get_number_of_columns s /\
    nextInsertIndex_ s' = nextInsertIndex_ s.
Proof.
  intros s. apply (zero_column_empties_one_column s 1 (mk_column 1 [0; 1]%N)).
  reflexivity.
Defined.

Lemma add_to_twice_restores_witness :
  let cs := mk_column 1 [0; 1]%N in
  let ct := mk_column 1 [1; 2]%N in
  let s := {| dim_opt := tt; indexToRow_ := ∅; rowToIndex_ := ∅;
              rowSwapped_ := false; pair_opt := tt;
              matrix_ := map_of (<[3%N := cs]> (<[4%N := ct]> ∅));
              nextInsertIndex_ := 5 |} in
  exists s1,
    add_to 3 4 s = Some s1 /\
    column_at (matrix_ s1) 4 =
      Some {| dim_ := dim_ ct; column_ := sym_merge (column_ cs) (column_ ct) |} /\
    (forall c, c <> 4%N -> column_at (matrix_ s1) c = column_at (matrix_ s) c) /\
    add_to 3 4 s1 = Some s.
Proof.
  intros cs ct s. apply (add_to_twice_restores s 3 4 cs ct); try done.
  - simpl. repeat (constructor; try lia).
  - simpl. repeat (constructor; try lia).
Defined.

End BoundaryMatrixMoreExamples.

(** ** The ring of the field elements and the partial identities *)

Section MultiFieldRing.
Import MultiField.

Variable N : Z.
Hypothesis N_pos : 0 < N.
Hypothesis N_fits : N <= UINT_MAX.

Lemma power_loop_spec exp base partial :
  0 <= base < N -> 0 <= partial < N ->
  power_loop N exp base partial = (partial * base ^ Zpos exp) mod N.
Proof using N_pos N_fits.
  revert base partial.
  induction exp as [exp IH|exp IH|]; intros base partial Hb Hp; cbn [power_loop].
  - rewrite IH; rewrite ?_multiply_spec by done; try (apply Z.mod_pos_bound; lia).
    rewrite Z.mul_mod_idemp_l by lia.
    rewrite <- Z.mul_mod_idemp_r, Z.mod_pow_l, Z.mul_mod_idemp_r by lia.
    f_equal. rewrite Pos2Z.inj_xI, Z.pow_add_r, Z.pow_1_r, Z.pow_mul_r by lia.
    rewrite Z.pow_2_r. ring.
  - rewrite IH; rewrite ?_multiply_spec by done; try (apply Z.mod_pos_bound; lia);
      [|done].
    rewrite <- Z.mul_mod_idemp_r, Z.mod_pow_l, Z.mul_mod_idemp_r by lia.
    f_equal. rewrite Pos2Z.inj_xO, Z.pow_mul_r by lia.
    by rewrite Z.pow_2_r.
  - rewrite _multiply_spec by done. by rewrite Z.pow_1_r.
Qed.

Lemma partial_of_spec p :
  1 < N -> 2 <= p <= UINT_MAX -> partial_of N p = (N / p) ^ (p - 1) mod N.
Proof using N_pos N_fits.
  unfold UINT_MAX in *. intros HN Hp. unfold partial_of.
  rewrite wrap_small by lia. destruct (p - 1) as [|exp|exp] eqn:E; [lia| |lia].
  rewrite power_loop_spec; [by rewrite Z.mul_1_l|split|lia].
  - apply Z.div_pos; lia.
  - apply Z.div_lt; lia.
Qed.

End MultiFieldRing.

Section MultiFieldRingClaims.
Import MultiField.

(** X23. On the values below the characteristic [N], the operations the
    field elements are built on are those of the commutative ring of the
    integers modulo [N]: [_add] and [_multiply] are commutative and
    associative, 0 and 1 are neutral, [_substract] undoes [_add] on either
    side, and [_multiply] distributes over [_add]. *)
Theorem field_ring_laws (N x y z : Z) :
  1 < N <= UINT_MAX -> 0 <= x < N -> 0 <= y < N -> 0 <= z < N ->
  _add N x y = _add N y x /\
  _add N (_add N x y) z = _add N x (_add N y z) /\
  _add N x 0 = x /\
  _substract N (_add N x y) y = x /\
  _add N (_substract N x y) y = x /\
  _multiply N x y = _multiply N y x /\
  _multiply N (_multiply N x y) z = _multiply N x (_multiply N y z) /\
  _multiply N x 1 = x /\
  _multiply N x (_add N y z) = _add N (_multiply N x y) (_multiply N x z).
Proof.
  intros [HN HN'] Hx Hy Hz.
  assert (forall a, 0 <= a mod N < N) as Hmod by (intros a; apply Z.mod_pos_bound; lia).
  rewrite ?(_add_spec N HN' x y), ?(_add_spec N HN' y x), ?(_add_spec N HN' y z),
    ?(_substract_spec N HN' x y), ?(_multiply_spec N HN' x y),
    ?(_multiply_spec N HN' y x), ?(_multiply_spec N HN' y z),
    ?(_multiply_spec N HN' x z) by done.
  rewrite ?_add_spec, ?_substract_spec, ?_multiply_spec by (done || lia).
  repeat split.
  - f_equal. lia.
  - rewrite Z.add_mod_idemp_l, Z.add_mod_idemp_r by lia. f_equal. lia.
  - rewrite Z.add_0_r. apply Z.mod_small. lia.
  - rewrite Zminus_mod_idemp_l. replace (x + y - y) with x by lia.
    apply Z.mod_small. lia.
  - rewrite Z.add_mod_idemp_l by lia. replace (x - y + y) with x by lia.
    apply Z.mod_small. lia.
  - f_equal. lia.
  - rewrite Z.mul_mod_idemp_l, Z.mul_mod_idemp_r by lia. f_equal. lia.
  - rewrite Z.mul_1_r. apply Z.mod_small. lia.
  - rewrite Z.mul_mod_idemp_r by lia. rewrite <- Z.add_mod by lia. f_equal. lia.
Qed.

Lemma field_ring_laws_witness :
  _add 15 7 11 = _add 15 11 7 /\
  _add 15 (_add 15 7 11) 13 = _add 15 7 (_add 15 11 13) /\
  _add 15 7 0 = 7 /\
  _substract 15 (_add 15 7 11) 11 = 7 /\
  _add 15 (_substract 15 7 11) 11 = 7 /\
  _multiply 15 7 11 = _multiply 15 11 7 /\
  _multiply 15 (_multiply 15 7 11) 13 = _multiply 15 7 (_multiply 15 11 13) /\
  _multiply 15 7 1 = 7 /\
  _multiply 15 7 (_add 15 11 13) = _add 15 (_multiply 15 7 11) (_multiply 15 7 13).
Proof.
  apply field_ring_laws; unfold UINT_MAX; lia.
Defined.

Lemma prime_le_product p l :
  (forall q, q ∈ l -> 0 < q) -> p ∈ l -> p <= product_of l.
Proof.
  unfold product_of. induction l as [|q l IH]; intros Hpos Hp.
  - by apply not_elem_of_nil in Hp.
  - cbn [foldr].
    assert (0 < q) as Hq by (apply Hpos; left).
    assert (0 < foldr Z.mul 1 l) as Hprod.
    { clear IH Hp. induction l as [|r l IH]; cbn [foldr]; [lia|].
      assert (0 < r) by (apply Hpos; right; left).
      assert (0 < foldr Z.mul 1 l); [|nia].
      apply IH. intros q' Hq'. apply Hpos.
      apply elem_of_cons in Hq' as [->|Hq']; [left|right; by right]. }
    apply elem_of_cons in Hp as [->|Hp]; [nia|].
    assert (p <= foldr Z.mul 1 l); [|nia].
    apply IH; [|done]. intros q' Hq'. apply Hpos. by right.
Qed.

(** X24. On success, when the product of the primes fits in an
    [unsigned int], [initialize] stores in [partials_], for each prime [p]
    of [primes_], the power [(N / p) ^ (p - 1)] modulo [N], [N] being the
    characteristic: the loop on the digits of the exponent is an
    exponentiation by squaring. *)
Theorem initialize_partials_are_powers (fuel : nat) (st : field_state)
    (minimum maximum : Z) (o : outcome) :
  0 <= minimum <= UINT_MAX -> 0 <= maximum < 2147483648 ->
  maximum + 2 <= Z.of_nat fuel ->
  product_of (primes_between minimum maximum) <= UINT_MAX ->
  initialize fuel st minimum maximum = Some o -> thrown o = false ->
  partials_ (state_of o) =
    map (fun p => (get_characteristic (state_of o) / p) ^ (p - 1)
                  mod get_characteristic (state_of o))
      (primes_ (state_of o)).
Proof.
  intros Hmin Hmax Hfuel Hfit.
  set (L := primes_between minimum maximum) in *.
  set (N := wrap (product_of L)).
  assert (forall p, p ∈ L -> partial_of N p = (N / p) ^ (p - 1) mod N) as Hpart.
  { intros p Hp. pose proof (product_of_primes_pos minimum maximum) as Hpos.
    fold L in Hpos. unfold N, UINT_MAX in *. rewrite wrap_small by lia.
    pose proof Hp as Hp'. apply elem_of_primes_between in Hp' as [Hrange Hprime].
    pose proof (Z.prime_ge_2 p Hprime) as Hp2.
    assert (p <= product_of L) as Hle.
    { apply prime_le_product; [|done]. intros q Hq.
      apply elem_of_primes_between in Hq as [_ Hq].
      pose proof (Z.prime_ge_2 q Hq). lia. }
    apply partial_of_spec; unfold UINT_MAX; lia. }
  unfold initialize, UINT_MAX in *.
  destruct (maximum <? 2) eqn:E2; [by intros [= <-]|]. apply Z.ltb_ge in E2.
  destruct (maximum <? minimum) eqn:Elt; [by intros [= <-]|]. apply Z.ltb_ge in Elt.
  pose proof (collect_primes_spec fuel fuel minimum maximum [] 1) as Hcollect.
  rewrite Hcollect by lia. clear Hcollect. rewrite app_nil_l, Z.mul_1_l.
  fold L. fold N. clearbody N. clearbody L.
  assert (forall P : option outcome,
    (P = match L with
         | [] => Some (invalid_argument
                         "The given interval does not contain a prime number."
                         {| primes_ := []; productOfAllCharacteristics_ := N;
                            partials_ := partials_ st |})
         | _ :: _ =>
             Some (initialized
                     {| primes_ := L; productOfAllCharacteristics_ := N;
                        partials_ := map (partial_of N) L |})
         end) ->
    P = Some o -> thrown o = false ->
    partials_ (state_of o) =
      map (fun p => (get_characteristic (state_of o) / p) ^ (p - 1)
                    mod get_characteristic (state_of o)) (primes_ (state_of o)))
    as Hmain.
  { intros P ->. destruct L as [|q l] eqn:EL; [by intros [= <-]|].
    rewrite <- EL in *. intros Ho _. injection Ho as <-.
    cbn [state_of partials_ primes_ get_characteristic
         productOfAllCharacteristics_].
    apply map_ext_in. intros p Hp. apply Hpart. by apply list_elem_of_In. }
  destruct (minimum =? maximum).
  - destruct (negb <$> _is_prime fuel (to_int minimum)) as [[|]|];
      [by intros [= <-]| |done].
    apply Hmain. by destruct L.
  - apply Hmain. by destruct L.
Qed.

Lemma initialize_partials_are_powers_witness :
  let st := {| primes_ := []; productOfAllCharacteristics_ := 0;
               partials_ := [] |} in
  let o := initialized {| primes_ := [3; 5]; productOfAllCharacteristics_ := 15;
                          partials_ := [10; 6] |} in
  partials_ (state_of o) =
    map (fun p => (get_characteristic (state_of o) / p) ^ (p - 1)
                  mod get_characteristic (state_of o))
      (primes_ (state_of o)).
Proof.
  intros st o.
  apply (initialize_partials_are_powers 20 st 3 5 o); unfold UINT_MAX;
    try lia; try reflexivity.
  vm_compute. discriminate.
Defined.

End MultiFieldRingClaims.

Section NumberOfColumns.
Import BoundaryMatrix.

Context {Dimension_option Pairing_option : Type}.
Variable update_up : Z -> Dimension_option -> Dimension_option.
Variable update_down : Z -> Dimension_option -> Dimension_option.
Variable pairing_remove_last : index -> Pairing_option -> Pairing_option.
Variable opts : Options.

Local Abbreviation matrix := (@Boundary_matrix Dimension_option Pairing_option).
Local Abbreviation present := (@columns_present Dimension_option Pairing_option).

Implicit Types s : matrix.

Lemma present_same_columns s s' :
  nextInsertIndex_ s' = nextInsertIndex_ s ->
  match matrix_ s, matrix_ s' with
  | vector_of _, vector_of _ => True
  | map_of m, map_of m' => dom m' = dom m
  | _, _ => False
  end ->
  present s -> present s'.
Proof.
  unfold columns_present. intros Hn Hm.
  destruct (matrix_ s) as [v|m], (matrix_ s') as [v'|m']; try done.
  rewrite Hn. intros Hs k Hk. rewrite <- elem_of_dom, Hm, elem_of_dom. by apply Hs.
Qed.

Lemma present_order_rows_if_swapped s :
  present s -> present (order_rows_if_swapped opts s).
Proof.
  unfold order_rows_if_swapped.
  destruct (activeSwapOption opts && rowSwapped_ s); [|done].
  apply present_same_columns; [done|]. simpl.
  destruct (matrix_ s); simpl; [done|by rewrite dom_fmap_L].
Qed.

Lemma present_set_column s i col :
  is_Some (column_at (matrix_ s) i) ->
  present s -> present (with_matrix s (set_column (matrix_ s) i col)).
Proof.
  intros Hi. apply present_same_columns; [done|]. simpl.
  destruct (matrix_ s) as [v|m]; simpl in *; [done|].
  by apply dom_insert_present.
Qed.

Lemma present_insert_boundary boundary dim s s' i :
  present s -> insert_boundary update_up opts boundary dim s = Some (s', i) ->
  present s'.
Proof.
  intros Hs. unfold insert_boundary, insert_boundary_at.
  pose proof (present_order_rows_if_swapped s Hs) as Hs0.
  replace (nextInsertIndex_ s) with (nextInsertIndex_ (order_rows_if_swapped opts s))
    by (unfold order_rows_if_swapped;
        by destruct (activeSwapOption opts && rowSwapped_ s)).
  generalize dependent (order_rows_if_swapped opts s). clear s Hs. intros s Hs.
  destruct (negb (insertable opts boundary)); [done|].
  unfold columns_present in *.
  destruct (matrix_ s) as [v|m] eqn:Hm.
  - destruct (has_row_access opts); [by intros [= <- <-]|].
    destruct (_ <=? _)%N; by intros [= <- <-].
  - intros [= <- <-]. simpl. intros k Hk. unfold emplace.
    destruct (decide (k = nextInsertIndex_ s)) as [->|Hne].
    + destruct (m !! nextInsertIndex_ s) eqn:E; [by rewrite E|].
      by rewrite lookup_insert_eq.
    + assert (is_Some (m !! k)) as Hmk by (apply Hs; lia).
      destruct (m !! nextInsertIndex_ s); [done|].
      by rewrite lookup_insert_ne.
Qed.

Lemma erase_row_columns rowIndex s s' :
  erase_row opts rowIndex s = Some s' ->
  matrix_ s' = matrix_ s /\ nextInsertIndex_ s' = nextInsertIndex_ s.
Proof.
  unfold erase_row. destruct (activeSwapOption opts); [|by intros [= <-]].
  destruct (matrix_ s) eqn:Hm; (destruct (indexToRow_ s !! rowIndex); [|done]);
    simpl; intros [= <-]; simpl; by rewrite ?Hm.
Qed.

Lemma present_remove_last s s' p :
  present s -> remove_last update_down pairing_remove_last opts s = Some (s', p) ->
  present s'.
Proof.
  intros Hs. unfold remove_last.
  destruct (nextInsertIndex_ s =? 0)%N eqn:E0; [by intros [= <- <-]|].
  apply N.eqb_neq in E0.
  destruct (column_at (matrix_ s) (N.pred (nextInsertIndex_ s))) as [removed|];
    [|done].
  simpl.
  match goal with
  | |- context [if ?c then _orderRows ?a else ?b] =>
      set (s2 := if c then _orderRows a else b)
  end.
  destruct (column_at (matrix_ s2) (N.pred (nextInsertIndex_ s))) as [removed'|];
    [|done].
  simpl.
  assert (match matrix_ s2 with
          | vector_of v => True
          | map_of m => forall k, (k < nextInsertIndex_ s)%N -> is_Some (m !! k)
          end) as Hs2.
  { unfold s2. unfold columns_present in Hs.
    match goal with |- context [if ?c then _ else _] => destruct c end; simpl.
    - destruct (matrix_ s) as [v|m]; simpl; [done|].
      intros k Hk. rewrite lookup_fmap, fmap_is_Some. by apply Hs.
    - exact Hs. }
  assert (nextInsertIndex_ s2 = N.pred (nextInsertIndex_ s)) as Hn2.
  { unfold s2. by match goal with |- context [if ?c then _ else _] => destruct c end. }
  destruct (match matrix_ s2 with map_of _ => _ | vector_of _ => _ end)
    as [matrix'|] eqn:Hmatrix; [|done]. simpl.
  destruct (erase_row _ _ _) as [s3|] eqn:He; [|done].
  simpl. intros [= <- <-]. apply erase_row_columns in He as [Hm3 Hn3].
  unfold columns_present. cbn [matrix_ nextInsertIndex_].
  rewrite Hm3, Hn3. cbn [with_matrix matrix_ nextInsertIndex_]. rewrite Hn2.
  destruct (matrix_ s2) as [v|m].
  - destruct (has_row_access opts); [|by injection Hmatrix as <-].
    destruct (_ =? _)%N; [|done]. by injection Hmatrix as <-.
  - injection Hmatrix as <-. intros k Hk.
    rewrite lookup_delete_ne by lia. apply Hs2. lia.
Qed.

Lemma present_serve r s s' o :
  present s ->
  serve update_up update_down pairing_remove_last opts r s = Some (s', o) ->
  present s'.
Proof.
  intros Hs. destruct r; simpl.
  - destruct (insert_boundary _ _ _ _ _) as [[s1 i]|] eqn:E; [|done].
    simpl. intros [= <- <-]. by eapply present_insert_boundary.
  - destruct (activeSwapOption opts); [|done]. unfold swap_rows.
    destruct (indexToRow_ s !! rowIndex1) as [r1|]; simpl; [|done].
    destruct (indexToRow_ s !! rowIndex2) as [r2|]; simpl; [|done].
    destruct (rowToIndex_ s !! r1) as [i1|]; simpl; [|done].
    destruct (rowToIndex_ s !! r2) as [i2|]; simpl; [|done].
    intros [= <- <-]. revert Hs. apply present_same_columns; simpl; [done|].
    by destruct (matrix_ s).
  - unfold add_to.
    destruct (column_at (matrix_ s) targetColumnIndex) as [t|] eqn:Et; simpl; [|done].
    destruct (column_at (matrix_ s) sourceColumnIndex) as [c|]; simpl; [|done].
    intros [= <- <-]. apply present_set_column; [by rewrite Et|done].
  - destruct (remove_last _ _ _ _) as [[s1 p]|] eqn:E; [|done].
    simpl. intros [= <- <-]. by eapply present_remove_last.
  - unfold get_column.
    destruct (column_at _ _); [|done]. simpl. intros [= <- <-].
    by apply present_order_rows_if_swapped.
  - unfold get_row. destruct (has_row_access opts); [|done].
    simpl. intros [= <- <-]. by apply present_order_rows_if_swapped.
  - unfold get_pivot.
    destruct (column_at _ _); [|done]. simpl. intros [= <- <-].
    by apply present_order_rows_if_swapped.
  - destruct (is_zero_cell _ _ _ _); [|done]. simpl. by intros [= <- <-].
Qed.

Lemma reachable_present s :
  reachable update_up update_down pairing_remove_last opts s -> present s.
Proof.
  induction 1 as [dim0 pair0 with_map|r s s' o _ IH Hserve|c s s' _ IH Hzero].
  - unfold columns_present. destruct with_map; simpl; [|done]. intros k Hk. lia.
  - by eapply present_serve.
  - unfold zero_column in Hzero.
    destruct (column_at (matrix_ s) c) as [col|] eqn:E; [|done].
    simpl in Hzero. injection Hzero as <-.
    apply present_set_column; [by rewrite E|done].
Qed.

(** X25. Whatever the container of the columns, in every matrix a client
    can have in hand [get_number_of_columns()] is the index that the next
    insertion will use: the size of the map of columns and
    [nextInsertIndex_] never part, through insertions, removals,
    additions, swaps of rows and reads. *)
Theorem number_of_columns_is_next_index s :
  reachable update_up update_down pairing_remove_last opts s ->
  get_number_of_columns s = nextInsertIndex_ s.
Proof.
  intros Hs. pose proof (reachable_present s Hs) as Hpresent.
  pose proof (reachable_wf update_up update_down pairing_remove_last opts s Hs)
    as Hwf.
  unfold get_number_of_columns, columns_present, container_wf in *.
  destruct (matrix_ s) as [v|m]; [done|].
  apply size_of_prefix_map. intros k. split; [apply Hwf|apply Hpresent].
Qed.

End NumberOfColumns.

Section NumberOfColumnsExample.
Import BoundaryMatrix.

Lemma number_of_columns_is_next_index_witness :
  let opts := mk_options true true true true false in
  let s := after DimensionHolder.update_up DimensionHolder.update_down
             (fun (_ : index) (p : unit) => p) opts
             [call_insert_boundary [] (-1); call_insert_boundary [] (-1);
              call_insert_boundary [0; 1]%N (-1); call_swap_rows 0 1;
              call_remove_last; call_insert_boundary [0; 1]%N (-1)]
             (empty_matrix ∅ tt true) in
  get_number_of_columns s = nextInsertIndex_ s.
Proof.
  intros opts s.
  apply (number_of_columns_is_next_index DimensionHolder.update_up
           DimensionHolder.update_down (fun (_ : index) (p : unit) => p) opts).
  apply reachable_after, reachable_empty.
Defined.

End NumberOfColumnsExample.
